(** * vision-slice: the simulation engine and its collision system

    A shallow embedding of [gameEngine.js] (class [GameEngine]) and
    [js/collisionSystem.js] (class [CollisionSystem]), followed by the
    code around them: the hand data of [poseDetection.js]
    ([_updateHandData], [_isHandOpen]), the loop and the buttons of
    [main.js] ([gameLoop], [startGame], [togglePause]) and
    [objectPool.js] (class [ObjectPool]).

    Conventions of the embedding.
    - A JavaScript number that holds a measure (time, position, speed,
      radius) is a real number of [R]: rounding of IEEE doubles is
      abstracted away, [Math.sqrt] is [sqrt], [Math.floor] is [Zfloor],
      [Math.max]/[Math.min] are [Rmax]/[Rmin].  The one division whose
      divisor can vanish (the roots of the swept test) goes through
      [jsdiv], which keeps the JavaScript results [Infinity] and [NaN].
    - A number that only ever holds an integer (ids, score, combo,
      generation) is a [Z].
    - Objects are mutable and shared by reference ([this.objects], the hit
      records, the removal queue and the frame summary all alias them), so
      the engine state carries a store [heap] of objects; a reference is an
      index into it, and an object literal allocates at its end.
    - [Math.random()] reads the next value of a stream [rnd : nat -> R];
      the cursor [randCount] is part of the state.  [performance.now()] is
      the argument [now].
    - The observer callbacks ([onSpawn], [onSlice], ...) are [null] after
      construction and never read engine state back; they are left out.
    - Fields assigned in a constructor and never again ([maxTime],
      [gravity], [minSliceSpeed], ...) are constants. *)

From Stdlib Require Import Reals Lra Lia ZArith.
From stdpp Require Import base decidable option list strings gmap.

Open Scope R_scope.

(** ** Numbers *)

#[global] Instance Rlt_decision : RelDecision Rlt := Rlt_dec.
#[global] Instance Rle_decision : RelDecision Rle := Rle_dec.
#[global] Instance Rgt_decision : RelDecision Rgt := Rgt_dec.
#[global] Instance Rge_decision : RelDecision Rge := Rge_dec.
#[global] Instance Req_decision : EqDecision R := Req_dec_T.

(** The value of a JavaScript division. *)
Inductive jsnum : Type :=
| Fin (r : R)
| PosInf
| NegInf
| NaN.

(** [n / d]: a zero divisor yields an infinity of the sign of [n], or
    [NaN] for [0 / 0].  (The divisors met here are sums of squares, so
    the zero is never a negative zero.) *)
Definition jsdiv (n d : R) : jsnum :=
  if decide (d = 0) then
    if decide (n = 0) then NaN
    else if decide (0 < n) then PosInf else NegInf
  else Fin (n / d).

(** [v >= c] and [v <= c] for a finite [c]; every comparison with [NaN]
    is false. *)
Definition js_ge (v : jsnum) (c : R) : bool :=
  match v with
  | Fin r => bool_decide (r >= c)
  | PosInf => true
  | NegInf | NaN => false
  end.

Definition js_le (v : jsnum) (c : R) : bool :=
  match v with
  | Fin r => bool_decide (r <= c)
  | NegInf => true
  | PosInf | NaN => false
  end.

(** A reference to an object: its index in the store. *)
Abbreviation loc := nat (only parsing).

(** ** Game objects (the literals of [_spawnObject] and [_splitFruit]) *)

Module Obj.
Record t : Type := mk {
  id : Z;
  type : option string;
  isBomb : bool;
  isHeart : bool;
  x : R;
  y : R;
  vx : R;
  vy : R;
  radius : R;
  rotationSpeed : R;
  rotation : R;
  active : bool;
  sliceCount : Z;
  maxSlices : Z;
  fadeTimer : R;
  fading : bool;
  generation : Z;
  halfSide : option Z
}.

Definition set_x (v : R) (s : t) : t :=
  mk (id s) (type s) (isBomb s) (isHeart s) v (y s) (vx s) (vy s) (radius s) (rotationSpeed s) (rotation s) (active s) (sliceCount s) (maxSlices s) (fadeTimer s) (fading s) (generation s) (halfSide s).
Definition set_y (v : R) (s : t) : t :=
  mk (id s) (type s) (isBomb s) (isHeart s) (x s) v (vx s) (vy s) (radius s) (rotationSpeed s) (rotation s) (active s) (sliceCount s) (maxSlices s) (fadeTimer s) (fading s) (generation s) (halfSide s).
Definition set_vy (v : R) (s : t) : t :=
  mk (id s) (type s) (isBomb s) (isHeart s) (x s) (y s) (vx s) v (radius s) (rotationSpeed s) (rotation s) (active s) (sliceCount s) (maxSlices s) (fadeTimer s) (fading s) (generation s) (halfSide s).
Definition set_rotation (v : R) (s : t) : t :=
  mk (id s) (type s) (isBomb s) (isHeart s) (x s) (y s) (vx s) (vy s) (radius s) (rotationSpeed s) v (active s) (sliceCount s) (maxSlices s) (fadeTimer s) (fading s) (generation s) (halfSide s).
Definition set_active (v : bool) (s : t) : t :=
  mk (id s) (type s) (isBomb s) (isHeart s) (x s) (y s) (vx s) (vy s) (radius s) (rotationSpeed s) (rotation s) v (sliceCount s) (maxSlices s) (fadeTimer s) (fading s) (generation s) (halfSide s).
Definition set_fadeTimer (v : R) (s : t) : t :=
  mk (id s) (type s) (isBomb s) (isHeart s) (x s) (y s) (vx s) (vy s) (radius s) (rotationSpeed s) (rotation s) (active s) (sliceCount s) (maxSlices s) v (fading s) (generation s) (halfSide s).
Definition set_fading (v : bool) (s : t) : t :=
  mk (id s) (type s) (isBomb s) (isHeart s) (x s) (y s) (vx s) (vy s) (radius s) (rotationSpeed s) (rotation s) (active s) (sliceCount s) (maxSlices s) (fadeTimer s) v (generation s) (halfSide s).
End Obj.

(** ** Hand input: [{ x, y, vx, vy, speed, visible }] *)

Module Hand.
Record t : Type := mk {
  x : R;
  y : R;
  vx : R;
  vy : R;
  speed : R;
  visible : bool
}.
End Hand.

(** [{ left, right }] *)
Record Hands : Type := mkHands {
  left_hand : Hand.t;
  right_hand : Hand.t
}.

(** ** collisionSystem.js *)

Module CollisionSystem.

Definition minSliceSpeed : R := 0.3.
Definition handRadius : R := 0.05.
Definition hitCooldown : R := 150.

(** [recentHits]: id -> timestamp. *)
Record t : Type := mk {
  recentHits : gmap Z R
}.

Definition new : t := mk ∅.

Inductive Side : Type := SideLeft | SideRight.

(** [hands[side]] *)
Definition hand_of (hands : Hands) (side : Side) : Hand.t :=
  match side with
  | SideLeft => left_hand hands
  | SideRight => right_hand hands
  end.

(** [{ object: obj, hand, side }] *)
Record HitRecord : Type := mkHit {
  object : loc;
  hand : Hand.t;
  side : Side
}.

(** The coefficients [a], [b], [c] of [_lineCircleIntersect]. *)
Definition quad_a (x1 y1 x2 y2 : R) : R :=
  let dx := x2 - x1 in
  let dy := y2 - y1 in
  dx * dx + dy * dy.

Definition quad_b (x1 y1 x2 y2 cx cy : R) : R :=
  let dx := x2 - x1 in
  let dy := y2 - y1 in
  let fx := x1 - cx in
  let fy := y1 - cy in
  2 * (fx * dx + fy * dy).

Definition quad_c (x1 y1 cx cy r : R) : R :=
  let fx := x1 - cx in
  let fy := y1 - cy in
  fx * fx + fy * fy - r * r.

Definition _lineCircleIntersect (x1 y1 x2 y2 cx cy r : R) : bool :=
  let a := quad_a x1 y1 x2 y2 in
  let b := quad_b x1 y1 x2 y2 cx cy in
  let c := quad_c x1 y1 cx cy r in
  let discriminant := b * b - 4 * a * c in
  if decide (discriminant < 0) then false
  else
    let discriminant := sqrt discriminant in
    let t1 := jsdiv (- b - discriminant) (2 * a) in
    let t2 := jsdiv (- b + discriminant) (2 * a) in
    (js_ge t1 0 && js_le t1 1) || (js_ge t2 0 && js_le t2 1).

(** [dist] and [combinedRadius] of [checkCollision]. *)
Definition dist (hand : Hand.t) (obj : Obj.t) : R :=
  let dx := Hand.x hand - Obj.x obj in
  let dy := Hand.y hand - Obj.y obj in
  sqrt (dx * dx + dy * dy).

Definition combinedRadius (obj : Obj.t) : R := handRadius + Obj.radius obj.

(** The hand's position one assumed tick earlier. *)
Definition prevX (hand : Hand.t) : R := Hand.x hand - Hand.vx hand * (1 / 60).
Definition prevY (hand : Hand.t) : R := Hand.y hand - Hand.vy hand * (1 / 60).

(** [checkCollision] up to its last line: either it has returned, or it
    is about to return the result of [_lineCircleIntersect] on these
    arguments. *)
Inductive Step : Type :=
| Return (b : bool)
| Swept (x1 y1 x2 y2 cx cy r : R).

Definition checkCollision_step (hand : Hand.t) (obj : Obj.t) : Step :=
  if negb (Hand.visible hand) then Return false
  else if decide (Hand.speed hand < minSliceSpeed) then Return false
  else if decide (dist hand obj < combinedRadius obj) then Return true
  else
    Swept (prevX hand) (prevY hand) (Hand.x hand) (Hand.y hand)
      (Obj.x obj) (Obj.y obj) (combinedRadius obj).

Definition checkCollision (hand : Hand.t) (obj : Obj.t) : bool :=
  match checkCollision_step hand obj with
  | Return b => b
  | Swept x1 y1 x2 y2 cx cy r => _lineCircleIntersect x1 y1 x2 y2 cx cy r
  end.

(** The loop over [['left', 'right']]: the first side that collides
    gives the hit record, and [break]s. *)
Fixpoint trySides (hands : Hands) (l : loc) (obj : Obj.t) (sides : list Side)
  : option HitRecord :=
  match sides with
  | [] => None
  | sd :: rest =>
      let hand := hand_of hands sd in
      if checkCollision hand obj then Some (mkHit l hand sd)
      else trySides hands l obj rest
  end.

(** The loop over [objects] of [checkAll]. *)
Fixpoint checkObjects (heap : list Obj.t) (now : R) (hands : Hands)
    (objects : list loc) (rh : gmap Z R) (hits : list HitRecord)
  : gmap Z R * list HitRecord :=
  match objects with
  | [] => (rh, hits)
  | l :: rest =>
      match heap !! l with
      | None => checkObjects heap now hands rest rh hits
      | Some obj =>
          if Obj.fading obj then checkObjects heap now hands rest rh hits
          else if decide (is_Some (rh !! Obj.id obj)) then
            checkObjects heap now hands rest rh hits
          else
            match trySides hands l obj [SideLeft; SideRight] with
            | Some h =>
                checkObjects heap now hands rest
                  (<[Obj.id obj := now]> rh) (hits ++ [h])
            | None => checkObjects heap now hands rest rh hits
            end
      end
  end.

(** The cooldown entries that survive the cleaning loop. *)
Definition prune (now : R) (rh : gmap Z R) : gmap Z R :=
  filter (λ p, ¬ (now - p.2 > hitCooldown)) rh.

Definition checkAll (heap : list Obj.t) (now : R) (hands : Hands)
    (objects : list loc) (cs : t) : t * list HitRecord :=
  let '(rh, hits) := checkObjects heap now hands objects (prune now (recentHits cs)) [] in
  (mk rh, hits).

(** A call of [checkAll]: the store and the clock at that moment, and
    the arguments. *)
Record Call : Type := mkCall {
  call_heap : list Obj.t;
  call_now : R;
  call_hands : Hands;
  call_objects : list loc
}.

(** Successive calls on one collision system, each with its result. *)
Fixpoint checkAll_seq (calls : list Call) (cs : t)
  : t * list (Call * list HitRecord) :=
  match calls with
  | [] => (cs, [])
  | c :: rest =>
      let '(cs, hits) :=
        checkAll (call_heap c) (call_now c) (call_hands c) (call_objects c) cs in
      let '(cs, results) := checkAll_seq rest cs in
      (cs, (c, hits) :: results)
  end.

(** The quadratic [a t^2 + b t + c = 0] has a real root in [[0, 1]]. *)
Definition root_in_unit (a b c : R) : Prop :=
  ∃ t : R, 0 <= t <= 1 ∧ a * (t * t) + b * t + c = 0.

(** The data model of a hand: [speed] is the norm of the velocity. *)
Definition speed_is_norm (hand : Hand.t) : Prop :=
  Hand.speed hand =
  sqrt (Hand.vx hand * Hand.vx hand + Hand.vy hand * Hand.vy hand).

End CollisionSystem.

(** ** gameEngine.js *)

Module GameEngine.

Definition FRUIT_TYPES : list string :=
  ["apple"; "orange"; "lemon"; "lime"; "grape"; "watermelon"]%string.

Definition comboWindow : R := 1.
Definition maxTime : R := 60.
Definition minSpawnInterval : R := 0.4.
Definition maxBombChance : R := 0.25.
Definition heartChance : R := 0.06.
Definition difficultyRate : R := 0.003.
Definition gravity : R := 0.4.

(** The fields of the engine that change, the store of the objects it
    has created, the module-level counter [nextId] and the cursor of the
    random stream. *)
Record t : Type := mk {
  collisionSystem : CollisionSystem.t;
  score : Z;
  combo : Z;
  bestCombo : Z;
  comboTimer : R;
  isGameOver : bool;
  isPaused : bool;
  elapsed : R;
  timeRemaining : R;
  spawnInterval : R;
  spawnTimer : R;
  bombChance : R;
  objects : list loc;
  heap : list Obj.t;
  nextId : Z;
  randCount : nat
}.

Definition set_collisionSystem (v : CollisionSystem.t) (s : t) : t :=
  mk v (score s) (combo s) (bestCombo s) (comboTimer s) (isGameOver s) (isPaused s) (elapsed s) (timeRemaining s) (spawnInterval s) (spawnTimer s) (bombChance s) (objects s) (heap s) (nextId s) (randCount s).
Definition set_score (v : Z) (s : t) : t :=
  mk (collisionSystem s) v (combo s) (bestCombo s) (comboTimer s) (isGameOver s) (isPaused s) (elapsed s) (timeRemaining s) (spawnInterval s) (spawnTimer s) (bombChance s) (objects s) (heap s) (nextId s) (randCount s).
Definition set_combo (v : Z) (s : t) : t :=
  mk (collisionSystem s) (score s) v (bestCombo s) (comboTimer s) (isGameOver s) (isPaused s) (elapsed s) (timeRemaining s) (spawnInterval s) (spawnTimer s) (bombChance s) (objects s) (heap s) (nextId s) (randCount s).
Definition set_bestCombo (v : Z) (s : t) : t :=
  mk (collisionSystem s) (score s) (combo s) v (comboTimer s) (isGameOver s) (isPaused s) (elapsed s) (timeRemaining s) (spawnInterval s) (spawnTimer s) (bombChance s) (objects s) (heap s) (nextId s) (randCount s).
Definition set_comboTimer (v : R) (s : t) : t :=
  mk (collisionSystem s) (score s) (combo s) (bestCombo s) v (isGameOver s) (isPaused s) (elapsed s) (timeRemaining s) (spawnInterval s) (spawnTimer s) (bombChance s) (objects s) (heap s) (nextId s) (randCount s).
Definition set_isGameOver (v : bool) (s : t) : t :=
  mk (collisionSystem s) (score s) (combo s) (bestCombo s) (comboTimer s) v (isPaused s) (elapsed s) (timeRemaining s) (spawnInterval s) (spawnTimer s) (bombChance s) (objects s) (heap s) (nextId s) (randCount s).
Definition set_isPaused (v : bool) (s : t) : t :=
  mk (collisionSystem s) (score s) (combo s) (bestCombo s) (comboTimer s) (isGameOver s) v (elapsed s) (timeRemaining s) (spawnInterval s) (spawnTimer s) (bombChance s) (objects s) (heap s) (nextId s) (randCount s).
Definition set_elapsed (v : R) (s : t) : t :=
  mk (collisionSystem s) (score s) (combo s) (bestCombo s) (comboTimer s) (isGameOver s) (isPaused s) v (timeRemaining s) (spawnInterval s) (spawnTimer s) (bombChance s) (objects s) (heap s) (nextId s) (randCount s).
Definition set_timeRemaining (v : R) (s : t) : t :=
  mk (collisionSystem s) (score s) (combo s) (bestCombo s) (comboTimer s) (isGameOver s) (isPaused s) (elapsed s) v (spawnInterval s) (spawnTimer s) (bombChance s) (objects s) (heap s) (nextId s) (randCount s).
Definition set_spawnInterval (v : R) (s : t) : t :=
  mk (collisionSystem s) (score s) (combo s) (bestCombo s) (comboTimer s) (isGameOver s) (isPaused s) (elapsed s) (timeRemaining s) v (spawnTimer s) (bombChance s) (objects s) (heap s) (nextId s) (randCount s).
Definition set_spawnTimer (v : R) (s : t) : t :=
  mk (collisionSystem s) (score s) (combo s) (bestCombo s) (comboTimer s) (isGameOver s) (isPaused s) (elapsed s) (timeRemaining s) (spawnInterval s) v (bombChance s) (objects s) (heap s) (nextId s) (randCount s).
Definition set_bombChance (v : R) (s : t) : t :=
  mk (collisionSystem s) (score s) (combo s) (bestCombo s) (comboTimer s) (isGameOver s) (isPaused s) (elapsed s) (timeRemaining s) (spawnInterval s) (spawnTimer s) v (objects s) (heap s) (nextId s) (randCount s).
Definition set_objects (v : list loc) (s : t) : t :=
  mk (collisionSystem s) (score s) (combo s) (bestCombo s) (comboTimer s) (isGameOver s) (isPaused s) (elapsed s) (timeRemaining s) (spawnInterval s) (spawnTimer s) (bombChance s) v (heap s) (nextId s) (randCount s).
Definition set_heap (v : list Obj.t) (s : t) : t :=
  mk (collisionSystem s) (score s) (combo s) (bestCombo s) (comboTimer s) (isGameOver s) (isPaused s) (elapsed s) (timeRemaining s) (spawnInterval s) (spawnTimer s) (bombChance s) (objects s) v (nextId s) (randCount s).
Definition set_nextId (v : Z) (s : t) : t :=
  mk (collisionSystem s) (score s) (combo s) (bestCombo s) (comboTimer s) (isGameOver s) (isPaused s) (elapsed s) (timeRemaining s) (spawnInterval s) (spawnTimer s) (bombChance s) (objects s) (heap s) v (randCount s).
Definition set_randCount (v : nat) (s : t) : t :=
  mk (collisionSystem s) (score s) (combo s) (bestCombo s) (comboTimer s) (isGameOver s) (isPaused s) (elapsed s) (timeRemaining s) (spawnInterval s) (spawnTimer s) (bombChance s) (objects s) (heap s) (nextId s) v.

(** [{ spawned, removed, hits }] *)
Record FrameInfo : Type := mkFrame {
  spawned : list loc;
  removed : list loc;
  hits : list CollisionSystem.HitRecord
}.

Definition emptyFrame : FrameInfo := mkFrame [] [] [].

(** The constructor, in a freshly loaded module ([nextId = 0]). *)
Definition new : t :=
  mk CollisionSystem.new 0 0 0 0 false false 0 30 1.5 0 0.12 [] [] 0 0.

Definition reset (s : t) : t :=
  mk (collisionSystem s) 0 0 0 0 false false 0 30 1.5 0 0.12 []
     (heap s) 0 (randCount s).

(** [Math.random()] *)
Definition random (rnd : nat -> R) (s : t) : R * t :=
  (rnd (randCount s), set_randCount (S (randCount s)) s).

(** [generateId()]: [++nextId] *)
Definition generateId (s : t) : Z * t :=
  ((nextId s + 1)%Z, set_nextId (nextId s + 1)%Z s).

(** An object literal: a new cell at the end of the store. *)
Definition alloc (obj : Obj.t) (s : t) : loc * t :=
  (length (heap s), set_heap (heap s ++ [obj]) s).

(** [this.objects.push(obj)] *)
Definition push_object (l : loc) (s : t) : t :=
  set_objects (objects s ++ [l]) s.

(** A field update of the object behind a reference. *)
Definition modify (l : loc) (f : Obj.t -> Obj.t) (s : t) : t :=
  set_heap (alter f l (heap s)) s.

(** [FRUIT_TYPES[i]]: [undefined] outside the array. *)
Definition fruitType (i : Z) : option string :=
  if decide (0 <= i)%Z then FRUIT_TYPES !! Z.to_nat i else None.

Definition _spawnObject (rnd : nat -> R) (s : t) : t * loc :=
  let '(roll, s) := random rnd s in
  let isBomb := bool_decide (roll < bombChance s) in
  let isHeart := negb isBomb && bool_decide (roll < bombChance s + heartChance) in
  let '(type, s) :=
    if isBomb then (Some "bomb"%string, s)
    else if isHeart then (Some "heart"%string, s)
    else
      let '(r, s) := random rnd s in
      (fruitType (Zfloor (r * INR (length FRUIT_TYPES))), s) in
  let '(id, s) := generateId s in
  let '(rx, s) := random rnd s in
  let '(rvx, s) := random rnd s in
  let '(rvy, s) := random rnd s in
  let '(radius, s) :=
    if isBomb then (0.035, s)
    else if isHeart then (0.03, s)
    else let '(r, s) := random rnd s in (0.028 + r * 0.014, s) in
  let '(rrot, s) := random rnd s in
  let obj :=
    Obj.mk id type isBomb isHeart
      (0.08 + rx * 0.84) (- 0.08) ((rvx - 0.5) * 0.12) (0.08 + rvy * 0.1)
      radius ((rrot - 0.5) * 0.08) 0 true 0 3 0 false 0 None in
  let '(l, s) := alloc obj s in
  (push_object l s, l).

(** One round of the loop of [_splitFruit]: the piece of index [i]. *)
Definition splitPiece (rnd : nat -> R) (obj : Obj.t) (hand : Hand.t)
    (newGen : Z) (newRadius perpX perpY spreadSpeed : R)
    (acc : t * list loc) (i : Z) : t * list loc :=
  let '(s, pieces) := acc in
  let sign : R := if decide (i = 0%Z) then 1 else - 1 in
  let '(id, s) := generateId s in
  let '(rrot, s) := random rnd s in
  let piece :=
    Obj.mk id (Obj.type obj) false false
      (Obj.x obj + perpX * sign * 0.01)
      (Obj.y obj + perpY * sign * 0.01)
      (Obj.vx obj + perpX * sign * spreadSpeed + Hand.vx hand * 0.05)
      (Obj.vy obj + perpY * sign * spreadSpeed + Hand.vy hand * 0.05 - 0.05)
      newRadius ((rrot - 0.5) * 0.15) (Obj.rotation obj) true 0
      (3 - newGen)%Z 0 false newGen (Some i) in
  let '(l, s) := alloc piece s in
  (push_object l s, pieces ++ [l]).

(** [_splitFruit(obj, hand)], [obj] being the object behind [l].  A
    reference outside the store cannot occur; the call then does
    nothing. *)
Definition _splitFruit (rnd : nat -> R) (s : t) (l : loc) (hand : Hand.t)
  : t * list loc :=
  match heap s !! l with
  | None => (s, [])
  | Some obj =>
      if decide (Obj.generation obj >= 2)%Z then
        (modify l (λ o, Obj.set_fadeTimer 0 (Obj.set_fading true o)) s, [])
      else
        let newGen := (Obj.generation obj + 1)%Z in
        let newRadius := Obj.radius obj * 0.7 in
        let handSpeed :=
          sqrt (Hand.vx hand * Hand.vx hand + Hand.vy hand * Hand.vy hand) in
        let '(perpX, perpY) :=
          if decide (handSpeed > 0.01)
          then (- Hand.vy hand / handSpeed, Hand.vx hand / handSpeed)
          else (1, 0) in
        let spreadSpeed := 0.15 + handSpeed * 0.1 in
        fold_left
          (splitPiece rnd obj hand newGen newRadius perpX perpY spreadSpeed)
          [0%Z; 1%Z] (s, [])
  end.

(** ** The steps of [update] *)

(** [this.elapsed += dt; this.timeRemaining -= dt] *)
Definition tick (dt : R) (s : t) : t :=
  set_timeRemaining (timeRemaining s - dt) (set_elapsed (elapsed s + dt) s).

(** The timer ran out: clamp and end the game. *)
Definition expire (s : t) : t :=
  set_isGameOver true (set_timeRemaining 0 s).

(** Difficulty ramp. *)
Definition ramp (s : t) : t :=
  set_bombChance (Rmin maxBombChance (0.12 + elapsed s * 0.001))
    (set_spawnInterval
       (Rmax minSpawnInterval (1.5 - elapsed s * difficultyRate)) s).

(** The size of a batch, from the value [r] of [Math.random()]. *)
Definition batchCount (r e : R) : Z :=
  (1 + Zfloor (r * Rmin 3 (1 + e / 20)))%Z.

(** [n] more rounds of the spawning loop, at index [i]. *)
Fixpoint spawnLoop (rnd : nat -> R) (count : Z) (n : nat) (i : Z)
    (s : t) (acc : list loc) : t * list loc :=
  match n with
  | O => (s, acc)
  | S n' =>
      let '(s, l) := _spawnObject rnd s in
      let '(r, s) := random rnd s in
      let s :=
        modify l
          (Obj.set_x (0.08 + (IZR i / IZR count) * 0.84 + (r - 0.5) * 0.1)) s in
      spawnLoop rnd count n' (i + 1)%Z s (acc ++ [l])
  end.

(** Spawning: returns the objects pushed to [frameInfo.spawned]. *)
Definition spawnStep (rnd : nat -> R) (dt : R) (s : t) : t * list loc :=
  let s := set_spawnTimer (spawnTimer s + dt) s in
  if decide (spawnTimer s >= spawnInterval s) then
    let s := set_spawnTimer 0 s in
    let '(r, s) := random rnd s in
    let count := batchCount r (elapsed s) in
    spawnLoop rnd count (Z.to_nat count) 0 s []
  else (s, []).

(** Combo decay. *)
Definition comboDecay (dt : R) (s : t) : t :=
  if decide (combo s > 0)%Z then
    let s := set_comboTimer (comboTimer s - dt) s in
    if decide (comboTimer s <= 0) then set_combo 0 s else s
  else s.

(** [vy += gravity * dt; x += vx * dt; y += vy * dt;
    rotation += rotationSpeed] *)
Definition integrate (dt : R) (o : Obj.t) : Obj.t :=
  let o := Obj.set_vy (Obj.vy o + gravity * dt) o in
  let o := Obj.set_x (Obj.x o + Obj.vx o * dt) o in
  let o := Obj.set_y (Obj.y o + Obj.vy o * dt) o in
  Obj.set_rotation (Obj.rotation o + Obj.rotationSpeed o) o.

(** One round of the physics loop; the accumulator is the store and the
    queue [toRemove]. *)
Definition physicsObj (dt : R) (acc : list Obj.t * list loc) (l : loc)
  : list Obj.t * list loc :=
  let '(h, toRemove) := acc in
  match h !! l with
  | None => acc
  | Some o =>
      if negb (Obj.active o) then acc
      else if Obj.fading o then
        let o := Obj.set_fadeTimer (Obj.fadeTimer o + dt) o in
        let o := integrate dt o in
        (<[l := o]> h,
         if decide (Obj.fadeTimer o > 0.6) then toRemove ++ [l] else toRemove)
      else
        let o := integrate dt o in
        let toRemove :=
          if decide (Obj.y o > 1.2) then toRemove ++ [l] else toRemove in
        let toRemove :=
          if decide (Obj.x o < - 0.15 ∨ Obj.x o > 1.15)
          then toRemove ++ [l] else toRemove in
        (<[l := o]> h, toRemove)
  end.

Definition physics (dt : R) (s : t) : t * list loc :=
  let '(h, toRemove) := fold_left (physicsObj dt) (objects s) (heap s, []) in
  (set_heap h s, toRemove).

(** [o.active && !o.fading] for the object behind [l]. *)
Definition is_sliceable (h : list Obj.t) (l : loc) : bool :=
  match h !! l with
  | Some o => Obj.active o && negb (Obj.fading o)
  | None => false
  end.

Definition sliceable (s : t) : list loc :=
  List.filter (is_sliceable (heap s)) (objects s).

Definition mark_fading (ft : R) (o : Obj.t) : Obj.t :=
  Obj.set_fadeTimer ft (Obj.set_fading true o).

(** One round of the loop that clears the screen after a bomb. *)
Definition clearOther (l : loc) (h : list Obj.t) (other : loc) : list Obj.t :=
  match h !! other with
  | None => h
  | Some o =>
      if bool_decide (other ≠ l) && Obj.active o && negb (Obj.fading o)
      then <[other := mark_fading 0.4 o]> h
      else h
  end.

(** The bomb branch, up to the test of the timer. *)
Definition resolveBomb (l : loc) (s : t) : t :=
  let s := set_timeRemaining (Rmax 0 (timeRemaining s - 10)) s in
  let s := modify l (mark_fading 0) s in
  set_heap (fold_left (clearOther l) (objects s) (heap s)) s.

(** The heart branch. *)
Definition resolveHeart (l : loc) (s : t) : t :=
  let s := set_timeRemaining (Rmin maxTime (timeRemaining s + 10)) s in
  modify l (mark_fading 0) s.

(** The points of a slice, from the generation of the fruit and the
    combo after its increment. *)
Definition points (generation combo : Z) : Z :=
  let genBonus := (generation + 1)%Z in
  (10 * genBonus * Z.max 1 combo)%Z.

(** The fruit branch; [generation] is never assigned after the object
    is created, so it is read from [obj], the object as it was found at
    the head of the round. *)
Definition resolveFruit (rnd : nat -> R) (hit : CollisionSystem.HitRecord)
    (obj : Obj.t) (s : t) : t * list loc :=
  let l := CollisionSystem.object hit in
  let '(s, pieces) := _splitFruit rnd s l (CollisionSystem.hand hit) in
  let s := modify l (mark_fading 0) s in
  let s := set_combo (combo s + 1)%Z s in
  let s := set_comboTimer comboWindow s in
  let s :=
    if decide (combo s > bestCombo s)%Z then set_bestCombo (combo s) s else s in
  let s := set_score (score s + points (Obj.generation obj) (combo s))%Z s in
  (s, pieces).

Definition push_hit (hit : CollisionSystem.HitRecord) (fi : FrameInfo)
  : FrameInfo :=
  mkFrame (spawned fi) (removed fi) (hits fi ++ [hit]).

Definition push_spawned (pieces : list loc) (fi : FrameInfo) : FrameInfo :=
  mkFrame (spawned fi ++ pieces) (removed fi) (hits fi).

Definition push_removed (l : loc) (fi : FrameInfo) : FrameInfo :=
  mkFrame (spawned fi) (removed fi ++ [l]) (hits fi).

(** The loop over [hits].  A hit whose reference is outside the store
    cannot occur; it is skipped. *)
Fixpoint resolveHits (rnd : nat -> R) (hs : list CollisionSystem.HitRecord)
    (s : t) (fi : FrameInfo) : t * FrameInfo :=
  match hs with
  | [] => (s, fi)
  | hit :: rest =>
      let l := CollisionSystem.object hit in
      match heap s !! l with
      | None => resolveHits rnd rest s fi
      | Some obj =>
          if Obj.isBomb obj then
            let s := resolveBomb l s in
            let fi := push_hit hit fi in
            if decide (timeRemaining s <= 0) then (set_isGameOver true s, fi)
            else resolveHits rnd rest s fi
          else if Obj.isHeart obj then
            resolveHits rnd rest (resolveHeart l s) (push_hit hit fi)
          else
            let '(s, pieces) := resolveFruit rnd hit obj s in
            resolveHits rnd rest s (push_hit hit (push_spawned pieces fi))
      end
  end.

(** [idx = a.indexOf(l); if (idx !== -1) a.splice(idx, 1)] *)
Fixpoint remove_first (l : loc) (a : list loc) : list loc :=
  match a with
  | [] => []
  | l' :: rest => if decide (l' = l) then rest else l' :: remove_first l rest
  end.

(** One round of the cleanup loop. *)
Definition cleanupObj (acc : t * FrameInfo) (l : loc) : t * FrameInfo :=
  let '(s, fi) := acc in
  let s := modify l (Obj.set_active false) s in
  let s := set_objects (remove_first l (objects s)) s in
  (s, push_removed l fi).

Definition cleanup (toRemove : list loc) (s : t) (fi : FrameInfo)
  : t * FrameInfo :=
  fold_left cleanupObj toRemove (s, fi).

(** The state when the collision step starts: difficulty ramp, spawning,
    combo decay and physics done.  Also returns the objects spawned and
    the removal queue. *)
Definition beforeCollision (rnd : nat -> R) (dt : R) (s : t)
  : t * list loc * list loc :=
  let s := ramp s in
  let '(s, spawned) := spawnStep rnd dt s in
  let s := comboDecay dt s in
  let '(s, toRemove) := physics dt s in
  (s, spawned, toRemove).

(** The collision step: [checkAll] on the sliceable objects. *)
Definition collide (now : R) (hands : Hands) (s : t)
  : t * list CollisionSystem.HitRecord :=
  let '(cs, hits) :=
    CollisionSystem.checkAll (heap s) now hands (sliceable s)
      (collisionSystem s) in
  (set_collisionSystem cs s, hits).

Definition update (rnd : nat -> R) (now dt : R) (hands : Hands) (s : t)
  : t * FrameInfo :=
  if isGameOver s || isPaused s then (s, emptyFrame)
  else
    let s := tick dt s in
    if decide (timeRemaining s <= 0) then (expire s, emptyFrame)
    else
      let '(s, spawned, toRemove) := beforeCollision rnd dt s in
      let '(s, hits) := collide now hands s in
      let '(s, fi) := resolveHits rnd hits s (mkFrame spawned [] []) in
      cleanup toRemove s fi.

Definition getActiveObjects (s : t) : list loc :=
  List.filter
    (λ l, match heap s !! l with Some o => Obj.active o | None => false end)
    (objects s).

(** [Math.random()] returns a number of [[0, 1)]. *)
Definition unit_stream (rnd : nat -> R) : Prop := ∀ n, 0 <= rnd n < 1.

(** The states an engine goes through: constructed, then any sequence
    of [update] with [dt >= 0], [reset] and assignments to [isPaused]
    (the pause button of the page). *)
Inductive reachable (rnd : nat -> R) : t -> Prop :=
| reach_new : reachable rnd new
| reach_reset s : reachable rnd s -> reachable rnd (reset s)
| reach_pause s b : reachable rnd s -> reachable rnd (set_isPaused b s)
| reach_update s now dt hands :
    reachable rnd s -> unit_stream rnd -> 0 <= dt ->
    reachable rnd (update rnd now dt hands s).1.

(** Successive calls of [update], each given as [(now, dt, hands)];
    the log pairs the state before each call with its frame summary. *)
Fixpoint updates (rnd : nat -> R) (calls : list (R * R * Hands)) (s : t)
  : t * list (t * FrameInfo) :=
  match calls with
  | [] => (s, [])
  | (now, dt, hands) :: rest =>
      let '(s1, fi) := update rnd now dt hands s in
      let '(s2, log) := updates rnd rest s1 in
      (s2, (s, fi) :: log)
  end.

End GameEngine.

(** ** Notions used by the properties *)

(** What no assignment of the engine changes once an object exists. *)
Definition same_kind (o o' : Obj.t) : Prop :=
  Obj.id o' = Obj.id o ∧ Obj.type o' = Obj.type o ∧
  Obj.isBomb o' = Obj.isBomb o ∧ Obj.isHeart o' = Obj.isHeart o ∧
  Obj.radius o' = Obj.radius o ∧ Obj.generation o' = Obj.generation o.

(** [o'] is a later state of the object [o]: same kind, and [fading] is
    never cleared. *)
Definition ages (o o' : Obj.t) : Prop :=
  same_kind o o' ∧ (Obj.fading o = true → Obj.fading o' = true).

(** [h'] is a later state of the store [h]: every object is still there,
    aged. *)
Definition evolves (h h' : list Obj.t) : Prop :=
  ∀ l o, h !! l = Some o → ∃ o', h' !! l = Some o' ∧ ages o o'.

(** The valid ranges of the timer and of the combo. *)
Definition ranges_ok (s : GameEngine.t) : Prop :=
  0 <= GameEngine.timeRemaining s <= GameEngine.maxTime ∧
  (0 <= GameEngine.combo s)%Z.

(** What holds of every state of a running game; [ranges_ok] is its first
    part. *)
Record Inv (s : GameEngine.t) : Prop := mkInv {
  inv_ranges : ranges_ok s;
  inv_timer : GameEngine.isGameOver s = false → 0 < GameEngine.timeRemaining s;
  inv_combo : (0 < GameEngine.combo s)%Z → 0 < GameEngine.comboTimer s;
  inv_spawn :
    GameEngine.isGameOver s = false →
    GameEngine.spawnTimer s <
    Rmax GameEngine.minSpawnInterval
      (1.5 - GameEngine.elapsed s * GameEngine.difficultyRate)
}.

(** The hit struck a fruit (neither bomb nor heart), as recorded in the
    store [h]. *)
Definition is_fruit_hit (h : list Obj.t) (hit : CollisionSystem.HitRecord) : bool :=
  match h !! CollisionSystem.object hit with
  | Some o => negb (Obj.isBomb o) && negb (Obj.isHeart o)
  | None => false
  end.

Definition fruit_hits (h : list Obj.t) (hs : list CollisionSystem.HitRecord) : Z :=
  Z.of_nat (length (List.filter (is_fruit_hit h) hs)).

(** An object that the bounds checks of the physics step queue without
    moving it: past the lower bound or a side margin, or, when fading,
    past the fade duration. *)
Definition out_of_play (o : Obj.t) : Prop :=
  Obj.active o = true ∧
  if Obj.fading o then Obj.fadeTimer o > 0.6
  else Obj.y o > 1.2 ∨ Obj.x o < - 0.15 ∨ Obj.x o > 1.15.

(** The engine is running: neither over nor paused. *)
Definition running (s : GameEngine.t) : Prop :=
  GameEngine.isGameOver s = false ∧ GameEngine.isPaused s = false.

(** The fields that only the timer, difficulty, spawning and
    hit-resolution steps assign. *)
Definition scalars (s : GameEngine.t) :=
  (GameEngine.score s, GameEngine.combo s, GameEngine.bestCombo s,
   GameEngine.comboTimer s, GameEngine.isGameOver s, GameEngine.isPaused s,
   GameEngine.elapsed s, GameEngine.timeRemaining s,
   GameEngine.spawnInterval s, GameEngine.spawnTimer s,
   GameEngine.bombChance s).

(** [h'] holds the objects of [h] where they were: same position, same
    flags, same fade timer. *)
Definition unmoved (h h' : list Obj.t) : Prop :=
  ∀ l o, h !! l = Some o →
    ∃ o', h' !! l = Some o' ∧
          Obj.x o' = Obj.x o ∧ Obj.y o' = Obj.y o ∧
          Obj.active o' = Obj.active o ∧ Obj.fading o' = Obj.fading o ∧
          Obj.fadeTimer o' = Obj.fadeTimer o.

(** What every step taken after the timer test (spawning, physics,
    collision, hit resolution, cleanup) guarantees between the state [s]
    before it and the state [s'] after it. *)
Record safe_step (s s' : GameEngine.t) : Prop := mkSafe {
  safe_spawnTimer : GameEngine.spawnTimer s' = GameEngine.spawnTimer s;
  safe_elapsed : GameEngine.elapsed s' = GameEngine.elapsed s;
  safe_paused : GameEngine.isPaused s' = GameEngine.isPaused s;
  safe_over :
    GameEngine.isGameOver s = true → GameEngine.isGameOver s' = true;
  safe_ranges : ranges_ok s → ranges_ok s';
  safe_timer :
    (GameEngine.isGameOver s = false → 0 < GameEngine.timeRemaining s) →
    GameEngine.isGameOver s' = false → 0 < GameEngine.timeRemaining s';
  safe_combo :
    ((0 < GameEngine.combo s)%Z → 0 < GameEngine.comboTimer s) →
    (0 < GameEngine.combo s')%Z → 0 < GameEngine.comboTimer s';
  safe_heap : evolves (GameEngine.heap s) (GameEngine.heap s')
}.

(** ** Sample inputs *)

Module Sample.

(** A hand at the origin moving right at speed 1, and an apple one unit
    to its right. *)
Definition hand : Hand.t := Hand.mk 0 0 1 0 1 true.
Definition far_obj : Obj.t :=
  Obj.mk 1 (Some "apple"%string) false false 1 0 0 0 0.03 0 0 true 0 3 0 false 0 None.

(** The same apple under the hand, hit at time 0 and checked again 100 ms
    later. *)
Definition near_obj : Obj.t :=
  Obj.mk 1 (Some "apple"%string) false false 0 0 0 0 0.03 0 0 true 0 3 0 false 0 None.
Definition hands : Hands := mkHands hand hand.
Definition stamped : CollisionSystem.t := CollisionSystem.mk (<[1%Z := 0]> ∅).
Definition call : CollisionSystem.Call :=
  CollisionSystem.mkCall [near_obj] 100 hands [0%nat].

(** A piece of generation 2, and an engine holding the apple and the
    piece. *)
Definition last_piece : Obj.t :=
  Obj.mk 2 (Some "apple"%string) false false 0.5 0.5 0 0 0.0147 0 0 true 0 1 0 false 2 (Some 0%Z).
Definition two_objects : GameEngine.t :=
  GameEngine.set_nextId 2
    (GameEngine.set_heap [near_obj; last_piece]
       (GameEngine.set_objects [0%nat; 1%nat] GameEngine.new)).

(** The random stream that always returns one half. *)
Definition half : nat -> R := λ _, 0.5.

(** An engine holding a bomb and the apple. *)
Definition bomb : Obj.t :=
  Obj.mk 1 (Some "bomb"%string) true false 0 0 0 0 0.035 0 0 true 0 3 0 false 0 None.
Definition apple : Obj.t :=
  Obj.mk 2 (Some "apple"%string) false false 0.5 0.5 0 0 0.03 0 0 true 0 3 0 false 0 None.
Definition bomb_and_apple : GameEngine.t :=
  GameEngine.set_nextId 2
    (GameEngine.set_heap [bomb; apple]
       (GameEngine.set_objects [0%nat; 1%nat] GameEngine.new)).
Definition hit_on (l : loc) : CollisionSystem.HitRecord :=
  CollisionSystem.mkHit l hand CollisionSystem.SideLeft.

(** The engine one and a half seconds after construction, when the
    first batch is due. *)
Definition due : GameEngine.t := GameEngine.ramp (GameEngine.tick 1.5 GameEngine.new).

(** No hand in view. *)
Definition no_hand : Hand.t := Hand.mk 0 0 0 0 0 false.
Definition idle : Hands := mkHands no_hand no_hand.

(** The first batch under the stream [half]: one lime, as the physics
    step of the same call leaves it. *)
Definition lime : Obj.t :=
  Obj.mk 1 (Some "lime"%string) false false 0.08 1.015 0 0.73 0.035 0 0
    true 0 3 0 false 0 None.

(** A hand over the lime, moving right at speed 1. *)
Definition striking : Hand.t := Hand.mk 0.08 1.015 1 0 1 true.
Definition strike : Hands := mkHands striking no_hand.

(** The lime as [_spawnObject] creates it, and the engine after the
    spawning step of the first call [update(1.5, idle)]. *)
Definition lime_born : Obj.t :=
  Obj.mk 1 (Some "lime"%string) false false 0.08 (- 0.08) 0 0.13 0.035 0 0
    true 0 3 0 false 0 None.
Definition spawned_first : GameEngine.t :=
  GameEngine.mk CollisionSystem.new 0 0 0 0 false false 1.5 28.5 1.4955 0 0.1215
    [0%nat] [lime_born] 1 9.

(** The engine after that first call. *)
Definition after_first : GameEngine.t :=
  GameEngine.mk CollisionSystem.new 0 0 0 0 false false 1.5 28.5 1.4955 0 0.1215
    [0%nat] [lime] 1 9.

(** The hit of the hand [striking] on the lime, and the collision system
    once it has stamped it at time 0. *)
Definition lime_hit : CollisionSystem.HitRecord :=
  CollisionSystem.mkHit 0 striking CollisionSystem.SideLeft.
Definition struck : GameEngine.t :=
  GameEngine.set_collisionSystem (CollisionSystem.mk (<[1%Z := 0]> ∅)) after_first.

(** The scenario of the specification: a combo of 5 about to expire. *)
Definition expiring : GameEngine.t :=
  GameEngine.set_combo 5 (GameEngine.set_comboTimer 0.0001 GameEngine.new).

(** Two frames without time and without hands. *)
Definition still_calls : list (R * R * Hands) := [(0, 0, idle); (16, 0, idle)].

End Sample.

(** ** Further notions *)

(** The segment from [(x1, y1)] to [(x2, y2)] has a point in the closed
    disc of centre [(cx, cy)] and radius [r]. *)
Definition segment_meets_disc (x1 y1 x2 y2 cx cy r : R) : Prop :=
  ∃ t : R, 0 <= t <= 1 ∧
    (x1 + t * (x2 - x1) - cx) * (x1 + t * (x2 - x1) - cx) +
    (y1 + t * (y2 - y1) - cy) * (y1 + t * (y2 - y1) - cy) <= r * r.

(** The id of the object of a hit record ([0] for a reference outside
    the store, which no call produces). *)
Definition hit_id (heap : list Obj.t) (h : CollisionSystem.HitRecord) : Z :=
  match heap !! CollisionSystem.object h with
  | Some o => Obj.id o
  | None => 0%Z
  end.

(** The side that [checkAll] records for an object some hand collides
    with: the left one when it collides. *)
Definition first_side (hands : Hands) (o : Obj.t) : CollisionSystem.Side :=
  if CollisionSystem.checkCollision (left_hand hands) o
  then CollisionSystem.SideLeft else CollisionSystem.SideRight.

(** What [checkAll] guarantees of a hit record [h] of a call at time
    [now] that started with the cache [before] and ended with [after]. *)
Definition sound_hit (heap : list Obj.t) (now : R) (hands : Hands)
    (objects : list nat) (before after : gmap Z R)
    (h : CollisionSystem.HitRecord) : Prop :=
  ∃ o, CollisionSystem.object h ∈ objects ∧
       heap !! CollisionSystem.object h = Some o ∧
       Obj.fading o = false ∧
       (∀ t0, before !! Obj.id o = Some t0 → now - t0 > CollisionSystem.hitCooldown) ∧
       after !! Obj.id o = Some now ∧
       CollisionSystem.side h = first_side hands o ∧
       CollisionSystem.hand h = CollisionSystem.hand_of hands (CollisionSystem.side h) ∧
       CollisionSystem.checkCollision (CollisionSystem.hand h) o = true.

(** What holds of every object the engine creates, whatever happens to
    it afterwards. *)
Record obj_ok (o : Obj.t) : Prop := mkObjOk {
  ok_generation : (0 <= Obj.generation o <= 2)%Z;
  ok_maxSlices : Obj.maxSlices o = (3 - Obj.generation o)%Z;
  ok_sliceCount : Obj.sliceCount o = 0%Z;
  ok_radius : 0 < Obj.radius o < 0.042;
  ok_type :
    ∃ ty, Obj.type o = Some ty ∧
          if Obj.isBomb o then ty = "bomb"%string
          else if Obj.isHeart o then ty = "heart"%string
          else ty ∈ GameEngine.FRUIT_TYPES;
  ok_kind : Obj.isBomb o = true → Obj.isHeart o = false;
  ok_special :
    Obj.isBomb o = true ∨ Obj.isHeart o = true → Obj.generation o = 0%Z;
  ok_half :
    match Obj.halfSide o with
    | None => Obj.generation o = 0%Z
    | Some i => (i = 0 ∨ i = 1)%Z ∧ (1 <= Obj.generation o)%Z
    end
}.

(** [o'] is a later state of [o] in which only the position, the
    velocity, the rotation and the fading state may differ. *)
Definition keeps (o o' : Obj.t) : Prop :=
  same_kind o o' ∧ Obj.active o' = Obj.active o ∧
  Obj.maxSlices o' = Obj.maxSlices o ∧ Obj.sliceCount o' = Obj.sliceCount o ∧
  Obj.halfSide o' = Obj.halfSide o.

(** The live set [this.objects] is well formed: no object is listed
    twice, every listed object is active and carries an id handed out
    since the last reset, and no two listed objects share an id. *)
Record Live (s : GameEngine.t) : Prop := mkLive {
  live_nodup : NoDup (GameEngine.objects s);
  live_active :
    ∀ l, l ∈ GameEngine.objects s →
      ∃ o, GameEngine.heap s !! l = Some o ∧ Obj.active o = true ∧
           (1 <= Obj.id o <= GameEngine.nextId s)%Z;
  live_ids :
    ∀ l l' o o', l ∈ GameEngine.objects s → l' ∈ GameEngine.objects s →
      GameEngine.heap s !! l = Some o → GameEngine.heap s !! l' = Some o' →
      Obj.id o = Obj.id o' → l = l';
  live_store : Forall obj_ok (GameEngine.heap s);
  live_next : (0 <= GameEngine.nextId s)%Z
}.

(** The score and the combo counters. *)
Record Tally (s : GameEngine.t) : Prop := mkTally {
  tally_score : (0 <= GameEngine.score s)%Z ∧ (10 | GameEngine.score s)%Z;
  tally_combo : (0 <= GameEngine.combo s <= GameEngine.bestCombo s)%Z
}.

(** The difficulty: within its bounds, and while the game is on a
    function of the time played; a game that is over has no time left. *)
Record Ramp (s : GameEngine.t) : Prop := mkRamp {
  ramp_elapsed : 0 <= GameEngine.elapsed s;
  ramp_interval :
    GameEngine.minSpawnInterval <= GameEngine.spawnInterval s <= 1.5;
  ramp_bomb : 0.12 <= GameEngine.bombChance s <= GameEngine.maxBombChance;
  ramp_exact :
    GameEngine.isGameOver s = false →
    GameEngine.spawnInterval s =
      Rmax GameEngine.minSpawnInterval
        (1.5 - GameEngine.elapsed s * GameEngine.difficultyRate) ∧
    GameEngine.bombChance s =
      Rmin GameEngine.maxBombChance (0.12 + GameEngine.elapsed s * 0.001);
  ramp_over : GameEngine.isGameOver s = true → GameEngine.timeRemaining s = 0
}.

(** The fields that the steps acting on the store alone leave as they
    are. *)
Definition tally (s : GameEngine.t) :=
  (GameEngine.score s, GameEngine.combo s, GameEngine.bestCombo s,
   GameEngine.spawnInterval s, GameEngine.bombChance s, GameEngine.elapsed s,
   GameEngine.nextId s, GameEngine.objects s).

(** What every step taken after the difficulty ramp guarantees between
    the state [s] before it and the state [s'] after it. *)
Record tail_step (s s' : GameEngine.t) : Prop := mkTail {
  tail_interval : GameEngine.spawnInterval s' = GameEngine.spawnInterval s;
  tail_bomb : GameEngine.bombChance s' = GameEngine.bombChance s;
  tail_elapsed : GameEngine.elapsed s' = GameEngine.elapsed s;
  tail_best : (GameEngine.bestCombo s <= GameEngine.bestCombo s')%Z;
  tail_next : (GameEngine.nextId s <= GameEngine.nextId s')%Z;
  tail_live : Live s → Live s';
  tail_tally :
    Live s → Tally s →
    Tally s' ∧ (GameEngine.score s <= GameEngine.score s')%Z
}.

(** Every object of the store [h] is still in [h'], in a state that [R]
    relates to the one it had. *)
Definition related (R : Obj.t → Obj.t → Prop) (h h' : list Obj.t) : Prop :=
  ∀ l o, h !! l = Some o → ∃ o', h' !! l = Some o' ∧ R o o'.

(** [o'] is a later state of [o] that has not moved: same position,
    velocity and rotation. *)
Definition settled (o o' : Obj.t) : Prop :=
  ages o o' ∧ Obj.x o' = Obj.x o ∧ Obj.y o' = Obj.y o ∧
  Obj.vx o' = Obj.vx o ∧ Obj.vy o' = Obj.vy o ∧
  Obj.rotation o' = Obj.rotation o.

(** The object behind [l] has been removed: it is inactive and no longer
    listed. *)
Definition gone (s : GameEngine.t) (l : nat) : Prop :=
  (∃ o, GameEngine.heap s !! l = Some o ∧ Obj.active o = false) ∧
  l ∉ GameEngine.objects s.

(** ** Further sample inputs *)

Module Demo.

(** An apple that has fallen below the screen, and an engine holding
    it. *)
Definition fallen : Obj.t :=
  Obj.mk 1 (Some "apple"%string) false false 0.5 1.3 0 0 0.03 0 0 true 0 3 0 false 0 None.
Definition falling : GameEngine.t :=
  GameEngine.set_nextId 1
    (GameEngine.set_heap [fallen] (GameEngine.set_objects [0%nat] GameEngine.new)).

End Demo.

(** ** poseDetection.js: the hand data that the game loop reads

    [_updateHandData] and [_isHandOpen] of class [PoseDetection].  The
    results of the landmark models are inputs; [performance.now()] is the
    argument [now]; a label is the side ['left'] or ['right']. *)

Module PoseDetection.

(** An entry of a history: [{ x, y, t }]. *)
Record Entry : Type := mkEntry {
  ex : R;
  ey : R;
  et : R
}.

Definition maxHistory : nat := 5.

(** [handHistory] and [hands]. *)
Record t : Type := mk {
  historyLeft : list Entry;
  historyRight : list Entry;
  hands : Hands
}.

(** The constructor. *)
Definition new : t :=
  mk [] [] (mkHands (Hand.mk 0 0 0 0 0 false) (Hand.mk 0 0 0 0 0 false)).

(** [this.handHistory[label]] *)
Definition handHistory (label : CollisionSystem.Side) (s : t) : list Entry :=
  match label with
  | CollisionSystem.SideLeft => historyLeft s
  | CollisionSystem.SideRight => historyRight s
  end.

Definition set_history (label : CollisionSystem.Side) (h : list Entry) (s : t) : t :=
  match label with
  | CollisionSystem.SideLeft => mk h (historyRight s) (hands s)
  | CollisionSystem.SideRight => mk (historyLeft s) h (hands s)
  end.

Definition set_hand (label : CollisionSystem.Side) (hand : Hand.t) (s : t) : t :=
  match label with
  | CollisionSystem.SideLeft =>
      mk (historyLeft s) (historyRight s) (mkHands hand (right_hand (hands s)))
  | CollisionSystem.SideRight =>
      mk (historyLeft s) (historyRight s) (mkHands (left_hand (hands s)) hand)
  end.

Definition _updateHandData (now : R) (label : CollisionSystem.Side) (x y : R)
    (s : t) : t :=
  let history := handHistory label s ++ [mkEntry x y now] in
  let history :=
    if decide (maxHistory < length history)%nat then drop 1 history else history in
  let hand := CollisionSystem.hand_of (hands s) label in
  let hand := Hand.mk x y (Hand.vx hand) (Hand.vy hand) (Hand.speed hand) true in
  let hand :=
    if decide (2 <= length history)%nat then
      match history !! 0%nat with
      | Some oldest =>
          let dt := (now - et oldest) / 1000 in
          if decide (dt > 0.001) then
            let vx := (x - ex oldest) / dt in
            let vy := (y - ey oldest) / dt in
            Hand.mk x y vx vy (sqrt (vx * vx + vy * vy)) true
          else hand
      | None => hand
      end
    else hand in
  set_hand label hand (set_history label history s).

(** The first two statements of [_processHands]:
    [this.hands.left.visible = false; this.hands.right.visible = false]. *)
Definition hide (hand : Hand.t) : Hand.t :=
  Hand.mk (Hand.x hand) (Hand.y hand) (Hand.vx hand) (Hand.vy hand)
    (Hand.speed hand) false.

Definition hideHands (s : t) : t :=
  mk (historyLeft s) (historyRight s)
     (mkHands (hide (left_hand (hands s))) (hide (right_hand (hands s)))).

(** The states of the hand data: constructed, then any sequence of
    frames, each hiding both hands and then updating the detected ones
    ([_processHands] calls [_updateHandData] for each detected hand and
    for each fallback wrist). *)
Inductive tracked : t -> Prop :=
| tracked_new : tracked new
| tracked_hide s : tracked s -> tracked (hideHands s)
| tracked_update s now label x y :
    tracked s -> tracked (_updateHandData now label x y s).

(** A landmark: [{ x, y, z }]. *)
Record Landmark : Type := mkLandmark {
  lx : R;
  ly : R;
  lz : R
}.

(** [Math.sqrt((a.x - b.x) ** 2 + (a.y - b.y) ** 2 + (a.z - b.z) ** 2)] *)
Definition dist3 (a b : Landmark) : R :=
  sqrt ((lx a - lx b) * (lx a - lx b) + (ly a - ly b) * (ly a - ly b) +
        (lz a - lz b) * (lz a - lz b)).

Definition tipIds : list nat := [8; 12; 16; 20]%nat.
Definition mcpIds : list nat := [5; 9; 13; 17]%nat.

(** One round of the loop of [_isHandOpen]; [None] when a landmark is
    missing (reading a coordinate of [undefined] throws). *)
Definition countFinger (lm : list Landmark) (acc : option Z) (ids : nat * nat)
  : option Z :=
  match acc, lm !! 0%nat, lm !! ids.1, lm !! ids.2 with
  | Some extendedCount, Some wrist, Some tip, Some mcp =>
      let tipDist := dist3 tip wrist in
      let mcpDist := dist3 mcp wrist in
      if decide (tipDist > mcpDist * 1.15) then Some (extendedCount + 1)%Z
      else Some extendedCount
  | _, _, _, _ => None
  end.

Definition _isHandOpen (lm : list Landmark) : option bool :=
  match fold_left (countFinger lm) (zip tipIds mcpIds) (Some 0%Z) with
  | Some extendedCount => Some (bool_decide (extendedCount >= 3)%Z)
  | None => None
  end.

(** A change of coordinates of the image: mirrored or not, scaled by
    [k], moved by [(a, b, c)]. *)
Definition place (mirror : bool) (k a b c : R) (p : Landmark) : Landmark :=
  mkLandmark (if mirror then a - k * lx p else a + k * lx p)
             (b + k * ly p) (c + k * lz p).

End PoseDetection.

(** ** main.js: the game loop

    The state of the page that the loop and the buttons share: the
    engine, [running] and [lastTime].  The hand data and the open-hand
    flags of the frame are inputs, as is [performance.now()]; the DOM,
    audio, rendering and particle effects read the engine and are left
    out. *)

Module Main.

Record t : Type := mk {
  engine : GameEngine.t;
  running : bool;
  lastTime : R
}.

(** The page as loaded. *)
Definition init : t := mk GameEngine.new false 0.

(** [{ left, right }] of [getHandOpen()]. *)
Record HandOpen : Type := mkOpen {
  open_left : bool;
  open_right : bool
}.

(** [{ ...hand, visible: hand.visible && open }] *)
Definition effectiveHand (hand : Hand.t) (open : bool) : Hand.t :=
  Hand.mk (Hand.x hand) (Hand.y hand) (Hand.vx hand) (Hand.vy hand)
    (Hand.speed hand) (Hand.visible hand && open).

Definition effectiveHands (hands : Hands) (handOpen : HandOpen) : Hands :=
  mkHands (effectiveHand (left_hand hands) (open_left handOpen))
          (effectiveHand (right_hand hands) (open_right handOpen)).

(** [Math.min((timestamp - lastTime) / 1000, 0.05)] *)
Definition frameDt (timestamp lastTime : R) : R :=
  Rmin ((timestamp - lastTime) / 1000) 0.05.

(** [gameLoop(timestamp)]; [now] is the clock read by the collision
    system during the call.  Returns the frame summary of the engine,
    if the loop ran. *)
Definition gameLoop (rnd : nat -> R) (now timestamp : R) (hands : Hands)
    (handOpen : HandOpen) (m : t) : t * option GameEngine.FrameInfo :=
  if negb (running m) then (m, None)
  else
    let dt := frameDt timestamp (lastTime m) in
    let '(e, fi) :=
      GameEngine.update rnd now dt (effectiveHands hands handOpen) (engine m) in
    (mk e (if GameEngine.isGameOver e then false else true) timestamp, Some fi).

(** [startGame()], once the camera, the models and the sounds are
    ready. *)
Definition startGame (now : R) (m : t) : t :=
  mk (GameEngine.reset (engine m)) true now.

Definition togglePause (now : R) (m : t) : t :=
  if GameEngine.isGameOver (engine m) then m
  else if GameEngine.isPaused (engine m) then
    mk (GameEngine.set_isPaused false (engine m)) true now
  else mk (GameEngine.set_isPaused true (engine m)) false (lastTime m).

(** The states of the page: loaded, then any sequence of starts, pause
    toggles and frames whose timestamp is not before [lastTime]. *)
Inductive session (rnd : nat -> R) : t -> Prop :=
| session_init : session rnd init
| session_start m now : session rnd m -> session rnd (startGame now m)
| session_pause m now : session rnd m -> session rnd (togglePause now m)
| session_frame m now timestamp hands handOpen :
    session rnd m -> GameEngine.unit_stream rnd -> lastTime m <= timestamp ->
    session rnd (gameLoop rnd now timestamp hands handOpen m).1.

End Main.

(** ** objectPool.js

    Class [ObjectPool].  The pooled objects are mutable and shared by
    reference, so the pool carries their store: a call of [factory]
    allocates a new cell, the k-th one with the value [factory k], and
    [resetFn] updates a cell in place.  An object that the pool did not
    create is a reference outside the store. *)

Module ObjectPool.

Section Pool.

Variable A : Type.
Variable factory : nat -> A.
Variable resetFn : A -> A.

Record t : Type := mk {
  store : list A;
  pool : list nat;
  active : list nat
}.

(** [this.factory()] *)
Definition create (s : t) : nat * t :=
  (length (store s),
   mk (store s ++ [factory (length (store s))]) (pool s) (active s)).

(** [n] rounds of the loop of the constructor. *)
Fixpoint fill (n : nat) (s : t) : t :=
  match n with
  | O => s
  | S n' =>
      let '(obj, s) := create s in
      fill n' (mk (store s) (pool s ++ [obj]) (active s))
  end.

(** [new ObjectPool(factory, reset, initialSize)], for an integer
    [initialSize]. *)
Definition new (initialSize : Z) : t :=
  fill (Z.to_nat initialSize) (mk [] [] []).

Definition acquire (s : t) : nat * t :=
  let '(obj, s) :=
    match last (pool s) with
    | Some obj => (obj, mk (store s) (removelast (pool s)) (active s))
    | None => create s
    end in
  (obj, mk (store s) (pool s) (active s ++ [obj])).

Definition release (obj : nat) (s : t) : t :=
  let s := mk (store s) (pool s) (GameEngine.remove_first obj (active s)) in
  let s := mk (alter resetFn obj (store s)) (pool s) (active s) in
  mk (store s) (pool s ++ [obj]) (active s).

(** One round of the loop of [releaseAll], [obj] being the last active
    object. *)
Definition releaseLast (s : t) (obj : nat) : t :=
  mk (alter resetFn obj (store s)) (pool s ++ [obj]) (removelast (active s)).

Definition releaseAll (s : t) : t :=
  fold_left releaseLast (reverse (active s)) s.

Definition getActive (s : t) : list nat := active s.

(** Every object created is either pooled or active, once. *)
Definition pool_ok (s : t) : Prop :=
  NoDup (pool s ++ active s) ∧
  (∀ obj, obj ∈ pool s ++ active s ↔ (obj < length (store s))%nat).

(** The states of a pool whose users release only what they hold. *)
Inductive used : t -> Prop :=
| used_new n : used (new n)
| used_acquire s : used s -> used (acquire s).2
| used_release s obj : used s -> obj ∈ active s -> used (release obj s)
| used_releaseAll s : used s -> used (releaseAll s).

End Pool.

Arguments mk {A}.
Arguments store {A}.
Arguments pool {A}.
Arguments active {A}.
Arguments create {A}.
Arguments fill {A}.
Arguments new {A}.
Arguments acquire {A}.
Arguments release {A}.
Arguments releaseLast {A}.
Arguments releaseAll {A}.
Arguments getActive {A}.
Arguments pool_ok {A}.
Arguments used {A}.

End ObjectPool.

(** A heart, and an engine holding it with 55 s left. *)
Module DemoHeart.


End DemoHeart.

Module DemoSwept.

(** A hand at the origin that came from one unit to the left during the
    last assumed tick, and an apple half way along that path. *)
Definition fast : Hand.t := Hand.mk 0 0 60 0 60 true.
Definition crossed : Obj.t :=
  Obj.mk 1 (Some "apple"%string) false false (-0.5) 0 0 0 0.03 0 0 true 0 3 0 false 0 None.

(** A record whose [speed] field says 0.3 although its velocity is
    zero, at the combined radius from the apple at the origin. *)
Definition still : Hand.t := Hand.mk 0.08 0 0 0 0.3 true.

End DemoSwept.

Module DemoBomb.

(** The engine holding the bomb and the apple, with five seconds left. *)
Definition last_seconds : GameEngine.t :=
  GameEngine.set_timeRemaining 5 Sample.bomb_and_apple.

End DemoBomb.

(** * Properties *)

(** ** The swept test *)

Section Swept.
Import CollisionSystem.

Lemma jsdiv_fin (n d : R) : d ≠ 0 → jsdiv n d = Fin (n / d).
Proof. intros Hd. unfold jsdiv. by rewrite decide_False. Qed.

Lemma jsdiv_zero_out_of_unit (n : R) :
  js_ge (jsdiv n 0) 0 && js_le (jsdiv n 0) 1 = false.
Proof.
  unfold jsdiv. rewrite decide_True by reflexivity.
  repeat case_decide; reflexivity.
Qed.

Lemma in_unit_fin (q : R) :
  js_ge (Fin q) 0 && js_le (Fin q) 1 = true ↔ 0 <= q <= 1.
Proof.
  simpl. rewrite andb_true_iff, !bool_decide_eq_true. split; intros [? ?]; split; lra.
Qed.

(** A root of the quadratic is one of the two values of the formula. *)
Lemma root_is_formula (a b c u : R) :
  0 < a → a * (u * u) + b * u + c = 0 →
  u = (- b - sqrt (b * b - 4 * a * c)) / (2 * a) ∨
  u = (- b + sqrt (b * b - 4 * a * c)) / (2 * a).
Proof.
  intros Ha Hu.
  assert (HD : b * b - 4 * a * c = (2 * a * u + b) * (2 * a * u + b)) by nra.
  rewrite HD.
  destruct (Rle_dec 0 (2 * a * u + b)) as [Hs | Hs].
  - right. rewrite sqrt_square by assumption. field. lra.
  - left. replace ((2 * a * u + b) * (2 * a * u + b))
      with ((- (2 * a * u + b)) * (- (2 * a * u + b))) by ring.
    rewrite sqrt_square by lra. field. lra.
Qed.

Lemma formula_is_root (a b c s : R) :
  0 < a → 0 <= b * b - 4 * a * c →
  s = sqrt (b * b - 4 * a * c) ∨ s = - sqrt (b * b - 4 * a * c) →
  let u := (- b + s) / (2 * a) in a * (u * u) + b * u + c = 0.
Proof.
  intros Ha HD Hs u.
  assert (Hss : s * s = b * b - 4 * a * c).
  { destruct Hs as [-> | ->].
    - by apply sqrt_sqrt.
    - rewrite Rmult_opp_opp. by apply sqrt_sqrt. }
  assert (Hu : 2 * a * u = - b + s) by (unfold u; field; lra).
  assert (H4 : 4 * a * (a * (u * u) + b * u + c) = 0).
  { replace (4 * a * (a * (u * u) + b * u + c))
      with ((2 * a * u) * (2 * a * u) + 2 * b * (2 * a * u) + 4 * a * c) by ring.
    rewrite Hu. lra. }
  apply Rmult_integral in H4 as [H4 | H4]; [ lra | exact H4 ].
Qed.

(** On a segment of positive length, [_lineCircleIntersect] answers
    whether the quadratic has a root in [[0, 1]]. *)
Lemma lineCircle_root (x1 y1 x2 y2 cx cy r : R) :
  0 < quad_a x1 y1 x2 y2 →
  _lineCircleIntersect x1 y1 x2 y2 cx cy r = true ↔
  root_in_unit (quad_a x1 y1 x2 y2) (quad_b x1 y1 x2 y2 cx cy)
    (quad_c x1 y1 cx cy r).
Proof.
  intros Ha. unfold _lineCircleIntersect, root_in_unit.
  set (a := quad_a x1 y1 x2 y2) in *.
  set (b := quad_b x1 y1 x2 y2 cx cy).
  set (c := quad_c x1 y1 cx cy r).
  cbv zeta. case_decide as HD.
  - split; [ discriminate | ].
    intros (u & _ & Hu). exfalso.
    assert (b * b - 4 * a * c = (2 * a * u + b) * (2 * a * u + b)) by nra.
    pose proof (Rle_0_sqr (2 * a * u + b)) as Hsq. unfold Rsqr in Hsq. lra.
  - rewrite !jsdiv_fin by lra.
    rewrite orb_true_iff, !in_unit_fin. split.
    + intros [H | H].
      * eexists. split; [ exact H | ].
        replace (- b - sqrt (b * b - 4 * a * c))
          with (- b + - sqrt (b * b - 4 * a * c)) by ring.
        apply formula_is_root; [ done | lra | by right ].
      * eexists. split; [ exact H | ].
        apply formula_is_root; [ done | lra | by left ].
    + intros (u & Hu01 & Hu).
      destruct (root_is_formula a b c u Ha Hu) as [<- | <-]; [ by left | by right ].
Qed.

(** A negative discriminant is an ordinary "no". *)
Lemma lineCircle_no_real_root (x1 y1 x2 y2 cx cy r : R) :
  let a := quad_a x1 y1 x2 y2 in
  let b := quad_b x1 y1 x2 y2 cx cy in
  let c := quad_c x1 y1 cx cy r in
  b * b - 4 * a * c < 0 → _lineCircleIntersect x1 y1 x2 y2 cx cy r = false.
Proof.
  intros a b c HD. unfold _lineCircleIntersect. cbv zeta.
  fold a b c. by rewrite decide_True.
Qed.

(** On a segment of length zero both roots are [0 / 0]: no hit. *)
Lemma lineCircle_degenerate (x1 y1 cx cy r : R) :
  _lineCircleIntersect x1 y1 x1 y1 cx cy r = false.
Proof.
  unfold _lineCircleIntersect, quad_a, quad_b. cbv zeta.
  case_decide; [ done | ].
  replace (2 * ((x1 - x1) * (x1 - x1) + (y1 - y1) * (y1 - y1))) with 0 by ring.
  by rewrite !jsdiv_zero_out_of_unit.
Qed.

Lemma step_swept_inv (hand : Hand.t) (obj : Obj.t) (x1 y1 x2 y2 cx cy r : R) :
  checkCollision_step hand obj = Swept x1 y1 x2 y2 cx cy r →
  Hand.visible hand = true ∧
  minSliceSpeed <= Hand.speed hand ∧
  combinedRadius obj <= dist hand obj ∧
  x1 = prevX hand ∧ y1 = prevY hand ∧ x2 = Hand.x hand ∧ y2 = Hand.y hand ∧
  cx = Obj.x obj ∧ cy = Obj.y obj ∧ r = combinedRadius obj.
Proof.
  unfold checkCollision_step.
  destruct (Hand.visible hand); simpl; [ | discriminate ].
  repeat case_decide; try discriminate.
  intros [= <- <- <- <- <- <- <-]. repeat split; lra.
Qed.

(** A hand that is fast enough and satisfies the data model moves. *)
Lemma fast_hand_moves (hand : Hand.t) :
  speed_is_norm hand → minSliceSpeed <= Hand.speed hand →
  0 < Hand.vx hand * Hand.vx hand + Hand.vy hand * Hand.vy hand.
Proof.
  unfold speed_is_norm, minSliceSpeed. intros Hn Hs.
  destruct (Rle_lt_dec (Hand.vx hand * Hand.vx hand + Hand.vy hand * Hand.vy hand) 0)
    as [Hle | Hlt]; [ | done ].
  assert (Hz : Hand.vx hand * Hand.vx hand + Hand.vy hand * Hand.vy hand = 0) by nra.
  rewrite Hz, sqrt_0 in Hn. lra.
Qed.

Lemma swept_quad_a (hand : Hand.t) :
  quad_a (prevX hand) (prevY hand) (Hand.x hand) (Hand.y hand) =
  (Hand.vx hand * Hand.vx hand + Hand.vy hand * Hand.vy hand) * (1 / 3600).
Proof. unfold quad_a, prevX, prevY. cbv zeta. field. Qed.

End Swept.

Section SweptClaims.
Import CollisionSystem.

Lemma sqrt_lt_square (v r : R) : 0 <= v → 0 <= r → sqrt v < r ↔ v < r * r.
Proof.
  intros Hv Hr. rewrite <- (sqrt_square r) at 1 by assumption. split.
  - intros H. apply sqrt_lt_0_alt in H. exact H.
  - intros H. apply sqrt_lt_1_alt. lra.
Qed.

Lemma sqrt_of_square (v r : R) : 0 <= r → v = r * r → sqrt v = r.
Proof. intros Hr ->. by apply sqrt_square. Qed.

(** C8: for a visible hand whose [speed] is the norm of its velocity,
    fast enough to slice and not overlapping the object already,
    [checkCollision] gets to the swept test on the segment from the
    position 1/60 s earlier along the velocity to the current position,
    against the object's circle with the combined radius
    [r = 0.05 + radius]; with [Delta] the segment vector and [f] the
    segment start minus the circle center, [a = |Delta|^2] is positive
    and the call registers a hit exactly when
    [a t^2 + b t + c = 0], [b = 2 (f . Delta)], [c = |f|^2 - r^2], has a
    real root in [[0, 1]]; a negative discriminant gives [false]. *)
Theorem swept_hit_iff_root (hand : Hand.t) (obj : Obj.t) :
  Hand.speed hand = sqrt (Hand.vx hand * Hand.vx hand + Hand.vy hand * Hand.vy hand) →
  Hand.visible hand = true →
  0.3 <= Hand.speed hand →
  0.05 + Obj.radius obj <=
    sqrt ((Hand.x hand - Obj.x obj) * (Hand.x hand - Obj.x obj) +
          (Hand.y hand - Obj.y obj) * (Hand.y hand - Obj.y obj)) →
  let r := 0.05 + Obj.radius obj in
  let x1 := Hand.x hand - Hand.vx hand * (1 / 60) in
  let y1 := Hand.y hand - Hand.vy hand * (1 / 60) in
  let dx := Hand.x hand - x1 in
  let dy := Hand.y hand - y1 in
  let fx := x1 - Obj.x obj in
  let fy := y1 - Obj.y obj in
  let a := dx * dx + dy * dy in
  let b := 2 * (fx * dx + fy * dy) in
  let c := fx * fx + fy * fy - r * r in
  checkCollision_step hand obj =
    Swept x1 y1 (Hand.x hand) (Hand.y hand) (Obj.x obj) (Obj.y obj) r ∧
  0 < a ∧
  (checkCollision hand obj = true ↔
   ∃ t : R, 0 <= t <= 1 ∧ a * (t * t) + b * t + c = 0) ∧
  (b * b - 4 * a * c < 0 → checkCollision hand obj = false).
Proof.
  intros Hn Hv Hs Hd r x1 y1 dx dy fx fy a b c.
  assert (Hstep : checkCollision_step hand obj =
                  Swept x1 y1 (Hand.x hand) (Hand.y hand) (Obj.x obj) (Obj.y obj) r).
  { unfold checkCollision_step. rewrite Hv. cbn [negb].
    rewrite decide_False by (unfold minSliceSpeed; lra).
    rewrite decide_False; [ done | ].
    unfold dist, combinedRadius, handRadius. cbv zeta. lra. }
  split; [ exact Hstep | ].
  assert (Ha : 0 < a).
  { change a with (quad_a (prevX hand) (prevY hand) (Hand.x hand) (Hand.y hand)).
    rewrite swept_quad_a.
    assert (0 < Hand.vx hand * Hand.vx hand + Hand.vy hand * Hand.vy hand).
    { apply fast_hand_moves; [ exact Hn | unfold minSliceSpeed; lra ]. }
    lra. }
  split; [ exact Ha | ].
  unfold checkCollision. rewrite Hstep. split.
  - exact (lineCircle_root x1 y1 (Hand.x hand) (Hand.y hand) (Obj.x obj) (Obj.y obj) r Ha).
  - exact (lineCircle_no_real_root x1 y1 (Hand.x hand) (Hand.y hand) (Obj.x obj)
             (Obj.y obj) r).
Qed.

Lemma sample_hand_norm : speed_is_norm Sample.hand.
Proof.
  unfold speed_is_norm, Sample.hand. simpl.
  symmetry. apply sqrt_of_square; lra.
Defined.

Lemma sample_step :
  checkCollision_step Sample.hand Sample.far_obj =
  Swept (0 - 1 * (1 / 60)) (0 - 0 * (1 / 60)) 0 0 1 0 (0.05 + 0.03).
Proof.
  unfold checkCollision_step, Sample.hand, Sample.far_obj, dist,
    combinedRadius, prevX, prevY, minSliceSpeed, handRadius. simpl.
  rewrite decide_False by lra.
  rewrite decide_False; [ reflexivity | ].
  rewrite sqrt_lt_square by lra. lra.
Defined.

Lemma swept_hit_iff_root_witness :
  checkCollision_step DemoSwept.fast DemoSwept.crossed =
    Swept (0 - 60 * (1 / 60)) (0 - 0 * (1 / 60)) 0 0 (-0.5) 0 (0.05 + 0.03) ∧
  checkCollision DemoSwept.fast DemoSwept.crossed = true.
Proof.
  assert (Hn : Hand.speed DemoSwept.fast =
               sqrt (Hand.vx DemoSwept.fast * Hand.vx DemoSwept.fast +
                     Hand.vy DemoSwept.fast * Hand.vy DemoSwept.fast)).
  { cbn. symmetry. apply sqrt_of_square; lra. }
  assert (Hs : 0.3 <= Hand.speed DemoSwept.fast) by (cbn; lra).
  assert (Hd : 0.05 + Obj.radius DemoSwept.crossed <=
               sqrt ((Hand.x DemoSwept.fast - Obj.x DemoSwept.crossed) *
                     (Hand.x DemoSwept.fast - Obj.x DemoSwept.crossed) +
                     (Hand.y DemoSwept.fast - Obj.y DemoSwept.crossed) *
                     (Hand.y DemoSwept.fast - Obj.y DemoSwept.crossed))).
  { cbn. rewrite (sqrt_of_square _ 0.5) by lra. lra. }
  destruct (swept_hit_iff_root DemoSwept.fast DemoSwept.crossed Hn eq_refl Hs Hd)
    as (Hstep & _ & Hiff & _).
  split; [ exact Hstep | ].
  apply Hiff. exists 0.42. cbn. split; lra.
Defined.

(** C8, without the data model: for a record whose [speed] field passes
    the guard while its velocity is zero, placed at the combined radius
    from the object, [checkCollision] gets to the swept test with
    [a = b = c = 0]; every [t] is a root of the quadratic, yet the call
    registers no hit. *)
Lemma still_hand_root_no_hit :
  let hand := DemoSwept.still in
  let obj := Sample.near_obj in
  let r := 0.05 + Obj.radius obj in
  let x1 := Hand.x hand - Hand.vx hand * (1 / 60) in
  let y1 := Hand.y hand - Hand.vy hand * (1 / 60) in
  let dx := Hand.x hand - x1 in
  let dy := Hand.y hand - y1 in
  let fx := x1 - Obj.x obj in
  let fy := y1 - Obj.y obj in
  let a := dx * dx + dy * dy in
  let b := 2 * (fx * dx + fy * dy) in
  let c := fx * fx + fy * fy - r * r in
  Hand.visible hand = true ∧ 0.3 <= Hand.speed hand ∧
  checkCollision_step hand obj =
    Swept x1 y1 (Hand.x hand) (Hand.y hand) (Obj.x obj) (Obj.y obj) r ∧
  (∃ t : R, 0 <= t <= 1 ∧ a * (t * t) + b * t + c = 0) ∧
  checkCollision hand obj = false ∧
  ¬ (checkCollision hand obj = true ↔
     ∃ t : R, 0 <= t <= 1 ∧ a * (t * t) + b * t + c = 0).
Proof.
  intros hand obj r x1 y1 dx dy fx fy a b c.
  assert (Hstep : checkCollision_step hand obj =
                  Swept x1 y1 (Hand.x hand) (Hand.y hand) (Obj.x obj) (Obj.y obj) r).
  { unfold checkCollision_step. cbn [negb Hand.visible hand DemoSwept.still].
    rewrite decide_False by (unfold minSliceSpeed; cbn; lra).
    rewrite decide_False; [ done | ].
    unfold dist, combinedRadius, handRadius. cbn.
    rewrite (sqrt_of_square _ 0.08) by lra. lra. }
  assert (Hroot : ∃ t : R, 0 <= t <= 1 ∧ a * (t * t) + b * t + c = 0).
  { exists 0. unfold a, b, c, dx, dy, fx, fy, x1, y1, r. cbn. split; lra. }
  assert (Hmiss : checkCollision hand obj = false).
  { unfold checkCollision. rewrite Hstep.
    replace x1 with (Hand.x hand) by (unfold x1; cbn; lra).
    replace y1 with (Hand.y hand) by (unfold y1; cbn; lra).
    apply lineCircle_degenerate. }
  split; [ done | ]. split; [ cbn; lra | ]. split; [ exact Hstep | ].
  split; [ exact Hroot | ]. split; [ exact Hmiss | ].
  intros [_ Hback]. specialize (Hback Hroot). congruence.
Qed.

(** C10: when [checkCollision] gets to the swept test, the hand has
    passed the guard [speed >= minSliceSpeed]; if moreover [speed] is
    the norm of the velocity, the segment vector is the velocity times
    1/60 and is not zero, the coefficient [a] is strictly positive, and
    every division by [2a] is an ordinary quotient (neither an infinity
    nor [NaN]). *)
Theorem swept_divisor_positive (hand : Hand.t) (obj : Obj.t)
    (x1 y1 x2 y2 cx cy r : R) :
  checkCollision_step hand obj = Swept x1 y1 x2 y2 cx cy r →
  minSliceSpeed <= Hand.speed hand ∧
  (speed_is_norm hand →
   x2 - x1 = Hand.vx hand * (1 / 60) ∧
   y2 - y1 = Hand.vy hand * (1 / 60) ∧
   (x2 - x1 ≠ 0 ∨ y2 - y1 ≠ 0) ∧
   0 < quad_a x1 y1 x2 y2 ∧
   ∀ n : R, jsdiv n (2 * quad_a x1 y1 x2 y2) = Fin (n / (2 * quad_a x1 y1 x2 y2))).
Proof.
  intros Hstep.
  pose proof (step_swept_inv _ _ _ _ _ _ _ _ _ Hstep)
    as (_ & Hfast & _ & -> & -> & -> & -> & _).
  split; [ exact Hfast | ]. intros Hn.
  pose proof (fast_hand_moves hand Hn Hfast) as Hv.
  assert (Ha : 0 < quad_a (prevX hand) (prevY hand) (Hand.x hand) (Hand.y hand))
    by (rewrite swept_quad_a; lra).
  unfold prevX, prevY in *.
  split; [ lra | ]. split; [ lra | ]. split; [ | split; [ exact Ha | ] ].
  - destruct (Req_dec_T (Hand.vx hand) 0) as [Hx | Hx].
    + right. intros Hy.
      assert (Hand.vy hand = 0) by lra. rewrite Hx in Hv. nra.
    + left. lra.
  - intros n. apply jsdiv_fin. lra.
Qed.

Lemma swept_divisor_positive_witness :
  let x1 := 0 - 1 * (1 / 60) in
  let y1 := 0 - 0 * (1 / 60) in
  minSliceSpeed <= 1 ∧ 0 < quad_a x1 y1 0 0 ∧
  jsdiv 1 (2 * quad_a x1 y1 0 0) = Fin (1 / (2 * quad_a x1 y1 0 0)).
Proof.
  intros x1 y1.
  destruct (swept_divisor_positive Sample.hand Sample.far_obj _ _ _ _ _ _ _
              sample_step) as [Hg Hrest].
  destruct (Hrest sample_hand_norm) as (_ & _ & _ & Ha & Hdiv).
  split; [ exact Hg | ]. split; [ exact Ha | exact (Hdiv 1) ].
Defined.

End SweptClaims.

(** ** The hit cooldown *)

Section Cooldown.
Import CollisionSystem.

Lemma trySides_object (hands : Hands) (l : loc) (obj : Obj.t)
    (sides : list Side) (h : HitRecord) :
  trySides hands l obj sides = Some h → object h = l.
Proof.
  induction sides as [ | sd rest IH ]; simpl; [ discriminate | ].
  destruct (checkCollision _ _); [ | exact IH ].
  by intros [= <-].
Qed.

(** An id in the cache is skipped by the loop: its entry stays and no
    hit is added for it. *)
Lemma checkObjects_cached (heap : list Obj.t) (now : R) (hands : Hands)
    (i : Z) (t0 : R) (objects : list loc) :
  ∀ (rh : gmap Z R) (hits : list HitRecord),
    rh !! i = Some t0 →
    (∀ h o, h ∈ hits → heap !! object h = Some o → Obj.id o ≠ i) →
    (checkObjects heap now hands objects rh hits).1 !! i = Some t0 ∧
    (∀ h o, h ∈ (checkObjects heap now hands objects rh hits).2 →
            heap !! object h = Some o → Obj.id o ≠ i).
Proof.
  induction objects as [ | l rest IH ]; intros rh hits Hi Hhits; cbn [checkObjects].
  - done.
  - destruct (heap !! l) as [ obj | ] eqn:Hl; [ | by apply IH ].
    destruct (Obj.fading obj); [ by apply IH | ].
    case_decide as Hcached; [ by apply IH | ].
    destruct (trySides hands l obj [SideLeft; SideRight]) as [ h | ] eqn:Hs;
      [ | by apply IH ].
    assert (Hne : Obj.id obj ≠ i).
    { intros Heq. apply Hcached. rewrite Heq. by exists t0. }
    apply IH.
    + by rewrite lookup_insert_ne.
    + intros h' o' [Hin | Hin]%elem_of_app Ho'; [ by eapply Hhits | ].
      apply list_elem_of_singleton in Hin as ->.
      apply trySides_object in Hs. rewrite Hs, Hl in Ho'.
      by injection Ho' as <-.
Qed.

Lemma prune_keeps (now : R) (rh : gmap Z R) (i : Z) (t0 : R) :
  rh !! i = Some t0 → now - t0 <= hitCooldown → prune now rh !! i = Some t0.
Proof.
  intros Hi Hw. unfold prune. apply map_lookup_filter_Some.
  split; [ exact Hi | ]. simpl. lra.
Qed.

Lemma checkAll_cached (heap : list Obj.t) (now : R) (hands : Hands)
    (objects : list loc) (cs : t) (i : Z) (t0 : R) :
  recentHits cs !! i = Some t0 → now - t0 <= hitCooldown →
  recentHits (checkAll heap now hands objects cs).1 !! i = Some t0 ∧
  (∀ h o, h ∈ (checkAll heap now hands objects cs).2 →
          heap !! object h = Some o → Obj.id o ≠ i).
Proof.
  intros Hi Hw. unfold checkAll.
  pose proof (checkObjects_cached heap now hands i t0 objects
                (prune now (recentHits cs)) [] (prune_keeps _ _ _ _ Hi Hw)) as H.
  destruct (checkObjects _ _ _ _ _ _) as [rh hits]. simpl in *.
  apply H. intros h o Hin. by apply elem_of_nil in Hin.
Qed.

(** C7: once an id is in the cooldown cache with stamp [t0], no call of
    [checkAll] made while the clock is within the cooldown window of
    [t0] returns a hit record for an object of that id, whatever the
    hands and the objects of the calls; the entry is still there after
    these calls. *)
Theorem cooldown_suppresses_hits (calls : list Call) (cs : t) (i : Z) (t0 : R) :
  recentHits cs !! i = Some t0 →
  Forall (λ c, call_now c - t0 <= hitCooldown) calls →
  recentHits (checkAll_seq calls cs).1 !! i = Some t0 ∧
  Forall (λ r : Call * list HitRecord,
            ∀ h o, h ∈ r.2 → call_heap r.1 !! object h = Some o → Obj.id o ≠ i)
         (checkAll_seq calls cs).2.
Proof.
  revert cs. induction calls as [ | c rest IH ]; intros cs Hi Hw; simpl.
  - split; [ exact Hi | constructor ].
  - apply Forall_cons in Hw as [Hc Hrest].
    destruct (checkAll_cached (call_heap c) (call_now c) (call_hands c)
                (call_objects c) cs i t0 Hi Hc) as [Hi' Hhits].
    destruct (checkAll _ _ _ _ cs) as [cs1 hits]. simpl in *.
    specialize (IH cs1 Hi' Hrest).
    destruct (checkAll_seq rest cs1) as [cs2 results]. simpl in *.
    destruct IH as [IH1 IH2]. split; [ exact IH1 | ].
    constructor; [ exact Hhits | exact IH2 ].
Qed.

Lemma cooldown_suppresses_hits_witness :
  recentHits (checkAll_seq [Sample.call; Sample.call] Sample.stamped).1 !! 1%Z
    = Some 0 ∧
  Forall (λ r : Call * list HitRecord,
            ∀ h o, h ∈ r.2 → call_heap r.1 !! object h = Some o → Obj.id o ≠ 1%Z)
         (checkAll_seq [Sample.call; Sample.call] Sample.stamped).2.
Proof.
  apply (cooldown_suppresses_hits [Sample.call; Sample.call] Sample.stamped 1 0).
  - apply lookup_insert_eq.
  - unfold hitCooldown. repeat constructor; simpl; lra.
Defined.

End Cooldown.

(** ** The store only ages *)

Section Store.

Lemma ages_refl (o : Obj.t) : ages o o.
Proof. by repeat split. Qed.

Lemma ages_trans (o1 o2 o3 : Obj.t) : ages o1 o2 → ages o2 o3 → ages o1 o3.
Proof.
  intros [(? & ? & ? & ? & ? & ?) F12] [(? & ? & ? & ? & ? & ?) F23].
  repeat split; try congruence. auto.
Qed.

Lemma evolves_refl (h : list Obj.t) : evolves h h.
Proof. intros l o Hl. exists o. split; [ done | apply ages_refl ]. Qed.

Lemma evolves_trans (h1 h2 h3 : list Obj.t) :
  evolves h1 h2 → evolves h2 h3 → evolves h1 h3.
Proof.
  intros H12 H23 l o Hl.
  destruct (H12 l o Hl) as (o2 & Hl2 & Ha2).
  destruct (H23 l o2 Hl2) as (o3 & Hl3 & Ha3).
  exists o3. split; [ done | by eapply ages_trans ].
Qed.

Lemma evolves_app (h : list Obj.t) (o : Obj.t) : evolves h (h ++ [o]).
Proof.
  intros l o' Hl. exists o'. split; [ | apply ages_refl ].
  by apply lookup_app_l_Some.
Qed.

Lemma evolves_insert (h : list Obj.t) (l : loc) (o o' : Obj.t) :
  h !! l = Some o → ages o o' → evolves h (<[l := o']> h).
Proof.
  intros Hl Ha l1 o1 Hl1. destruct (decide (l1 = l)) as [-> | Hne].
  - exists o'. split.
    + apply list_lookup_insert_eq. by eapply lookup_lt_Some.
    + by simplify_eq.
  - exists o1. split; [ | apply ages_refl ].
    by rewrite list_lookup_insert_ne.
Qed.

Lemma evolves_alter (f : Obj.t → Obj.t) (h : list Obj.t) (l : loc) :
  (∀ o, ages o (f o)) → evolves h (alter f l h).
Proof.
  intros Hf l1 o1 Hl1. destruct (decide (l1 = l)) as [-> | Hne].
  - exists (f o1). split; [ | apply Hf ].
    by rewrite list_lookup_alter_eq, Hl1.
  - exists o1. split; [ | apply ages_refl ].
    by rewrite list_lookup_alter_ne.
Qed.

Lemma mark_fading_ages (ft : R) (o : Obj.t) : ages o (GameEngine.mark_fading ft o).
Proof. by repeat split. Qed.

Lemma set_active_ages (b : bool) (o : Obj.t) : ages o (Obj.set_active b o).
Proof. by repeat split. Qed.

Lemma set_x_ages (v : R) (o : Obj.t) : ages o (Obj.set_x v o).
Proof. by repeat split. Qed.

Lemma integrate_ages (dt : R) (o : Obj.t) : ages o (GameEngine.integrate dt o).
Proof. by repeat split. Qed.

Lemma set_fadeTimer_ages (v : R) (o : Obj.t) : ages o (Obj.set_fadeTimer v o).
Proof. by repeat split. Qed.

End Store.

(** ** What each step of the engine leaves alone *)

Section Frames.
Import GameEngine.

Lemma scalars_fields (s s' : t) :
  scalars s' = scalars s →
  score s' = score s ∧ combo s' = combo s ∧ bestCombo s' = bestCombo s ∧
  comboTimer s' = comboTimer s ∧ isGameOver s' = isGameOver s ∧
  isPaused s' = isPaused s ∧ elapsed s' = elapsed s ∧
  timeRemaining s' = timeRemaining s ∧ spawnInterval s' = spawnInterval s ∧
  spawnTimer s' = spawnTimer s ∧ bombChance s' = bombChance s.
Proof. unfold scalars. intros [= -> -> -> -> -> -> -> -> -> -> ->]. by repeat split. Qed.

Lemma spawnObject_scalars (rnd : nat → R) (s : t) :
  scalars (_spawnObject rnd s).1 = scalars s.
Proof.
  unfold _spawnObject, random, generateId, alloc, push_object.
  repeat (case_bool_decide; cbn); reflexivity.
Qed.

Lemma spawnObject_heap (rnd : nat → R) (s : t) :
  ∃ o, heap (_spawnObject rnd s).1 = heap s ++ [o] ∧
       (_spawnObject rnd s).2 = length (heap s) ∧
       objects (_spawnObject rnd s).1 = objects s ++ [length (heap s)] ∧
       Obj.y o = - 0.08 ∧ Obj.fading o = false ∧ Obj.active o = true.
Proof.
  unfold _spawnObject, random, generateId, alloc, push_object.
  repeat (case_bool_decide; cbn); eexists; repeat split.
Qed.

Lemma spawnObject_evolves (rnd : nat → R) (s : t) :
  evolves (heap s) (heap (_spawnObject rnd s).1).
Proof.
  destruct (spawnObject_heap rnd s) as (o & -> & _). apply evolves_app.
Qed.

Lemma modify_evolves (l : loc) (f : Obj.t → Obj.t) (s : t) :
  (∀ o, ages o (f o)) → evolves (heap s) (heap (modify l f s)).
Proof. intros Hf. unfold modify. cbn. by apply evolves_alter. Qed.

(** The rounds of the spawning loop. *)
Lemma spawnLoop_spec (rnd : nat → R) (count : Z) (n : nat) :
  ∀ (i : Z) (s : t) (acc : list loc),
    let r := spawnLoop rnd count n i s acc in
    scalars r.1 = scalars s ∧ evolves (heap s) (heap r.1) ∧
    ∃ new, r.2 = acc ++ new ∧ length new = n ∧ objects r.1 = objects s ++ new.
Proof.
  induction n as [ | n IH ]; intros i s acc; cbn [spawnLoop].
  - cbn. split; [ done | ]. split; [ apply evolves_refl | ].
    exists []. by rewrite !app_nil_r.
  - pose proof (spawnObject_scalars rnd s) as Hsc.
    pose proof (spawnObject_evolves rnd s) as Hev.
    destruct (spawnObject_heap rnd s) as (o & _ & Hl & Hobjs & _).
    destruct (_spawnObject rnd s) as [s1 l]. cbn [fst snd] in *.
    unfold random. cbn zeta.
    set (s2 := modify l _ _).
    destruct (IH (i + 1)%Z s2 (acc ++ [l])) as (IH1 & IH2 & new & IH3 & IH4 & IH5).
    split; [ | split ].
    + rewrite IH1. subst s2. exact Hsc.
    + eapply evolves_trans; [ exact Hev | ].
      eapply evolves_trans; [ | exact IH2 ].
      subst s2. unfold modify. cbn. apply evolves_alter. apply set_x_ages.
    + exists (l :: new). rewrite IH3, IH5. subst s2. cbn.
      rewrite Hobjs, Hl, <- !app_assoc. cbn. split; [ done | ].
      split; [ by rewrite IH4 | done ].
Qed.

Lemma spawnStep_idle (rnd : nat → R) (dt : R) (s : t) :
  spawnTimer s + dt < spawnInterval s →
  spawnStep rnd dt s = (set_spawnTimer (spawnTimer s + dt) s, []).
Proof.
  intros H. unfold spawnStep. cbn. rewrite decide_False by lra. done.
Qed.

Lemma spawnStep_fires (rnd : nat → R) (dt : R) (s : t) :
  spawnTimer s + dt >= spawnInterval s →
  spawnStep rnd dt s =
  let count := batchCount (rnd (randCount s)) (elapsed s) in
  spawnLoop rnd count (Z.to_nat count) 0
    (set_randCount (S (randCount s)) (set_spawnTimer 0 s)) [].
Proof.
  intros H. unfold spawnStep. cbn. rewrite decide_True by lra. done.
Qed.

(** Spawning assigns [spawnTimer] and nothing else among the scalars. *)
Lemma spawnStep_spec (rnd : nat → R) (dt : R) (s : t) :
  let r := spawnStep rnd dt s in
  scalars (set_spawnTimer (spawnTimer s) r.1) = scalars s ∧
  evolves (heap s) (heap r.1) ∧
  objects r.1 = objects s ++ r.2 ∧
  (spawnTimer r.1 = 0 ∨ spawnTimer r.1 = spawnTimer s + dt ∧ spawnTimer r.1 < spawnInterval s).
Proof.
  cbn zeta. destruct (Rlt_dec (spawnTimer s + dt) (spawnInterval s)) as [Hlt | Hge].
  - rewrite spawnStep_idle by exact Hlt. cbn.
    split; [ done | ]. split; [ apply evolves_refl | ].
    split; [ by rewrite app_nil_r | right; lra ].
  - rewrite spawnStep_fires by lra. cbn zeta.
    set (count := batchCount _ _). set (s0 := set_randCount _ _).
    destruct (spawnLoop_spec rnd count (Z.to_nat count) 0 s0 [])
      as (H1 & H2 & new & H3 & _ & H5).
    apply scalars_fields in H1 as (? & ? & ? & ? & ? & ? & ? & ? & ? & Hst & ?).
    split; [ | split; [ exact H2 | split ] ].
    + unfold scalars. cbn. subst s0. cbn in *. congruence.
    + rewrite H5, H3. done.
    + left. rewrite Hst. done.
Qed.

Lemma comboDecay_scalars (dt : R) (s : t) :
  heap (comboDecay dt s) = heap s ∧ objects (comboDecay dt s) = objects s ∧
  score (comboDecay dt s) = score s ∧
  timeRemaining (comboDecay dt s) = timeRemaining s ∧
  isGameOver (comboDecay dt s) = isGameOver s ∧
  isPaused (comboDecay dt s) = isPaused s ∧
  elapsed (comboDecay dt s) = elapsed s ∧
  spawnTimer (comboDecay dt s) = spawnTimer s ∧
  spawnInterval (comboDecay dt s) = spawnInterval s.
Proof. unfold comboDecay. repeat (case_decide; cbn); by repeat split. Qed.

Lemma comboDecay_combo (dt : R) (s : t) :
  (combo (comboDecay dt s) =
     if decide (0 < combo s)%Z
     then (if decide (comboTimer s - dt <= 0) then 0%Z else combo s)
     else combo s) ∧
  ((0 < combo (comboDecay dt s))%Z →
   (0 < comboTimer s → 0 < comboTimer (comboDecay dt s)) ∧
   ((0 < combo s)%Z → comboTimer (comboDecay dt s) = comboTimer s - dt ∧
                      0 < comboTimer s - dt)).
Proof.
  unfold comboDecay. repeat (case_decide; cbn in * ); repeat split; try lia; try lra.
Qed.

End Frames.

(** ** The physics step *)

Section Physics.
Import GameEngine.

Lemma physicsObj_evolves (dt : R) (h : list Obj.t) (tr : list loc) (l : loc) :
  evolves h (physicsObj dt (h, tr) l).1.
Proof.
  unfold physicsObj. destruct (h !! l) as [ o | ] eqn:Hl; [ | apply evolves_refl ].
  destruct (Obj.active o); cbn [negb]; [ | apply evolves_refl ].
  destruct (Obj.fading o) eqn:Hf; cbn [fst].
  - eapply evolves_insert; [ exact Hl | ]. by repeat split.
  - eapply evolves_insert; [ exact Hl | ]. by repeat split.
Qed.

Lemma physics_fold_evolves (dt : R) (objs : list loc) :
  ∀ (h : list Obj.t) (tr : list loc),
    evolves h (fold_left (physicsObj dt) objs (h, tr)).1.
Proof.
  induction objs as [ | l rest IH ]; intros h tr; cbn [fold_left].
  - apply evolves_refl.
  - pose proof (physicsObj_evolves dt h tr l) as H1.
    destruct (physicsObj dt (h, tr) l) as [h1 tr1].
    eapply evolves_trans; [ exact H1 | apply IH ].
Qed.

Lemma physics_spec (dt : R) (s : t) :
  scalars (physics dt s).1 = scalars s ∧
  objects (physics dt s).1 = objects s ∧
  collisionSystem (physics dt s).1 = collisionSystem s ∧
  evolves (heap s) (heap (physics dt s).1).
Proof.
  unfold physics.
  pose proof (physics_fold_evolves dt (objects s) (heap s) []) as H.
  destruct (fold_left _ _ _) as [h tr]. cbn in *. done.
Qed.

Lemma unmoved_refl (h : list Obj.t) : unmoved h h.
Proof. intros l o Hl. by exists o. Qed.

(** With [dt = 0] a round of the physics loop moves nothing, and queues
    only an object that is out of play already. *)
Lemma physicsObj_still (h0 h : list Obj.t) (tr : list loc) (l : loc) :
  unmoved h0 h → length h0 = length h →
  (∀ l', l' ∈ tr → ∃ o, h0 !! l' = Some o ∧ out_of_play o) →
  let r := physicsObj 0 (h, tr) l in
  unmoved h0 r.1 ∧ length h0 = length r.1 ∧
  (∀ l', l' ∈ r.2 → ∃ o, h0 !! l' = Some o ∧ out_of_play o).
Proof.
  intros Hun Hlen Htr. unfold physicsObj.
  destruct (h !! l) as [ o | ] eqn:Hl; [ | done ].
  assert (H0 : ∃ o0, h0 !! l = Some o0 ∧ Obj.x o = Obj.x o0 ∧ Obj.y o = Obj.y o0 ∧
                     Obj.active o = Obj.active o0 ∧ Obj.fading o = Obj.fading o0 ∧
                     Obj.fadeTimer o = Obj.fadeTimer o0).
  { destruct (h0 !! l) as [ o0 | ] eqn:Hl0.
    - exists o0. destruct (Hun l o0 Hl0) as (o' & Ho' & ?). by simplify_eq.
    - apply lookup_ge_None in Hl0. apply lookup_lt_Some in Hl. lia. }
  destruct H0 as (o0 & Hl0 & Hx & Hy & Hact & Hfad & Hft).
  destruct (Obj.active o) eqn:Ha; cbn [negb]; [ | done ].
  assert (Hsame : ∀ o1, Obj.x o1 = Obj.x o → Obj.y o1 = Obj.y o →
            Obj.active o1 = Obj.active o → Obj.fading o1 = Obj.fading o →
            Obj.fadeTimer o1 = Obj.fadeTimer o → unmoved h0 (<[l := o1]> h)).
  { intros o1 ? ? ? ? ? l' o' Hl'. destruct (decide (l' = l)) as [-> | Hne].
    - exists o1. rewrite list_lookup_insert_eq by (by eapply lookup_lt_Some).
      simplify_eq. repeat split; congruence.
    - rewrite list_lookup_insert_ne by done. by apply Hun. }
  assert (Hout : (if Obj.fading o0 then Obj.fadeTimer o0 > 0.6
                  else Obj.y o0 > 1.2 ∨ Obj.x o0 < - 0.15 ∨ Obj.x o0 > 1.15) →
                 ∀ l', l' ∈ tr ++ [l] → ∃ o, h0 !! l' = Some o ∧ out_of_play o).
  { intros Hq l' [Hin | Hin]%elem_of_app; [ by apply Htr | ].
    apply list_elem_of_singleton in Hin as ->. exists o0. split; [ done | ].
    unfold out_of_play. by rewrite <- Hact. }
  destruct (Obj.fading o) eqn:Hf; cbn zeta; cbn [fst snd].
  - split; [ | split ].
    + apply Hsame; cbn; try done; lra.
    + by rewrite length_insert.
    + case_decide as Hq; [ | exact Htr ].
      apply Hout. rewrite <- Hfad. cbn in Hq. lra.
  - split; [ | split ].
    + apply Hsame; cbn; try done; lra.
    + by rewrite length_insert.
    + rewrite <- Hfad in Hout. cbn in *.
      assert (Hy' : Obj.y o + (Obj.vy o + gravity * 0) * 0 > 1.2 → Obj.y o0 > 1.2) by lra.
      assert (Hx' : Obj.x o + Obj.vx o * 0 < - 0.15 ∨ Obj.x o + Obj.vx o * 0 > 1.15 →
                    Obj.x o0 < - 0.15 ∨ Obj.x o0 > 1.15) by lra.
      repeat case_decide; try exact Htr.
      * intros l' [Hin | Hin]%elem_of_app;
          [ | apply Hout; [ tauto | apply elem_of_app; by right ] ].
        apply Hout; [ tauto | done ].
      * apply Hout. tauto.
      * apply Hout. tauto.
Qed.

Lemma physics_fold_still (h0 : list Obj.t) (objs : list loc) :
  ∀ (h : list Obj.t) (tr : list loc),
    unmoved h0 h → length h0 = length h →
    (∀ l', l' ∈ tr → ∃ o, h0 !! l' = Some o ∧ out_of_play o) →
    let r := fold_left (physicsObj 0) objs (h, tr) in
    unmoved h0 r.1 ∧
    (∀ l', l' ∈ r.2 → ∃ o, h0 !! l' = Some o ∧ out_of_play o).
Proof.
  induction objs as [ | l rest IH ]; intros h tr Hun Hlen Htr; cbn [fold_left].
  - done.
  - destruct (physicsObj_still h0 h tr l Hun Hlen Htr) as (H1 & H2 & H3).
    destruct (physicsObj 0 (h, tr) l) as [h1 tr1]. by apply IH.
Qed.

Lemma physics_still (s : t) :
  unmoved (heap s) (heap (physics 0 s).1) ∧
  (∀ l, l ∈ (physics 0 s).2 → ∃ o, heap s !! l = Some o ∧ out_of_play o).
Proof.
  unfold physics.
  destruct (physics_fold_still (heap s) (objects s) (heap s) [] (unmoved_refl _) eq_refl)
    as [H1 H2].
  { intros l' Hin. by apply elem_of_nil in Hin. }
  destruct (fold_left _ _ _) as [h tr]. done.
Qed.

End Physics.

(** ** Splitting *)

Section Split.
Import GameEngine.

(** One round of the loop of [_splitFruit] allocates one piece. *)
Lemma splitPiece_spec (rnd : nat → R) (obj : Obj.t) (hand : Hand.t)
    (newGen : Z) (newRadius perpX perpY spreadSpeed : R)
    (s : t) (pieces : list loc) (i : Z) :
  let r := splitPiece rnd obj hand newGen newRadius perpX perpY spreadSpeed
             (s, pieces) i in
  ∃ p, heap r.1 = heap s ++ [p] ∧
       objects r.1 = objects s ++ [length (heap s)] ∧
       r.2 = pieces ++ [length (heap s)] ∧
       scalars r.1 = scalars s ∧
       collisionSystem r.1 = collisionSystem s ∧
       Obj.generation p = newGen ∧ Obj.radius p = newRadius ∧
       Obj.type p = Obj.type obj ∧ Obj.isBomb p = false ∧ Obj.isHeart p = false ∧
       Obj.active p = true ∧ Obj.fading p = false ∧ Obj.halfSide p = Some i.
Proof.
  unfold splitPiece, generateId, random, alloc, push_object. cbn.
  eexists. repeat split.
Qed.

Lemma splitFruit_terminal (rnd : nat → R) (s : t) (l : loc) (hand : Hand.t)
    (obj : Obj.t) :
  heap s !! l = Some obj → (Obj.generation obj >= 2)%Z →
  _splitFruit rnd s l hand = (modify l (mark_fading 0) s, []).
Proof.
  intros Hl Hg. unfold _splitFruit. rewrite Hl. by rewrite decide_True.
Qed.

Lemma split_fold (rnd : nat → R) (obj : Obj.t) (hand : Hand.t)
    (newGen : Z) (newRadius perpX perpY spreadSpeed : R) (s : t) :
  let r := fold_left
             (splitPiece rnd obj hand newGen newRadius perpX perpY spreadSpeed)
             [0%Z; 1%Z] (s, []) in
  ∃ p1 p2,
    r.2 = [length (heap s); S (length (heap s))] ∧
    heap r.1 = heap s ++ [p1; p2] ∧
    objects r.1 = objects s ++ r.2 ∧
    scalars r.1 = scalars s ∧
    collisionSystem r.1 = collisionSystem s ∧
    Obj.generation p1 = newGen ∧ Obj.generation p2 = newGen ∧
    Obj.radius p1 = newRadius ∧ Obj.radius p2 = newRadius ∧
    (Obj.active p1 = true ∧ Obj.fading p1 = false) ∧
    (Obj.active p2 = true ∧ Obj.fading p2 = false).
Proof.
  cbn [fold_left].
  destruct (splitPiece_spec rnd obj hand newGen newRadius perpX perpY spreadSpeed
              s [] 0%Z)
    as (p1 & Hh1 & Ho1 & Hp1 & Hs1 & Hc1 & Hg1 & Hr1 & _ & _ & _ & Ha1 & Hf1 & _).
  destruct (splitPiece _ _ _ _ _ _ _ _ (s, []) 0%Z) as [s1 ps1].
  cbn [fst snd] in *.
  destruct (splitPiece_spec rnd obj hand newGen newRadius perpX perpY spreadSpeed
              s1 ps1 1%Z)
    as (p2 & Hh2 & Ho2 & Hp2 & Hs2 & Hc2 & Hg2 & Hr2 & _ & _ & _ & Ha2 & Hf2 & _).
  destruct (splitPiece _ _ _ _ _ _ _ _ (s1, ps1) 1%Z) as [s2 ps2].
  cbn [fst snd] in *.
  exists p1, p2. subst ps2 ps1.
  rewrite Hh2, Ho2, Hh1, Ho1, Hs2, Hs1, Hc2, Hc1, <- !app_assoc, length_app. cbn.
  rewrite Nat.add_1_r. by repeat split.
Qed.

Lemma splitFruit_pieces (rnd : nat → R) (s : t) (l : loc) (hand : Hand.t)
    (obj : Obj.t) :
  heap s !! l = Some obj → (Obj.generation obj < 2)%Z →
  let r := _splitFruit rnd s l hand in
  ∃ p1 p2,
    r.2 = [length (heap s); S (length (heap s))] ∧
    heap r.1 = heap s ++ [p1; p2] ∧
    objects r.1 = objects s ++ r.2 ∧
    scalars r.1 = scalars s ∧
    collisionSystem r.1 = collisionSystem s ∧
    (Obj.generation p1 = Obj.generation obj + 1)%Z ∧
    (Obj.generation p2 = Obj.generation obj + 1)%Z ∧
    Obj.radius p1 = Obj.radius obj * 0.7 ∧
    Obj.radius p2 = Obj.radius obj * 0.7 ∧
    (Obj.active p1 = true ∧ Obj.fading p1 = false) ∧
    (Obj.active p2 = true ∧ Obj.fading p2 = false).
Proof.
  intros Hl Hg. unfold _splitFruit. rewrite Hl.
  rewrite decide_False by lia.
  destruct (decide (_ > 0.01)) as [Hfast | Hslow]; apply split_fold.
Qed.

Lemma splitFruit_scalars (rnd : nat → R) (s : t) (l : loc) (hand : Hand.t) :
  scalars (_splitFruit rnd s l hand).1 = scalars s ∧
  collisionSystem (_splitFruit rnd s l hand).1 = collisionSystem s ∧
  evolves (heap s) (heap (_splitFruit rnd s l hand).1).
Proof.
  destruct (heap s !! l) as [ obj | ] eqn:Hl.
  - destruct (Z_lt_ge_dec (Obj.generation obj) 2) as [Hlt | Hge].
    + destruct (splitFruit_pieces rnd s l hand obj Hl Hlt)
        as (p1 & p2 & _ & Hh & _ & Hs & Hc & _).
      rewrite Hh, Hs, Hc. split; [ done | ]. split; [ done | ].
      replace [p1; p2] with ([p1] ++ [p2]) by done. rewrite app_assoc.
      eapply evolves_trans; apply evolves_app.
    + rewrite (splitFruit_terminal rnd s l hand obj Hl Hge). cbn.
      split; [ done | ]. split; [ done | ].
      apply evolves_alter. apply mark_fading_ages.
  - unfold _splitFruit. rewrite Hl. cbn.
    split; [ done | ]. split; [ done | apply evolves_refl ].
Qed.

(** C2: [_splitFruit] on a fruit of generation [g < 2], for any hand,
    returns exactly two new objects, each of generation [g + 1] and of
    radius the parent's times 0.7, and appends both to the live set; on
    a fruit of generation [>= 2] it returns the empty list, creates
    nothing, and leaves the fruit fading with [fadeTimer = 0]. *)
Theorem splitFruit_children (rnd : nat → R) (s : t) (l : loc) (hand : Hand.t)
    (obj : Obj.t) :
  heap s !! l = Some obj →
  let r := _splitFruit rnd s l hand in
  ((Obj.generation obj < 2)%Z →
   ∃ l1 l2 p1 p2,
     r.2 = [l1; l2] ∧ l1 ≠ l2 ∧
     heap s !! l1 = None ∧ heap s !! l2 = None ∧
     heap r.1 !! l1 = Some p1 ∧ heap r.1 !! l2 = Some p2 ∧
     objects r.1 = objects s ++ [l1; l2] ∧
     (Obj.generation p1 = Obj.generation obj + 1)%Z ∧
     (Obj.generation p2 = Obj.generation obj + 1)%Z ∧
     Obj.radius p1 = Obj.radius obj * 0.7 ∧
     Obj.radius p2 = Obj.radius obj * 0.7) ∧
  ((Obj.generation obj >= 2)%Z →
   r.2 = [] ∧ objects r.1 = objects s ∧
   length (heap r.1) = length (heap s) ∧
   ∃ o', heap r.1 !! l = Some o' ∧
         Obj.fading o' = true ∧ Obj.fadeTimer o' = 0).
Proof.
  intros Hl r. split; intros Hg.
  - destruct (splitFruit_pieces rnd s l hand obj Hl Hg)
      as (p1 & p2 & Hp & Hh & Ho & _ & _ & Hg1 & Hg2 & Hr1 & Hr2 & _).
    fold r in Hp, Hh, Ho.
    exists (length (heap s)), (S (length (heap s))), p1, p2.
    rewrite Hh, Ho, Hp.
    split; [ done | ]. split; [ lia | ].
    split; [ apply lookup_ge_None; lia | ].
    split; [ apply lookup_ge_None; lia | ].
    split; [ rewrite lookup_app_r by lia; by rewrite Nat.sub_diag | ].
    split.
    { rewrite lookup_app_r by lia.
      by replace (S (length (heap s)) - length (heap s))%nat with 1%nat by lia. }
    by repeat split.
  - unfold r. rewrite (splitFruit_terminal rnd s l hand obj Hl Hg). cbn.
    split; [ done | ]. split; [ done | ]. split; [ by rewrite length_alter | ].
    eexists. rewrite list_lookup_alter_eq, Hl. cbn. by repeat split.
Qed.

Lemma splitFruit_children_witness :
  (∃ l1 l2 p1 p2,
     (_splitFruit Sample.half Sample.two_objects 0 Sample.hand).2 = [l1; l2] ∧
     l1 ≠ l2 ∧
     heap Sample.two_objects !! l1 = None ∧ heap Sample.two_objects !! l2 = None ∧
     heap (_splitFruit Sample.half Sample.two_objects 0 Sample.hand).1 !! l1 = Some p1 ∧
     heap (_splitFruit Sample.half Sample.two_objects 0 Sample.hand).1 !! l2 = Some p2 ∧
     objects (_splitFruit Sample.half Sample.two_objects 0 Sample.hand).1 =
       [0%nat; 1%nat] ++ [l1; l2] ∧
     Obj.generation p1 = 1%Z ∧ Obj.generation p2 = 1%Z ∧
     Obj.radius p1 = 0.03 * 0.7 ∧ Obj.radius p2 = 0.03 * 0.7) ∧
  (_splitFruit Sample.half Sample.two_objects 1 Sample.hand).2 = [].
Proof.
  split.
  - apply (splitFruit_children Sample.half Sample.two_objects 0 Sample.hand
             Sample.near_obj eq_refl).
    cbn. lia.
  - apply (splitFruit_children Sample.half Sample.two_objects 1 Sample.hand
             Sample.last_piece eq_refl).
    cbn. lia.
Defined.

End Split.

(** ** Hit resolution and cleanup *)

Section Resolve.
Import GameEngine.

Lemma safe_refl (s : t) : safe_step s s.
Proof. constructor; try done. apply evolves_refl. Qed.

Lemma safe_trans (s1 s2 s3 : t) : safe_step s1 s2 → safe_step s2 s3 → safe_step s1 s3.
Proof.
  intros [A1 A2 A3 A4 A5 A6 A7 A8] [B1 B2 B3 B4 B5 B6 B7 B8].
  constructor; try congruence; auto.
  by eapply evolves_trans.
Qed.

Lemma safe_of_scalars (s s' : t) :
  scalars s' = scalars s → evolves (heap s) (heap s') → safe_step s s'.
Proof.
  intros (Hsc & Hco & _ & Hct & Hov & Hpa & Hel & Htr & _ & Hst & _)%scalars_fields Hev.
  constructor; unfold ranges_ok; rewrite ?Hsc, ?Hco, ?Hct, ?Hov, ?Hpa, ?Hel, ?Htr, ?Hst;
    auto.
Qed.

Lemma clearOther_step (l : loc) (h : list Obj.t) (other : loc) :
  evolves h (clearOther l h other) ∧
  ∀ l' o, h !! l' = Some o →
    ∃ o', clearOther l h other !! l' = Some o' ∧ Obj.active o' = Obj.active o.
Proof.
  unfold clearOther. destruct (h !! other) as [ o | ] eqn:Ho.
  - destruct (bool_decide (other ≠ l) && Obj.active o && negb (Obj.fading o)).
    + split.
      * eapply evolves_insert; [ exact Ho | apply mark_fading_ages ].
      * intros l' o' Hl'. destruct (decide (l' = other)) as [-> | Hne].
        -- eexists. rewrite list_lookup_insert_eq by (by eapply lookup_lt_Some).
           split; [ done | ]. by simplify_eq.
        -- exists o'. by rewrite list_lookup_insert_ne.
    + split; [ apply evolves_refl | ]. intros l' o' Hl'. by exists o'.
  - split; [ apply evolves_refl | ]. intros l' o' Hl'. by exists o'.
Qed.

Lemma clear_fold_evolves (l : loc) (objs : list loc) :
  ∀ h, evolves h (fold_left (clearOther l) objs h).
Proof.
  induction objs as [ | other rest IH ]; intros h; cbn [fold_left].
  - apply evolves_refl.
  - eapply evolves_trans; [ apply (clearOther_step l h other) | apply IH ].
Qed.

(** The screen-clearing loop marks every active object of the list
    other than the bomb. *)
Lemma clear_fold_marks (l : loc) (objs : list loc) :
  ∀ h other o,
    other ∈ objs → other ≠ l → h !! other = Some o → Obj.active o = true →
    ∃ o', fold_left (clearOther l) objs h !! other = Some o' ∧ Obj.fading o' = true.
Proof.
  induction objs as [ | l1 rest IH ]; intros h other o Hin Hne Ho Hact.
  - by apply elem_of_nil in Hin.
  - cbn [fold_left]. apply elem_of_cons in Hin as [-> | Hin].
    + assert (H1 : ∃ o1, clearOther l h l1 !! l1 = Some o1 ∧ Obj.fading o1 = true).
      { unfold clearOther. rewrite Ho, Hact.
        rewrite bool_decide_eq_true_2 by done. cbn.
        destruct (Obj.fading o) eqn:Hf; cbn.
        - by exists o.
        - eexists. rewrite list_lookup_insert_eq by (by eapply lookup_lt_Some).
          by split. }
      destruct H1 as (o1 & Ho1 & Hf1).
      destruct (clear_fold_evolves l rest (clearOther l h l1) l1 o1 Ho1)
        as (o' & Ho' & _ & Hf').
      exists o'. auto.
    + destruct (clearOther_step l h l1) as [_ Hkeep].
      destruct (Hkeep other o Ho) as (o1 & Ho1 & Hact1).
      eapply IH; [ done | done | exact Ho1 | congruence ].
Qed.

Lemma resolveBomb_fields (l : loc) (s : t) :
  timeRemaining (resolveBomb l s) = Rmax 0 (timeRemaining s - 10) ∧
  score (resolveBomb l s) = score s ∧ combo (resolveBomb l s) = combo s ∧
  comboTimer (resolveBomb l s) = comboTimer s ∧
  isGameOver (resolveBomb l s) = isGameOver s ∧
  isPaused (resolveBomb l s) = isPaused s ∧
  elapsed (resolveBomb l s) = elapsed s ∧
  spawnTimer (resolveBomb l s) = spawnTimer s ∧
  objects (resolveBomb l s) = objects s ∧
  evolves (heap s) (heap (resolveBomb l s)).
Proof.
  unfold resolveBomb. cbn. repeat split.
  eapply evolves_trans; [ | apply clear_fold_evolves ].
  apply evolves_alter, mark_fading_ages.
Qed.

Lemma resolveBomb_go (l : loc) (s : t) :
  0 < timeRemaining (resolveBomb l s) → safe_step s (resolveBomb l s).
Proof.
  destruct (resolveBomb_fields l s)
    as (Ht & _ & Hc & Hct & Hov & Hpa & Hel & Hst & _ & Hev).
  intros Hpos. constructor; unfold ranges_ok; rewrite ?Hc, ?Hct, ?Hov, ?Hpa, ?Hel, ?Hst;
    auto.
  intros [[? ?] ?]. rewrite Ht in *. unfold Rmax in *.
  destruct (Rle_dec _ _); repeat split; try done; lra.
Qed.

Lemma resolveBomb_over (l : loc) (s : t) :
  safe_step s (set_isGameOver true (resolveBomb l s)).
Proof.
  destruct (resolveBomb_fields l s)
    as (Ht & _ & Hc & Hct & Hov & Hpa & Hel & Hst & _ & Hev).
  constructor; unfold ranges_ok; cbn; rewrite ?Hc, ?Hct, ?Hpa, ?Hel, ?Hst;
    auto; try done.
  intros [[? ?] ?]. rewrite ?Ht. unfold maxTime in *. unfold Rmax.
  destruct (Rle_dec _ _); repeat split; try done; lra.
Qed.

Lemma resolveHeart_safe (l : loc) (s : t) : safe_step s (resolveHeart l s).
Proof.
  unfold resolveHeart. constructor; unfold ranges_ok; cbn; auto.
  - intros [[? ?] ?]. unfold Rmin, maxTime in *.
    destruct (Rle_dec _ _); repeat split; try done; lra.
  - intros Hpos Hov. specialize (Hpos Hov). unfold Rmin, maxTime.
    destruct (Rle_dec _ _); lra.
  - apply evolves_alter, mark_fading_ages.
Qed.

(** What a slice assigns. *)
Lemma resolveFruit_fields (rnd : nat → R) (hit : CollisionSystem.HitRecord)
    (obj : Obj.t) (s : t) :
  let s' := (resolveFruit rnd hit obj s).1 in
  combo s' = (combo s + 1)%Z ∧
  score s' = (score s + points (Obj.generation obj) (combo s + 1))%Z ∧
  comboTimer s' = comboWindow ∧
  bestCombo s' = Z.max (bestCombo s) (combo s + 1) ∧
  timeRemaining s' = timeRemaining s ∧ isGameOver s' = isGameOver s ∧
  isPaused s' = isPaused s ∧ elapsed s' = elapsed s ∧
  spawnTimer s' = spawnTimer s ∧
  evolves (heap s) (heap s').
Proof.
  unfold resolveFruit.
  destruct (splitFruit_scalars rnd s (CollisionSystem.object hit)
              (CollisionSystem.hand hit))
    as ((Hsc & Hco & Hbc & Hct & Hov & Hpa & Hel & Htr & _ & Hst & _)%scalars_fields
        & _ & Hev).
  destruct (_splitFruit _ _ _ _) as [s1 pieces]. cbn [fst snd] in *.
  case_decide as Hbest; cbn in *; rewrite ?Hsc, ?Hco, ?Hbc in *.
  all: repeat split; try done; try lia.
  all: eapply evolves_trans; [ exact Hev | apply evolves_alter, mark_fading_ages ].
Qed.

Lemma resolveFruit_safe (rnd : nat → R) (hit : CollisionSystem.HitRecord)
    (obj : Obj.t) (s : t) :
  safe_step s (resolveFruit rnd hit obj s).1.
Proof.
  destruct (resolveFruit_fields rnd hit obj s)
    as (Hco & _ & Hct & _ & Htr & Hov & Hpa & Hel & Hst & Hev).
  constructor; unfold ranges_ok; rewrite ?Hco, ?Hct, ?Htr, ?Hov, ?Hpa, ?Hel, ?Hst;
    auto.
  - intros [? ?]. split; [ done | lia ].
  - intros _ _. unfold comboWindow. lra.
Qed.

(** A round of the loop on a fruit. *)
Lemma resolveHits_fruit (rnd : nat → R) (hit : CollisionSystem.HitRecord)
    (rest : list CollisionSystem.HitRecord) (s : t) (fi : FrameInfo) (obj : Obj.t) :
  heap s !! CollisionSystem.object hit = Some obj →
  Obj.isBomb obj = false → Obj.isHeart obj = false →
  resolveHits rnd (hit :: rest) s fi =
  resolveHits rnd rest (resolveFruit rnd hit obj s).1
    (push_hit hit (push_spawned (resolveFruit rnd hit obj s).2 fi)).
Proof.
  intros Hl Hb Hh. cbn [resolveHits]. rewrite Hl, Hb, Hh.
  by destruct (resolveFruit rnd hit obj s).
Qed.

Lemma resolveHits_safe (rnd : nat → R) (hs : list CollisionSystem.HitRecord) :
  ∀ s fi, safe_step s (resolveHits rnd hs s fi).1.
Proof.
  induction hs as [ | hit rest IH ]; intros s fi; cbn [resolveHits].
  - apply safe_refl.
  - destruct (heap s !! CollisionSystem.object hit) as [ obj | ]; [ | apply IH ].
    destruct (Obj.isBomb obj).
    + case_decide as Hz.
      * apply resolveBomb_over.
      * eapply safe_trans; [ apply resolveBomb_go; by apply Rnot_le_lt | apply IH ].
    + destruct (Obj.isHeart obj).
      * eapply safe_trans; [ apply resolveHeart_safe | apply IH ].
      * pose proof (resolveFruit_safe rnd hit obj s) as Hsafe.
        destruct (resolveFruit rnd hit obj s) as [s1 pieces].
        eapply safe_trans; [ exact Hsafe | apply IH ].
Qed.

Lemma cleanup_spec (toRemove : list loc) :
  ∀ s fi,
    let r := cleanup toRemove s fi in
    scalars r.1 = scalars s ∧ collisionSystem r.1 = collisionSystem s ∧
    evolves (heap s) (heap r.1) ∧
    hits r.2 = hits fi ∧ spawned r.2 = spawned fi ∧
    removed r.2 = removed fi ++ toRemove.
Proof.
  unfold cleanup.
  induction toRemove as [ | l rest IH ]; intros s fi; cbn [fold_left].
  - cbn. rewrite app_nil_r. repeat split. apply evolves_refl.
  - pose proof (IH (cleanupObj (s, fi) l).1 (cleanupObj (s, fi) l).2) as H.
    rewrite <- surjective_pairing in H. cbv zeta in *.
    destruct H as (H1 & H2 & H3 & H4 & H5 & H6).
    rewrite H1, H2, H4, H5, H6. cbn. rewrite <- app_assoc.
    repeat split.
    eapply evolves_trans; [ | exact H3 ]. cbn.
    apply evolves_alter, set_active_ages.
Qed.

Lemma cleanup_safe (toRemove : list loc) (s : t) (fi : FrameInfo) :
  safe_step s (cleanup toRemove s fi).1.
Proof.
  destruct (cleanup_spec toRemove s fi) as (H1 & _ & H3 & _).
  by apply safe_of_scalars.
Qed.

Lemma collide_spec (now : R) (hands : Hands) (s : t) :
  scalars (collide now hands s).1 = scalars s ∧
  heap (collide now hands s).1 = heap s ∧
  objects (collide now hands s).1 = objects s.
Proof.
  unfold collide. destruct (CollisionSystem.checkAll _ _ _ _ _) as [cs hs]. done.
Qed.

End Resolve.

(** ** The whole of [update] *)

Section Update.
Import GameEngine.

Lemma update_stopped (rnd : nat → R) (now dt : R) (hands : Hands) (s : t) :
  isGameOver s || isPaused s = true → update rnd now dt hands s = (s, emptyFrame).
Proof. intros H. unfold update. by rewrite H. Qed.

Lemma update_expired (rnd : nat → R) (now dt : R) (hands : Hands) (s : t) :
  running s → timeRemaining s - dt <= 0 →
  update rnd now dt hands s = (expire (tick dt s), emptyFrame).
Proof.
  intros [Hov Hpa] Ht. unfold update. rewrite Hov, Hpa. cbn.
  by rewrite decide_True.
Qed.

Lemma update_running (rnd : nat → R) (now dt : R) (hands : Hands) (s : t) :
  running s → 0 < timeRemaining s - dt →
  update rnd now dt hands s =
  let b := beforeCollision rnd dt (tick dt s) in
  let c := collide now hands b.1.1 in
  let r := resolveHits rnd c.2 c.1 (mkFrame b.1.2 [] []) in
  cleanup b.2 r.1 r.2.
Proof.
  intros [Hov Hpa] Ht. unfold update. rewrite Hov, Hpa. cbn [orb].
  rewrite decide_False by (cbn; lra). cbv zeta.
  destruct (beforeCollision rnd dt (tick dt s)) as [[s1 sp] tr]. cbn [fst snd].
  destruct (collide now hands s1) as [s2 hs]. cbn [fst snd].
  by destruct (resolveHits rnd hs s2 _) as [s3 fi].
Qed.

(** The state at the start of the collision step. *)
Lemma beforeCollision_fields (rnd : nat → R) (dt : R) (s : t) :
  let b := (beforeCollision rnd dt s).1.1 in
  timeRemaining b = timeRemaining s ∧ score b = score s ∧
  isGameOver b = isGameOver s ∧ isPaused b = isPaused s ∧
  elapsed b = elapsed s ∧
  combo b = (if decide (0 < combo s)%Z
             then (if decide (comboTimer s - dt <= 0) then 0%Z else combo s)
             else combo s) ∧
  ((0 < combo b)%Z →
   (0 < comboTimer s → 0 < comboTimer b) ∧ ((0 < combo s)%Z → 0 < comboTimer s - dt)) ∧
  (spawnTimer b = 0 ∨
   spawnTimer b = spawnTimer s + dt ∧
   spawnTimer b < Rmax minSpawnInterval (1.5 - elapsed s * difficultyRate)) ∧
  evolves (heap s) (heap b).
Proof.
  unfold beforeCollision.
  destruct (spawnStep_spec rnd dt (ramp s)) as (Hsc & Hev & _ & Hst).
  destruct (spawnStep rnd dt (ramp s)) as [s2 sp]. cbn [fst snd] in *.
  apply scalars_fields in Hsc as (Hs1 & Hs2 & _ & Hs4 & Hs5 & Hs6 & Hs7 & Hs8 & _).
  cbn in Hs1, Hs2, Hs4, Hs5, Hs6, Hs7, Hs8, Hst.
  destruct (comboDecay_scalars dt s2) as (Hd1 & _ & Hd3 & Hd4 & Hd5 & Hd6 & Hd7 & Hd8 & _).
  destruct (comboDecay_combo dt s2) as (Hc1 & Hc2).
  destruct (physics_spec dt (comboDecay dt s2)) as (Hp & _ & _ & Hpe).
  destruct (physics dt (comboDecay dt s2)) as [s4 tr]. cbn [fst snd] in *.
  apply scalars_fields in Hp
    as (Hp1 & Hp2 & _ & Hp4 & Hp5 & Hp6 & Hp7 & Hp8 & _ & Hp10 & _).
  rewrite Hc1 in Hc2. rewrite Hs2, Hs4 in Hc1, Hc2.
  rewrite Hp1, Hp2, Hp4, Hp5, Hp6, Hp7, Hp8, Hp10.
  rewrite Hd3, Hd4, Hd5, Hd6, Hd7, Hd8, Hc1, Hs1, Hs5, Hs6, Hs7, Hs8.
  do 6 (split; [ done | ]). split; [ | split ].
  - intros Hpos. destruct (Hc2 Hpos) as [A B].
    split; [ exact A | intros Hcs; by apply B ].
  - exact Hst.
  - rewrite Hd1 in Hpe. cbn in Hev. by eapply evolves_trans.
Qed.

Lemma tail_safe (rnd : nat → R) (now : R) (hands : Hands) (tr : list loc)
    (s : t) (fi : FrameInfo) :
  let c := collide now hands s in
  let r := resolveHits rnd c.2 c.1 fi in
  safe_step s (cleanup tr r.1 r.2).1.
Proof.
  cbv zeta. destruct (collide_spec now hands s) as (H1 & H2 & _).
  eapply safe_trans; [ apply safe_of_scalars; [ exact H1 | ] | ].
  { rewrite H2. apply evolves_refl. }
  eapply safe_trans; [ apply resolveHits_safe | apply cleanup_safe ].
Qed.

(** [update] with [dt >= 0] keeps the timer and the combo in range. *)
Lemma update_ranges (rnd : nat → R) (now dt : R) (hands : Hands) (s : t) :
  0 <= dt → ranges_ok s → ranges_ok (update rnd now dt hands s).1.
Proof.
  intros Hdt Hok.
  destruct (isGameOver s || isPaused s) eqn:Hstop.
  { by rewrite update_stopped. }
  apply orb_false_iff in Hstop.
  destruct (Rle_lt_dec (timeRemaining s - dt) 0) as [Hexp | Hrun].
  { rewrite update_expired by done. destruct Hok as [[? ?] ?].
    unfold ranges_ok, maxTime in *. cbn. repeat split; try done; lra. }
  rewrite update_running by done. cbv zeta.
  destruct (beforeCollision_fields rnd dt (tick dt s)) as (Ht & _ & _ & _ & _ & Hc & _).
  apply tail_safe.
  destruct Hok as [[? ?] ?]. unfold ranges_ok. rewrite Ht, Hc. cbn.
  split; [ lra | ]. repeat case_decide; lia.
Qed.

End Update.

(** ** The invariant of the reachable states *)

Section Invariant.
Import GameEngine.

Lemma Rmax_min_pos (v : R) : 0 < Rmax minSpawnInterval v.
Proof.
  pose proof (Rmax_l minSpawnInterval v). unfold minSpawnInterval in *. lra.
Qed.

Lemma Inv_new : Inv new.
Proof.
  constructor; unfold ranges_ok, maxTime; cbn.
  - split; [ lra | lia ].
  - intros _. lra.
  - lia.
  - intros _. apply Rmax_min_pos.
Qed.

Lemma Inv_reset (s : t) : Inv (reset s).
Proof.
  constructor; unfold ranges_ok, maxTime; cbn.
  - split; [ lra | lia ].
  - intros _. lra.
  - lia.
  - intros _. apply Rmax_min_pos.
Qed.

Lemma Inv_pause (b : bool) (s : t) : Inv s → Inv (set_isPaused b s).
Proof. intros [H1 H2 H3 H4]. by constructor. Qed.

Lemma Inv_update (rnd : nat → R) (now dt : R) (hands : Hands) (s : t) :
  0 <= dt → Inv s → Inv (update rnd now dt hands s).1.
Proof.
  intros Hdt HI.
  destruct (isGameOver s || isPaused s) eqn:Hstop.
  { by rewrite update_stopped. }
  apply orb_false_iff in Hstop.
  destruct HI as [Hr Ht Hc Hs].
  destruct (Rle_lt_dec (timeRemaining s - dt) 0) as [Hexp | Hrun].
  { rewrite update_expired by done. constructor; cbn; try done.
    destruct Hr as [[? ?] ?]. unfold ranges_ok, maxTime. cbn.
    split; [ lra | done ]. }
  rewrite update_running by done. cbv zeta.
  destruct (beforeCollision_fields rnd dt (tick dt s))
    as (Hbt & _ & Hbo & _ & Hbe & Hbc & Hbct & Hbs & _).
  set (b := (beforeCollision rnd dt (tick dt s)).1.1) in *.
  pose proof (tail_safe rnd now hands (beforeCollision rnd dt (tick dt s)).2 b
                (mkFrame (beforeCollision rnd dt (tick dt s)).1.2 [] [])) as Hsafe.
  cbv zeta in Hsafe.
  destruct Hsafe as [S1 S2 S3 S4 S5 S6 S7 S8].
  cbn in Hbt, Hbo, Hbe, Hbc, Hbct, Hbs.
  constructor.
  - apply S5. destruct Hr as [[? ?] ?]. unfold ranges_ok. rewrite Hbt, Hbc.
    split; [ lra | repeat case_decide; lia ].
  - apply S6. intros _. lra.
  - apply S7. intros Hpos. apply (Hbct Hpos). apply Hc.
    rewrite Hbc in Hpos. repeat case_decide; lia.
  - intros Hov. rewrite S1, S2, Hbe.
    destruct Hbs as [-> | [_ Hlt]]; [ apply Rmax_min_pos | exact Hlt ].
Qed.

Lemma reachable_Inv (rnd : nat → R) (s : t) : reachable rnd s → Inv s.
Proof.
  induction 1 as [ | s _ _ | s b _ IH | s now dt hands _ IH _ Hdt ].
  - apply Inv_new.
  - apply Inv_reset.
  - by apply Inv_pause.
  - by apply Inv_update.
Qed.

(** In every reachable state the timer and the combo are in range. *)
Lemma reachable_ranges (rnd : nat → R) (s : t) : reachable rnd s → ranges_ok s.
Proof. intros H. by destruct (reachable_Inv rnd s H). Qed.

(** C1: for every call [update(dt, hands)] with [dt >= 0], if the timer
    and the combo are in range before the call
    ([0 <= timeRemaining <= maxTime], [combo >= 0]) they are in range
    after it, whatever the timer decrement, the bomb penalty, the heart
    bonus, the combo decay and the slices of the call do; and they are in
    range after every such call made from a reachable state. *)
Theorem update_keeps_ranges (rnd : nat → R) (now dt : R) (hands : Hands) (s : t) :
  0 <= dt →
  (ranges_ok s → ranges_ok (update rnd now dt hands s).1) ∧
  (reachable rnd s → ranges_ok (update rnd now dt hands s).1).
Proof.
  intros Hdt. split.
  - by apply update_ranges.
  - intros Hreach. apply update_ranges; [ exact Hdt | ].
    by eapply reachable_ranges.
Qed.

Lemma update_keeps_ranges_witness :
  ranges_ok (update Sample.half 0 1 Sample.hands new).1.
Proof.
  destruct (update_keeps_ranges Sample.half 0 1 Sample.hands new) as [_ H].
  - lra.
  - apply H. apply reach_new.
Defined.

End Invariant.

(** ** Bombs, slices and batches *)

Section Hits.
Import GameEngine.

(** What the screen-clearing loop leaves in each cell of the store. *)
Lemma clearOther_lookup (l : loc) (h : list Obj.t) (other i : loc) (o : Obj.t) :
  h !! i = Some o →
  clearOther l h other !! i =
  Some (if decide (i = other ∧ i ≠ l ∧ Obj.active o = true ∧ Obj.fading o = false)
        then mark_fading 0.4 o else o).
Proof.
  intros Hi. unfold clearOther. destruct (h !! other) as [ o1 | ] eqn:H1.
  - destruct (bool_decide (other ≠ l) && Obj.active o1 && negb (Obj.fading o1)) eqn:Hc.
    + apply andb_prop in Hc as [Hc Hf]. apply andb_prop in Hc as [Hl Ha].
      apply bool_decide_eq_true in Hl. apply negb_true_iff in Hf.
      destruct (decide (i = other)) as [-> | Hne].
      * rewrite list_lookup_insert_eq by (by eapply lookup_lt_Some).
        assert (o1 = o) as -> by congruence. by rewrite decide_True.
      * rewrite list_lookup_insert_ne by done. rewrite Hi.
        rewrite decide_False; [ done | ]. by intros [? _].
    + rewrite Hi. rewrite decide_False; [ done | ].
      intros (-> & Hl & Ha & Hf). assert (o1 = o) as -> by congruence.
      rewrite Ha, Hf in Hc. rewrite bool_decide_eq_true_2 in Hc by done. done.
  - rewrite Hi. rewrite decide_False; [ done | ]. intros (-> & _). congruence.
Qed.

Lemma clear_fold_lookup (l : loc) (objs : list loc) :
  ∀ h i o, h !! i = Some o →
    fold_left (clearOther l) objs h !! i =
    Some (if decide (i ∈ objs ∧ i ≠ l ∧ Obj.active o = true ∧ Obj.fading o = false)
          then mark_fading 0.4 o else o).
Proof.
  induction objs as [ | l1 rest IH ]; intros h i o Hi; cbn [fold_left].
  - rewrite decide_False; [ done | ]. intros [H _]. by apply elem_of_nil in H.
  - rewrite (IH _ i _ (clearOther_lookup l h l1 i o Hi)). f_equal.
    destruct (decide (i = l1 ∧ i ≠ l ∧ Obj.active o = true ∧ Obj.fading o = false))
      as [ (-> & Hl & Ha & Hf) | Hno ].
    + rewrite decide_False by (by intros (_ & _ & _ & ?)).
      rewrite decide_True; [ done | ]. repeat split; try done. apply elem_of_cons. by left.
    + destruct (decide (i ∈ rest ∧ i ≠ l ∧ Obj.active o = true ∧ Obj.fading o = false))
        as [ (Hin & Hl & Ha & Hf) | Hno' ].
      * rewrite decide_True; [ done | ]. repeat split; try done. apply elem_of_cons. by right.
      * rewrite decide_False; [ done | ]. intros (Hin & Hl & Ha & Hf).
        apply elem_of_cons in Hin as [-> | Hin]; [ by apply Hno | by apply Hno' ].
Qed.

Lemma clear_fold_length (l : loc) (objs : list loc) :
  ∀ h, length (fold_left (clearOther l) objs h) = length h.
Proof.
  induction objs as [ | other rest IH ]; intros h; cbn [fold_left]; [ done | ].
  rewrite IH. unfold clearOther. destruct (h !! other) as [ o | ]; [ | done ].
  destruct (bool_decide (other ≠ l) && Obj.active o && negb (Obj.fading o)); [ | done ].
  by rewrite length_insert.
Qed.

(** C3: when the loop over the hits of [update] comes to a bomb, the
    timer becomes [max(0, timeRemaining - 10)] whatever the combo is;
    the bomb starts fading with [fadeTimer = 0], every other object of
    the live set that is active and not fading starts fading with
    [fadeTimer = 0.4] where it is, and is still fading when [update]
    returns (after the remaining hits and the cleanup), while the
    objects that were already fading or inactive are left as they are.
    If the timer has reached 0 ([timeRemaining <= 10] before the hit),
    [isGameOver] is set and the loop stops there: the bomb is the last
    hit recorded, nothing of the remaining hits is resolved, and the
    score, the combo, the live set and the id counter are those of
    before the hit.  Otherwise the game-over flag is not touched and the
    loop goes on with the next hit. *)
Theorem bomb_hit_clears (rnd : nat → R) (hit : CollisionSystem.HitRecord)
    (rest : list CollisionSystem.HitRecord) (s : t) (fi : FrameInfo)
    (toRemove : list loc) (obj : Obj.t) :
  heap s !! CollisionSystem.object hit = Some obj → Obj.isBomb obj = true →
  let s1 := resolveBomb (CollisionSystem.object hit) s in
  let r := resolveHits rnd (hit :: rest) s fi in
  let final := (cleanup toRemove r.1 r.2).1 in
  timeRemaining s1 = Rmax 0 (timeRemaining s - 10) ∧
  (∀ other o,
     other ∈ objects s → other ≠ CollisionSystem.object hit →
     heap s !! other = Some o → Obj.active o = true → Obj.fading o = false →
     ∃ o', heap final !! other = Some o' ∧ Obj.fading o' = true) ∧
  (timeRemaining s1 <= 0 → r = (set_isGameOver true s1, push_hit hit fi)) ∧
  (0 < timeRemaining s1 → r = resolveHits rnd rest s1 (push_hit hit fi)) ∧
  (∃ b, heap s1 !! CollisionSystem.object hit = Some b ∧
        Obj.fading b = true ∧ Obj.fadeTimer b = 0 ∧ Obj.id b = Obj.id obj ∧
        Obj.active b = Obj.active obj ∧ Obj.x b = Obj.x obj ∧ Obj.y b = Obj.y obj) ∧
  (∀ other o,
     other ∈ objects s → other ≠ CollisionSystem.object hit →
     heap s !! other = Some o → Obj.active o = true → Obj.fading o = false →
     ∃ o1, heap s1 !! other = Some o1 ∧
           Obj.fading o1 = true ∧ Obj.fadeTimer o1 = 0.4 ∧ Obj.active o1 = true ∧
           Obj.id o1 = Obj.id o ∧ Obj.x o1 = Obj.x o ∧ Obj.y o1 = Obj.y o) ∧
  (∀ other o,
     other ≠ CollisionSystem.object hit → heap s !! other = Some o →
     Obj.active o = false ∨ Obj.fading o = true → heap s1 !! other = Some o) ∧
  length (heap s1) = length (heap s) ∧
  (timeRemaining s <= 10 →
   isGameOver r.1 = true ∧ timeRemaining r.1 = 0 ∧
   r = resolveHits rnd [hit] s fi ∧
   hits r.2 = hits fi ++ [hit] ∧ spawned r.2 = spawned fi ∧ removed r.2 = removed fi ∧
   score r.1 = score s ∧ combo r.1 = combo s ∧ bestCombo r.1 = bestCombo s ∧
   objects r.1 = objects s ∧ nextId r.1 = nextId s ∧ heap r.1 = heap s1 ∧
   isGameOver final = true ∧ timeRemaining final = 0 ∧ score final = score s) ∧
  (10 < timeRemaining s →
   timeRemaining s1 = timeRemaining s - 10 ∧ isGameOver s1 = isGameOver s ∧
   score s1 = score s ∧ combo s1 = combo s).
Proof.
  intros Hl Hb s1 r final.
  assert (Hr : r = if decide (timeRemaining s1 <= 0)
                   then (set_isGameOver true s1, push_hit hit fi)
                   else resolveHits rnd rest s1 (push_hit hit fi)).
  { unfold r. cbn [resolveHits]. by rewrite Hl, Hb. }
  assert (Ht : timeRemaining s1 = Rmax 0 (timeRemaining s - 10)) by done.
  assert (Hh : heap s1 = fold_left (clearOther (CollisionSystem.object hit)) (objects s)
                           (alter (mark_fading 0) (CollisionSystem.object hit) (heap s)))
    by done.
  split; [ done | ]. split; [ | split; [ | split ] ].
  - intros other o Hin Hne Ho Hact _.
    assert (H1 : ∃ o1, heap s1 !! other = Some o1 ∧ Obj.fading o1 = true).
    { unfold s1, resolveBomb. cbn.
      eapply clear_fold_marks; [ exact Hin | exact Hne | | exact Hact ].
      by rewrite list_lookup_alter_ne. }
    destruct H1 as (o1 & Ho1 & Hf1).
    assert (Hev : evolves (heap s1) (heap final)).
    { unfold final. eapply evolves_trans; [ | apply cleanup_safe ].
      rewrite Hr. case_decide.
      - apply evolves_refl.
      - apply resolveHits_safe. }
    destruct (Hev other o1 Ho1) as (o' & Ho' & _ & Hf').
    exists o'. auto.
  - intros Hz. rewrite Hr. by rewrite decide_True.
  - intros Hz. rewrite Hr. rewrite decide_False by lra. done.
  - split; [ | split; [ | split; [ | split; [ | split ] ] ] ].
    + exists (mark_fading 0 obj). split; [ | done ].
      rewrite Hh.
      rewrite (clear_fold_lookup _ _ _ _ (mark_fading 0 obj))
        by (by rewrite list_lookup_alter_eq, Hl).
      rewrite decide_False; [ done | ]. by intros (_ & ? & _).
    + intros other o Hin Hne Ho Hact Hf. exists (mark_fading 0.4 o).
      split; [ | cbn; by rewrite ?Hact ].
      rewrite Hh.
      rewrite (clear_fold_lookup _ _ _ _ o) by (by rewrite list_lookup_alter_ne).
      by rewrite decide_True.
    + intros other o Hne Ho Hoff. rewrite Hh.
      rewrite (clear_fold_lookup _ _ _ _ o) by (by rewrite list_lookup_alter_ne).
      rewrite decide_False; [ done | ].
      intros (_ & _ & Ha & Hf). destruct Hoff; congruence.
    + by rewrite Hh, clear_fold_length, length_alter.
    + intros Hlow.
      assert (Hz : timeRemaining s1 = 0).
      { rewrite Ht. apply Rmax_left. lra. }
      assert (Hr' : r = (set_isGameOver true s1, push_hit hit fi)).
      { rewrite Hr. rewrite decide_True by lra. done. }
      assert (Hone : resolveHits rnd [hit] s fi = (set_isGameOver true s1, push_hit hit fi)).
      { cbn [resolveHits]. rewrite Hl, Hb. fold s1. rewrite decide_True by lra. done. }
      destruct (cleanup_spec toRemove r.1 r.2) as (Hsc & _).
      fold final in Hsc. unfold scalars in Hsc.
      rewrite Hr' in Hsc |- *. rewrite Hone. cbn [fst snd] in Hsc |- *.
      injection Hsc as Hscore _ _ _ Hover _ _ Htime _ _ _.
      repeat split; try done.
      rewrite Htime. apply Rmax_left. lra.
    + intros Hhigh. split; [ | done ]. rewrite Ht. apply Rmax_right. lra.
Qed.

Lemma bomb_hit_clears_witness :
  let s := DemoBomb.last_seconds in
  let s1 := resolveBomb 0 s in
  let r := resolveHits Sample.half [Sample.hit_on 0; Sample.hit_on 1] s emptyFrame in
  let final := (cleanup [] r.1 r.2).1 in
  timeRemaining s1 = Rmax 0 (5 - 10) ∧
  (∃ o', heap final !! 1%nat = Some o' ∧ Obj.fading o' = true) ∧
  (∃ o1, heap s1 !! 1%nat = Some o1 ∧ Obj.fading o1 = true ∧ Obj.fadeTimer o1 = 0.4) ∧
  isGameOver r.1 = true ∧ timeRemaining r.1 = 0 ∧
  hits r.2 = [Sample.hit_on 0] ∧ score r.1 = 0%Z ∧ combo r.1 = 0%Z ∧
  isGameOver final = true.
Proof.
  intros s s1 r final.
  destruct (bomb_hit_clears Sample.half (Sample.hit_on 0) [Sample.hit_on 1]
              DemoBomb.last_seconds emptyFrame [] Sample.bomb eq_refl eq_refl)
    as (Ht & Hclear & _ & _ & _ & Hmark & _ & _ & Hover & _).
  assert (Hin : (1%nat : loc) ∈ objects DemoBomb.last_seconds).
  { cbn. apply elem_of_cons. right. apply list_elem_of_singleton. reflexivity. }
  assert (Hne : (1%nat : loc) ≠ CollisionSystem.object (Sample.hit_on 0))
    by (cbn; lia).
  assert (Hlow : timeRemaining DemoBomb.last_seconds <= 10) by (cbn; lra).
  destruct (Hover Hlow)
    as (Hgo & Hzero & _ & Hhits & _ & _ & Hscore & Hcombo & _ & _ & _ & _ & Hfin & _).
  destruct (Hmark 1%nat Sample.apple Hin Hne eq_refl eq_refl eq_refl)
    as (o1 & Ho1 & Hf1 & Hft1 & _).
  split; [ exact Ht | ].
  split; [ exact (Hclear 1%nat Sample.apple Hin Hne eq_refl eq_refl eq_refl) | ].
  split; [ exists o1; auto | ].
  split; [ exact Hgo | ]. split; [ exact Hzero | ]. split; [ exact Hhits | ].
  split; [ exact Hscore | ]. split; [ exact Hcombo | exact Hfin ].
Defined.

(** C4: when the loop over the hits of [update] comes to a fruit, the
    combo is incremented and the score grows by exactly
    [10 * (generation + 1) * max(1, combo)], [combo] being the value
    after that increment. *)
Theorem fruit_hit_score (rnd : nat → R) (hit : CollisionSystem.HitRecord)
    (rest : list CollisionSystem.HitRecord) (s : t) (fi : FrameInfo)
    (obj : Obj.t) :
  heap s !! CollisionSystem.object hit = Some obj →
  Obj.isBomb obj = false → Obj.isHeart obj = false →
  let f := resolveFruit rnd hit obj s in
  resolveHits rnd (hit :: rest) s fi =
    resolveHits rnd rest f.1 (push_hit hit (push_spawned f.2 fi)) ∧
  combo f.1 = (combo s + 1)%Z ∧
  (score f.1 - score s = 10 * (Obj.generation obj + 1) * Z.max 1 (combo f.1))%Z.
Proof.
  intros Hl Hb Hh f.
  destruct (resolveFruit_fields rnd hit obj s) as (Hc & Hs & _).
  fold f in Hc, Hs. split; [ | split ].
  - by apply resolveHits_fruit.
  - exact Hc.
  - rewrite Hs, Hc. unfold points. lia.
Qed.

Lemma fruit_hit_score_witness :
  let f := resolveFruit Sample.half (Sample.hit_on 1) Sample.apple
             Sample.bomb_and_apple in
  combo f.1 = 1%Z ∧ (score f.1 - 0 = 10 * (0 + 1) * Z.max 1 (combo f.1))%Z.
Proof.
  intros f.
  exact (proj2 (fruit_hit_score Sample.half (Sample.hit_on 1) []
                  Sample.bomb_and_apple emptyFrame Sample.apple
                  eq_refl eq_refl eq_refl)).
Defined.

Lemma Rmin_cap_mono (e1 e2 : R) :
  e1 <= e2 → Rmin 3 (1 + e1 / 20) <= Rmin 3 (1 + e2 / 20).
Proof. intros H. unfold Rmin. repeat destruct (Rle_dec _ _); lra. Qed.

(** A batch never has more than three objects. *)
Lemma batchCount_at_most_3 (v e : R) : 0 <= v < 1 → (batchCount v e <= 3)%Z.
Proof.
  intros [Hv0 Hv1]. unfold batchCount.
  assert (Hm : Rmin 3 (1 + e / 20) <= 3) by apply Rmin_l.
  assert (Hlt : v * Rmin 3 (1 + e / 20) < 3).
  { destruct (Rle_lt_dec (Rmin 3 (1 + e / 20)) 0); nra. }
  pose proof (Zfloor_bound (v * Rmin 3 (1 + e / 20))) as [Hf _].
  assert (IZR (Zfloor (v * Rmin 3 (1 + e / 20))) < IZR 3) by lra.
  apply lt_IZR in H. lia.
Qed.

Lemma batchCount_mono (v e1 e2 : R) :
  0 <= v → e1 <= e2 → (batchCount v e1 <= batchCount v e2)%Z.
Proof.
  intros Hv He. unfold batchCount.
  pose proof (Rmin_cap_mono e1 e2 He).
  assert (v * Rmin 3 (1 + e1 / 20) <= v * Rmin 3 (1 + e2 / 20)) by nra.
  pose proof (Zfloor_le _ _ H0). lia.
Qed.

(** The cell that [_spawnObject] adds to the store. *)
Lemma spawnObject_cell (rnd : nat → R) (s : t) :
  ∃ o, heap (_spawnObject rnd s).1 = heap s ++ [o] ∧
       (_spawnObject rnd s).2 = length (heap s) ∧
       nextId (_spawnObject rnd s).1 = (nextId s + 1)%Z ∧
       Obj.id o = (nextId s + 1)%Z ∧
       Obj.active o = true ∧ Obj.fading o = false ∧ Obj.fadeTimer o = 0 ∧
       Obj.y o = - 0.08 ∧ Obj.generation o = 0%Z.
Proof.
  unfold _spawnObject, random, generateId, alloc, push_object.
  repeat (case_bool_decide; cbn); eexists; repeat split.
Qed.

(** The cells of a batch: one per round, at the end of the store, with
    consecutive ids and the [x] that the round assigns. *)
Lemma spawnLoop_cells (rnd : nat → R) (count : Z) (n : nat) :
  ∀ (i : Z) (s : t) (acc : list loc),
    ∃ os, heap (spawnLoop rnd count n i s acc).1 = heap s ++ os ∧
          (spawnLoop rnd count n i s acc).2 = acc ++ seq (length (heap s)) n ∧
          length os = n ∧
          nextId (spawnLoop rnd count n i s acc).1 = (nextId s + Z.of_nat n)%Z ∧
          ∀ (k : nat) (o : Obj.t), os !! k = Some o →
            Obj.id o = (nextId s + 1 + Z.of_nat k)%Z ∧
            Obj.active o = true ∧ Obj.fading o = false ∧ Obj.fadeTimer o = 0 ∧
            Obj.y o = - 0.08 ∧ Obj.generation o = 0%Z ∧
            ∃ j : nat,
              Obj.x o =
              0.08 + IZR (i + Z.of_nat k) / IZR count * 0.84 + (rnd j - 0.5) * 0.1.
Proof.
  induction n as [ | n IH ]; intros i s acc; cbn [spawnLoop].
  - exists []. rewrite !app_nil_r. cbn.
    do 3 (split; [ done | ]). split; [ lia | ].
    intros k o Hk. by rewrite lookup_nil in Hk.
  - destruct (spawnObject_cell rnd s)
      as (o & Hh & Hl & Hn & Hid & Ha & Hf & Hft & Hy & Hg).
    destruct (_spawnObject rnd s) as [s1 l]. cbn [fst snd] in *. subst l.
    unfold random. cbn zeta.
    set (v := 0.08 + IZR i / IZR count * 0.84 + (rnd (randCount s1) - 0.5) * 0.1).
    set (s2 := modify (length (heap s)) (Obj.set_x v) _).
    assert (Hh2 : heap s2 = heap s ++ [Obj.set_x v o]).
    { subst s2. unfold modify. cbn. rewrite Hh.
      replace (length (heap s)) with (length (heap s) + 0)%nat at 1 by lia.
      by rewrite alter_app_r. }
    assert (Hn2 : nextId s2 = (nextId s + 1)%Z) by (subst s2; exact Hn).
    destruct (IH (i + 1)%Z s2 (acc ++ [length (heap s)]))
      as (os & E1 & E2 & E3 & E4 & E5).
    exists (Obj.set_x v o :: os).
    rewrite E1, E2, E4, Hh2, Hn2, <- !app_assoc, length_app. cbn [length app].
    split; [ done | ]. split; [ | split; [ by rewrite E3 | split; [ lia | ] ] ].
    + f_equal. rewrite Nat.add_1_r. done.
    + intros [ | k ] o' Hk; cbn in Hk.
      * injection Hk as <-. cbn. rewrite Hid.
        split; [ lia | ]. do 5 (split; [ done | ]).
        exists (randCount s1). subst v. by rewrite Z.add_0_r.
      * destruct (E5 k o' Hk) as (Gid & Ga & Gf & Gft & Gy & Gg & j & Gx).
        rewrite Hn2 in Gid. split; [ lia | ]. do 5 (split; [ done | ]).
        exists j. rewrite Gx. do 4 f_equal. f_equal. lia.
Qed.

(** C5: when [spawnTimer], advanced by [dt], reaches [spawnInterval],
    the spawning step resets [spawnTimer] to 0 and pushes a batch of
    [1 + floor(random() * min(3, 1 + elapsed / 20))] objects to the live
    set: the batch consists of that many new cells at the end of the
    store, none of which existed before, all distinct, with the next
    ids in order, each active, not fading, at [y = -0.08], of
    generation 0 and with the [x] that its round assigns; whatever
    [elapsed] and whatever value of [[0, 1)] the random source returns,
    a batch has at most 4 objects; and the bound
    [min(3, 1 + elapsed / 20)], hence the batch size for a given random
    value, does not decrease as [elapsed] grows. *)
Theorem spawn_batch (rnd : nat → R) (dt : R) (s : t) :
  spawnTimer s + dt >= spawnInterval s →
  let count :=
    (1 + Zfloor (rnd (randCount s) * Rmin 3 (1 + elapsed s / 20)))%Z in
  let r := spawnStep rnd dt s in
  spawnTimer r.1 = 0 ∧
  length r.2 = Z.to_nat count ∧
  objects r.1 = objects s ++ r.2 ∧
  (∀ v e, 0 <= v < 1 → (batchCount v e <= 4)%Z) ∧
  (∀ v e1 e2, 0 <= v → e1 <= e2 →
     Rmin 3 (1 + e1 / 20) <= Rmin 3 (1 + e2 / 20) ∧
     (batchCount v e1 <= batchCount v e2)%Z) ∧
  (∀ v e, batchCount v e = (1 + Zfloor (v * Rmin 3 (1 + e / 20)))%Z) ∧
  (∃ os : list Obj.t,
     heap r.1 = heap s ++ os ∧ length os = Z.to_nat count ∧
     r.2 = seq (length (heap s)) (Z.to_nat count) ∧
     ∀ (k : nat) (o : Obj.t), os !! k = Some o →
       r.2 !! k = Some (length (heap s) + k)%nat ∧
       heap s !! (length (heap s) + k)%nat = None ∧
       heap r.1 !! (length (heap s) + k)%nat = Some o ∧
       Obj.id o = (nextId s + 1 + Z.of_nat k)%Z ∧
       Obj.active o = true ∧ Obj.fading o = false ∧ Obj.fadeTimer o = 0 ∧
       Obj.y o = - 0.08 ∧ Obj.generation o = 0%Z ∧
       ∃ j : nat,
         Obj.x o = 0.08 + IZR (Z.of_nat k) / IZR count * 0.84 + (rnd j - 0.5) * 0.1) ∧
  NoDup r.2 ∧
  (∀ l, l ∈ r.2 → heap s !! l = None ∧ is_Some (heap r.1 !! l)) ∧
  (∀ l o, heap s !! l = Some o → heap r.1 !! l = Some o) ∧
  nextId r.1 = (nextId s + Z.of_nat (Z.to_nat count))%Z.
Proof.
  intros Hdue count r.
  assert (Hcells : ∃ os : list Obj.t,
     heap r.1 = heap s ++ os ∧ r.2 = seq (length (heap s)) (Z.to_nat count) ∧
     length os = Z.to_nat count ∧
     nextId r.1 = (nextId s + Z.of_nat (Z.to_nat count))%Z ∧
     ∀ (k : nat) (o : Obj.t), os !! k = Some o →
       Obj.id o = (nextId s + 1 + Z.of_nat k)%Z ∧
       Obj.active o = true ∧ Obj.fading o = false ∧ Obj.fadeTimer o = 0 ∧
       Obj.y o = - 0.08 ∧ Obj.generation o = 0%Z ∧
       ∃ j : nat,
         Obj.x o =
         0.08 + IZR (0 + Z.of_nat k) / IZR count * 0.84 + (rnd j - 0.5) * 0.1).
  { unfold r. rewrite spawnStep_fires by done. cbv zeta.
    apply (spawnLoop_cells rnd count (Z.to_nat count) 0%Z
             (set_randCount (S (randCount s)) (set_spawnTimer 0 s)) []). }
  destruct Hcells as (os & Eh & Er & El & En & Eo).
  split; [ | split; [ | split; [ | split; [ | split; [ | split ] ] ] ] ].
  - unfold r. rewrite spawnStep_fires by done. cbv zeta.
    match goal with |- context [spawnLoop rnd ?c ?n ?i ?s0 ?a] =>
      destruct (spawnLoop_spec rnd c n i s0 a) as (H1 & _) end.
    by apply scalars_fields in H1 as (_ & _ & _ & _ & _ & _ & _ & _ & _ & -> & _).
  - unfold r. rewrite spawnStep_fires by done. cbv zeta.
    match goal with |- context [spawnLoop rnd ?c ?n ?i ?s0 ?a] =>
      destruct (spawnLoop_spec rnd c n i s0 a) as (_ & _ & new & -> & Hlen & _) end.
    by rewrite app_nil_l.
  - by destruct (spawnStep_spec rnd dt s) as (_ & _ & H & _).
  - intros v e Hv. pose proof (batchCount_at_most_3 v e Hv). lia.
  - intros v e1 e2 Hv He. split; [ by apply Rmin_cap_mono | by apply batchCount_mono ].
  - done.
  - split; [ | split; [ | split; [ | split ] ] ].
    + exists os. split; [ exact Eh | ]. split; [ exact El | ]. split; [ exact Er | ].
      intros k o Hk. destruct (Eo k o Hk) as (Gid & Ga & Gf & Gft & Gy & Gg & j & Gx).
      assert (Hlt : (k < Z.to_nat count)%nat).
      { rewrite <- El. by eapply lookup_lt_Some. }
      split; [ rewrite Er; by apply lookup_seq_lt | ].
      split; [ apply lookup_ge_None; lia | ].
      split; [ rewrite Eh; by rewrite lookup_app_r, Nat.add_comm, Nat.add_sub by lia | ].
      do 6 (split; [ done | ]).
      exists j. by rewrite Z.add_0_l in Gx.
    + rewrite Er. apply NoDup_seq.
    + intros l Hin. rewrite Er in Hin. apply elem_of_seq in Hin.
      split; [ apply lookup_ge_None; lia | ].
      apply lookup_lt_is_Some. rewrite Eh, length_app, El. lia.
    + intros l o Hl. rewrite Eh. by apply lookup_app_l_Some.
    + exact En.
Qed.

Lemma spawn_batch_witness :
  let r := spawnStep Sample.half 1.5 Sample.due in
  spawnTimer r.1 = 0 ∧
  length r.2 = Z.to_nat (1 + Zfloor (0.5 * Rmin 3 (1 + (0 + 1.5) / 20))) ∧
  objects r.1 = [] ++ r.2 ∧
  (∃ os : list Obj.t,
     heap r.1 = [] ++ os ∧
     length os = Z.to_nat (1 + Zfloor (0.5 * Rmin 3 (1 + (0 + 1.5) / 20))) ∧
     r.2 = seq 0 (Z.to_nat (1 + Zfloor (0.5 * Rmin 3 (1 + (0 + 1.5) / 20))))) ∧
  NoDup r.2.
Proof.
  intros r.
  destruct (spawn_batch Sample.half 1.5 Sample.due)
    as (H1 & H2 & H3 & _ & _ & _ & (os & E1 & E2 & E3 & _) & H4 & _).
  { unfold Sample.due. cbn. unfold minSpawnInterval, difficultyRate, Rmax.
    destruct (Rle_dec _ _); lra. }
  split; [ exact H1 | ]. split; [ exact H2 | ]. split; [ exact H3 | ].
  split; [ | exact H4 ].
  exists os. split; [ exact E1 | ]. split; [ exact E2 | exact E3 ].
Defined.

End Hits.

(** ** Frames without hits, frames without time *)

Section Quiet.
Import GameEngine.

Lemma checkObjects_valid (heap : list Obj.t) (now : R) (hands : Hands)
    (objects : list loc) :
  ∀ (rh : gmap Z R) (hits : list CollisionSystem.HitRecord),
    (∀ h, h ∈ hits → is_Some (heap !! CollisionSystem.object h)) →
    ∀ h, h ∈ (CollisionSystem.checkObjects heap now hands objects rh hits).2 →
         is_Some (heap !! CollisionSystem.object h).
Proof.
  induction objects as [ | l rest IH ]; intros rh hits Hv;
    cbn [CollisionSystem.checkObjects].
  - exact Hv.
  - destruct (heap !! l) as [ obj | ] eqn:Hl; [ | by apply IH ].
    destruct (Obj.fading obj); [ by apply IH | ].
    case_decide; [ by apply IH | ].
    destruct (CollisionSystem.trySides hands l obj _) as [ h | ] eqn:Hs;
      [ | by apply IH ].
    apply IH. intros h' [Hin | Hin]%elem_of_app; [ by apply Hv | ].
    apply list_elem_of_singleton in Hin as ->.
    apply trySides_object in Hs. rewrite Hs, Hl. by eexists.
Qed.

Lemma collide_valid (now : R) (hands : Hands) (s : t) :
  ∀ h, h ∈ (collide now hands s).2 →
       is_Some (heap (collide now hands s).1 !! CollisionSystem.object h).
Proof.
  destruct (collide_spec now hands s) as (_ & -> & _).
  unfold collide, CollisionSystem.checkAll.
  pose proof (checkObjects_valid (heap s) now hands (sliceable s)
                (CollisionSystem.prune now
                   (CollisionSystem.recentHits (collisionSystem s))) []) as H.
  destruct (CollisionSystem.checkObjects _ _ _ _ _ _) as [rh hs]. cbn in *.
  apply H. intros h Hin. by apply elem_of_nil in Hin.
Qed.

(** The hits of the frame summary only grow during the loop. *)
Lemma resolveHits_hits_prefix (rnd : nat → R) (hs : list CollisionSystem.HitRecord) :
  ∀ s fi, ∃ more, hits (resolveHits rnd hs s fi).2 = hits fi ++ more.
Proof.
  induction hs as [ | hit rest IH ]; intros s fi; cbn [resolveHits].
  - exists []. by rewrite app_nil_r.
  - destruct (heap s !! CollisionSystem.object hit) as [ obj | ]; [ | apply IH ].
    destruct (Obj.isBomb obj).
    + case_decide.
      * by exists [hit].
      * destruct (IH (resolveBomb (CollisionSystem.object hit) s) (push_hit hit fi))
          as (more & ->).
        exists (hit :: more). cbn. by rewrite <- app_assoc.
    + destruct (Obj.isHeart obj).
      * destruct (IH (resolveHeart (CollisionSystem.object hit) s) (push_hit hit fi))
          as (more & ->).
        exists (hit :: more). cbn. by rewrite <- app_assoc.
      * destruct (resolveFruit rnd hit obj s) as [s1 pieces].
        destruct (IH s1 (push_hit hit (push_spawned pieces fi))) as (more & ->).
        exists (hit :: more). cbn. by rewrite <- app_assoc.
Qed.

(** A detected hit always reaches the frame summary. *)
Lemma resolveHits_hits_nil (rnd : nat → R) (hs : list CollisionSystem.HitRecord)
    (s : t) (fi : FrameInfo) :
  (∀ h, h ∈ hs → is_Some (heap s !! CollisionSystem.object h)) →
  hits (resolveHits rnd hs s fi).2 = [] → hs = [].
Proof.
  destruct hs as [ | hit rest ]; [ done | ]. intros Hv Hnil. exfalso.
  destruct (Hv hit) as [obj Hobj]; [ apply elem_of_cons; by left | ].
  cbn [resolveHits] in Hnil. rewrite Hobj in Hnil.
  assert (Hgrow : ∀ s' fi', hits (resolveHits rnd rest s' (push_hit hit fi')).2 ≠ []).
  { intros s' fi' Heq.
    destruct (resolveHits_hits_prefix rnd rest s' (push_hit hit fi')) as (more & Hm).
    rewrite Hm in Heq. cbn in Heq.
    apply app_eq_nil in Heq as [Heq _]. by apply app_eq_nil in Heq as [_ ?]. }
  destruct (Obj.isBomb obj).
  - case_decide.
    + cbn in Hnil. by apply app_eq_nil in Hnil as [_ ?].
    + by eapply Hgrow.
  - destruct (Obj.isHeart obj).
    + by eapply Hgrow.
    + destruct (resolveFruit rnd hit obj s) as [s1 pieces]. by eapply (Hgrow s1 (push_spawned pieces fi)).
Qed.

(** When the spawn timer is not due, the steps before the collision
    spawn nothing: they end with the physics step on a state that has the
    store it started with. *)
Lemma beforeCollision_idle (rnd : nat → R) (dt : R) (s : t) :
  spawnTimer s + dt < Rmax minSpawnInterval (1.5 - elapsed s * difficultyRate) →
  ∃ s3, heap s3 = heap s ∧
        beforeCollision rnd dt s = ((physics dt s3).1, [], (physics dt s3).2).
Proof.
  intros Hidle. unfold beforeCollision.
  rewrite spawnStep_idle by exact Hidle.
  exists (comboDecay dt (set_spawnTimer (spawnTimer (ramp s) + dt) (ramp s))).
  split.
  - by destruct (comboDecay_scalars dt
                   (set_spawnTimer (spawnTimer (ramp s) + dt) (ramp s))) as (-> & _).
  - by destruct (physics dt _) as [s4 tr].
Qed.

Lemma resolveHits_removed (rnd : nat → R) (hs : list CollisionSystem.HitRecord) :
  ∀ s fi, removed (resolveHits rnd hs s fi).2 = removed fi.
Proof.
  induction hs as [ | hit rest IH ]; intros s fi; cbn [resolveHits]; [ done | ].
  destruct (heap s !! _) as [ obj | ]; [ | apply IH ].
  destruct (Obj.isBomb obj).
  - case_decide; [ done | by rewrite IH ].
  - destruct (Obj.isHeart obj); [ by rewrite IH | ].
    destruct (resolveFruit _ _ _ _). by rewrite IH.
Qed.

(** One call with [dt = 0] from a state of the invariant. *)
Lemma still_frame (rnd : nat → R) (now : R) (hands : Hands) (s : t) :
  Inv s →
  let r := update rnd now 0 hands s in
  (hits r.2 = [] →
   score r.1 = score s ∧ combo r.1 = combo s ∧ timeRemaining r.1 = timeRemaining s) ∧
  (∀ l, l ∈ removed r.2 → ∃ o, heap s !! l = Some o ∧ out_of_play o).
Proof.
  intros [Hr Ht Hc Hs] r. unfold r.
  destruct (isGameOver s || isPaused s) eqn:Hstop.
  { rewrite update_stopped by done. split; [ done | ].
    intros l Hin. by apply elem_of_nil in Hin. }
  apply orb_false_iff in Hstop. destruct Hstop as [Hov Hpa].
  specialize (Ht Hov). specialize (Hs Hov).
  rewrite update_running by (done || lra). cbv zeta.
  destruct (beforeCollision_idle rnd 0 (tick 0 s)) as (s3 & Hheap & Hb).
  { cbn. rewrite Rplus_0_r, Rplus_0_r. exact Hs. }
  destruct (beforeCollision_fields rnd 0 (tick 0 s))
    as (Hbt & Hbsc & _ & _ & _ & Hbc & _).
  rewrite Hb in Hbt, Hbsc, Hbc |- *. cbn [fst snd] in Hbt, Hbsc, Hbc |- *.
  destruct (physics_still s3) as [_ Hq].
  set (b := (physics 0 s3).1) in *. set (tr := (physics 0 s3).2) in *.
  pose proof (collide_valid now hands b) as Hvalid.
  destruct (collide_spec now hands b) as ((Hcs & Hcc & _ & _ & _ & _ & _ & Hct & _)%scalars_fields & _).
  destruct (collide now hands b) as [c hs]. cbn [fst snd] in *.
  split.
  - intros Hnil.
    destruct (cleanup_spec tr (resolveHits rnd hs c (mkFrame [] [] [])).1
                (resolveHits rnd hs c (mkFrame [] [] [])).2) as (Hk & _ & _ & Hh & _).
    cbv zeta in Hk, Hh. rewrite Hh in Hnil.
    apply resolveHits_hits_nil in Hnil; [ | exact Hvalid ]. subst hs.
    cbn [resolveHits fst snd] in Hk |- *.
    apply scalars_fields in Hk as (Hk1 & Hk2 & _ & _ & _ & _ & _ & Hk8 & _).
    rewrite Hk1, Hk2, Hk8, Hcs, Hcc, Hct, Hbt, Hbsc, Hbc. cbn.
    split; [ done | ]. split; [ | lra ].
    destruct (decide (0 < combo s)%Z) as [Hpos | ]; [ | done ].
    specialize (Hc Hpos). rewrite decide_False by lra. done.
  - intros l Hin.
    destruct (cleanup_spec tr (resolveHits rnd hs c (mkFrame [] [] [])).1
                (resolveHits rnd hs c (mkFrame [] [] [])).2) as (_ & _ & _ & _ & _ & Hrm).
    cbv zeta in Hrm. rewrite Hrm in Hin.
    rewrite resolveHits_removed in Hin. cbn [removed] in Hin. rewrite app_nil_l in Hin.
    destruct (Hq l Hin) as (o & Ho & Hout). exists o. split; [ | done ].
    rewrite Hheap in Ho. exact Ho.
Qed.

End Quiet.

(** ** A game: one lime spawned, then sliced *)

Section Scenario.
Import GameEngine.

Lemma t_ext (s s' : t) :
  collisionSystem s = collisionSystem s' → score s = score s' →
  combo s = combo s' → bestCombo s = bestCombo s' →
  comboTimer s = comboTimer s' → isGameOver s = isGameOver s' →
  isPaused s = isPaused s' → elapsed s = elapsed s' →
  timeRemaining s = timeRemaining s' → spawnInterval s = spawnInterval s' →
  spawnTimer s = spawnTimer s' → bombChance s = bombChance s' →
  objects s = objects s' → heap s = heap s' → nextId s = nextId s' →
  randCount s = randCount s' → s = s'.
Proof. destruct s, s'. cbn. intros. by subst. Qed.

Lemma obj_ext (o o' : Obj.t) :
  Obj.id o = Obj.id o' → Obj.type o = Obj.type o' →
  Obj.isBomb o = Obj.isBomb o' → Obj.isHeart o = Obj.isHeart o' →
  Obj.x o = Obj.x o' → Obj.y o = Obj.y o' → Obj.vx o = Obj.vx o' →
  Obj.vy o = Obj.vy o' → Obj.radius o = Obj.radius o' →
  Obj.rotationSpeed o = Obj.rotationSpeed o' → Obj.rotation o = Obj.rotation o' →
  Obj.active o = Obj.active o' → Obj.sliceCount o = Obj.sliceCount o' →
  Obj.maxSlices o = Obj.maxSlices o' → Obj.fadeTimer o = Obj.fadeTimer o' →
  Obj.fading o = Obj.fading o' → Obj.generation o = Obj.generation o' →
  Obj.halfSide o = Obj.halfSide o' → o = o'.
Proof. destruct o, o'. cbn. intros. by subst. Qed.

(** Comparisons between concrete numbers. *)
Ltac rsolve :=
  cbn;
  unfold minSpawnInterval, difficultyRate, maxBombChance, heartChance, gravity,
    comboWindow, maxTime, CollisionSystem.minSliceSpeed, CollisionSystem.handRadius,
    CollisionSystem.hitCooldown, Sample.half, Rmax, Rmin in *;
  repeat destruct (Rle_dec _ _);
  first [ lra | lia | (intros [? | ?]; lra) | reflexivity ].

Ltac rdec :=
  match goal with
  | |- context [@decide ?P ?d] =>
      first [ rewrite (@decide_True _ P d) by rsolve
            | rewrite (@decide_False _ P d) by rsolve ]
  | |- context [@bool_decide ?P ?d] =>
      first [ rewrite (@bool_decide_eq_true_2 P d) by rsolve
            | rewrite (@bool_decide_eq_false_2 P d) by rsolve ]
  end.

Ltac fields_eq := cbn; try rsolve.

(** Call-by-value evaluation of the engine on a concrete state, up to the
    next comparison of real numbers. *)
Ltac eng_cbv :=
  cbv beta iota zeta delta
    [update beforeCollision spawnStep comboDecay physics physicsObj integrate
     collide sliceable is_sliceable cleanup cleanupObj resolveHits
     _spawnObject random generateId alloc push_object modify tick ramp expire new
     set_collisionSystem set_score set_combo set_bestCombo set_comboTimer
     set_isGameOver set_isPaused set_elapsed set_timeRemaining
     set_spawnInterval set_spawnTimer set_bombChance set_objects set_heap
     set_nextId set_randCount
     collisionSystem score combo bestCombo comboTimer isGameOver isPaused elapsed
     timeRemaining spawnInterval spawnTimer bombChance objects heap nextId randCount
     Obj.set_x Obj.set_y Obj.set_vy Obj.set_rotation Obj.set_active
     Obj.set_fadeTimer Obj.set_fading
     Obj.id Obj.type Obj.isBomb Obj.isHeart Obj.x Obj.y Obj.vx Obj.vy Obj.radius
     Obj.rotationSpeed Obj.rotation Obj.active Obj.sliceCount Obj.maxSlices
     Obj.fadeTimer Obj.fading Obj.generation Obj.halfSide
     Sample.spawned_first Sample.after_first Sample.lime Sample.lime_born
     fst snd negb andb orb app length fold_left List.filter
     lookup list_lookup insert list_insert alter list_alter].

Lemma first_count : batchCount (Sample.half 0) (0 + 1.5) = 1%Z.
Proof. unfold batchCount. rewrite (Zfloor_eq 0); [ done | ]. rsolve. Qed.

Lemma lime_index (n : nat) :
  Zfloor (Sample.half n * (1 + 1 + 1 + 1 + 1 + 1)) = 3%Z.
Proof. apply Zfloor_eq. unfold Sample.half. lra. Qed.

Lemma first_spawn :
  spawnStep Sample.half 1.5 (ramp (tick 1.5 new)) = (Sample.spawned_first, [0%nat]).
Proof.
  rewrite spawnStep_fires by rsolve. cbv zeta.
  replace (batchCount _ _) with 1%Z by (symmetry; apply first_count).
  change (Z.to_nat 1) with 1%nat. cbn [spawnLoop].
  eng_cbv. rdec. eng_cbv. rdec. eng_cbv. rewrite lime_index. eng_cbv.
  f_equal. apply t_ext; fields_eq.
  f_equal. apply obj_ext; fields_eq.
Qed.

Lemma first_physics :
  physics 1.5 (comboDecay 1.5 Sample.spawned_first) = (Sample.after_first, []).
Proof.
  eng_cbv. repeat (rdec; eng_cbv).
  f_equal. apply t_ext; fields_eq.
  f_equal. apply obj_ext; fields_eq.
Qed.

Lemma first_before :
  beforeCollision Sample.half 1.5 (tick 1.5 new) = (Sample.after_first, [0%nat], []).
Proof.
  unfold beforeCollision. rewrite first_spawn. cbv zeta iota beta.
  by rewrite first_physics.
Qed.

(** A hand that is not visible hits nothing. *)
Lemma invisible_misses (hand : Hand.t) (obj : Obj.t) :
  Hand.visible hand = false → CollisionSystem.checkCollision hand obj = false.
Proof.
  intros Hv. unfold CollisionSystem.checkCollision, CollisionSystem.checkCollision_step.
  by rewrite Hv.
Qed.

Lemma idle_checkObjects (heap : list Obj.t) (now : R) (hands : Hands)
    (objs : list loc) :
  Hand.visible (left_hand hands) = false → Hand.visible (right_hand hands) = false →
  ∀ rh hs, CollisionSystem.checkObjects heap now hands objs rh hs = (rh, hs).
Proof.
  intros Hl Hr. induction objs as [ | l rest IH ]; intros rh hs;
    cbn [CollisionSystem.checkObjects]; [ done | ].
  destruct (heap !! l) as [ obj | ]; [ | apply IH ].
  destruct (Obj.fading obj); [ apply IH | ].
  case_decide; [ apply IH | ].
  cbn [CollisionSystem.trySides CollisionSystem.hand_of].
  rewrite !invisible_misses by done. apply IH.
Qed.

Lemma idle_collide (now : R) (hands : Hands) (s : t) :
  Hand.visible (left_hand hands) = false → Hand.visible (right_hand hands) = false →
  (collide now hands s).2 = [].
Proof.
  intros Hl Hr. unfold collide, CollisionSystem.checkAll.
  by rewrite idle_checkObjects.
Qed.

(** With no hand in view, the frame summary has no hit. *)
Lemma idle_update_hits (rnd : nat → R) (now dt : R) (hands : Hands) (s : t) :
  Hand.visible (left_hand hands) = false → Hand.visible (right_hand hands) = false →
  hits (update rnd now dt hands s).2 = [].
Proof.
  intros Hl Hr.
  destruct (isGameOver s || isPaused s) eqn:Hstop.
  { by rewrite update_stopped. }
  apply orb_false_iff in Hstop.
  destruct (Rle_lt_dec (timeRemaining s - dt) 0) as [Hexp | Hrun].
  { by rewrite update_expired. }
  rewrite update_running by done. cbv zeta.
  match goal with |- context [cleanup ?tr ?s1 ?fi] =>
    destruct (cleanup_spec tr s1 fi) as (_ & _ & _ & -> & _) end.
  by rewrite idle_collide.
Qed.

Lemma first_frame :
  (update Sample.half 0 1.5 Sample.idle new).1 = Sample.after_first.
Proof.
  rewrite update_running; [ | done | rsolve ]. cbv zeta.
  rewrite first_before. cbn [fst snd].
  unfold collide, CollisionSystem.checkAll.
  rewrite idle_checkObjects by done. cbn [fst snd resolveHits cleanup fold_left].
  change (CollisionSystem.recentHits (collisionSystem Sample.after_first))
    with (∅ : gmap Z R).
  unfold CollisionSystem.prune. rewrite map_filter_empty. reflexivity.
Qed.

Lemma half_unit : unit_stream Sample.half.
Proof. intros n. unfold Sample.half. lra. Qed.

Lemma after_first_reachable : reachable Sample.half Sample.after_first.
Proof.
  rewrite <- first_frame. apply reach_update; [ apply reach_new | apply half_unit | lra ].
Qed.

Lemma second_before :
  beforeCollision Sample.half 0 (tick 0 Sample.after_first) =
  (Sample.after_first, [], []).
Proof.
  unfold beforeCollision.
  eng_cbv. repeat (rdec; eng_cbv).
  do 2 f_equal. apply t_ext; fields_eq. f_equal. apply obj_ext; fields_eq.
Qed.

Lemma strike_collides :
  CollisionSystem.checkCollision Sample.striking Sample.lime = true.
Proof.
  unfold CollisionSystem.checkCollision, CollisionSystem.checkCollision_step.
  cbn [Sample.striking Hand.visible negb Hand.speed].
  rewrite decide_False by rsolve.
  rewrite decide_True; [ done | ].
  unfold CollisionSystem.dist, CollisionSystem.combinedRadius,
    CollisionSystem.handRadius. cbn.
  apply sqrt_lt_square; lra.
Qed.

Lemma second_collide :
  collide 0 Sample.strike Sample.after_first = (Sample.struck, [Sample.lime_hit]).
Proof.
  unfold collide, CollisionSystem.checkAll.
  change (sliceable Sample.after_first) with [0%nat].
  change (CollisionSystem.recentHits (collisionSystem Sample.after_first))
    with (∅ : gmap Z R).
  unfold CollisionSystem.prune. rewrite map_filter_empty.
  cbn [CollisionSystem.checkObjects].
  change (heap Sample.after_first !! 0%nat) with (Some Sample.lime).
  cbn [Sample.lime Obj.fading Obj.id].
  rewrite decide_False by (rewrite lookup_empty; apply is_Some_None).
  cbn [CollisionSystem.trySides CollisionSystem.hand_of Sample.strike left_hand].
  rewrite strike_collides. reflexivity.
Qed.

(** The second call, [update(0, strike)], slices the lime. *)
Lemma second_frame :
  (update Sample.half 0 0 Sample.strike Sample.after_first).1 =
  (resolveFruit Sample.half Sample.lime_hit Sample.lime Sample.struck).1.
Proof.
  rewrite update_running; [ | done | rsolve ]. cbv zeta.
  rewrite second_before. cbn [fst snd]. rewrite second_collide. cbn [fst snd].
  rewrite (resolveHits_fruit Sample.half Sample.lime_hit [] Sample.struck
             (mkFrame [] [] []) Sample.lime eq_refl eq_refl eq_refl).
  reflexivity.
Qed.

Lemma sliced_fields :
  let s := (update Sample.half 0 0 Sample.strike Sample.after_first).1 in
  reachable Sample.half s ∧
  combo s = 1%Z ∧ score s = 10%Z ∧ comboTimer s = 1 ∧ timeRemaining s = 28.5 ∧
  isGameOver s = false ∧ isPaused s = false.
Proof.
  cbv zeta. split.
  { apply reach_update; [ apply after_first_reachable | apply half_unit | lra ]. }
  rewrite second_frame.
  destruct (resolveFruit_fields Sample.half Sample.lime_hit Sample.lime Sample.struck)
    as (-> & -> & -> & _ & -> & -> & -> & _).
  by repeat split.
Qed.

End Scenario.

(** ** The combo across a call *)

Section Combo.
Import GameEngine.

Lemma fruit_hits_snoc (H : list Obj.t) (hs : list CollisionSystem.HitRecord)
    (h : CollisionSystem.HitRecord) :
  fruit_hits H (hs ++ [h]) =
  (fruit_hits H hs + (if is_fruit_hit H h then 1 else 0))%Z.
Proof.
  unfold fruit_hits. rewrite List.filter_app, length_app. cbn.
  destruct (is_fruit_hit H h); cbn; lia.
Qed.

(** The kind of the object of a hit is the same in every later store. *)
Lemma is_fruit_hit_later (h H : list Obj.t) (hit : CollisionSystem.HitRecord)
    (obj : Obj.t) :
  h !! CollisionSystem.object hit = Some obj → evolves h H →
  is_fruit_hit H hit = negb (Obj.isBomb obj) && negb (Obj.isHeart obj).
Proof.
  intros Hobj Hev. unfold is_fruit_hit.
  destruct (Hev _ _ Hobj) as (o' & -> & (_ & _ & -> & -> & _) & _). done.
Qed.

(** The loop over the hits adds one to the combo for each fruit hit it
    pushes to the frame summary, and nothing else. *)
Lemma resolveHits_combo (rnd : nat → R) (hs : list CollisionSystem.HitRecord) :
  ∀ s fi H,
    evolves (heap (resolveHits rnd hs s fi).1) H →
    (combo (resolveHits rnd hs s fi).1 - fruit_hits H (hits (resolveHits rnd hs s fi).2)
     = combo s - fruit_hits H (hits fi))%Z.
Proof.
  induction hs as [ | hit rest IH ]; intros s fi H; cbn [resolveHits]; [ done | ].
  destruct (heap s !! CollisionSystem.object hit) as [ obj | ] eqn:Hobj; [ | apply IH ].
  destruct (Obj.isBomb obj) eqn:Hb.
  - destruct (resolveBomb_fields (CollisionSystem.object hit) s)
      as (_ & _ & Hc & _ & _ & _ & _ & _ & _ & Hev).
    case_decide.
    + cbn. intros HH. rewrite fruit_hits_snoc, ?Hc.
      rewrite (is_fruit_hit_later (heap s) H hit obj Hobj)
        by (by eapply evolves_trans).
      rewrite Hb. cbn. lia.
    + intros HH. rewrite IH by done. cbn. rewrite fruit_hits_snoc, ?Hc.
      rewrite (is_fruit_hit_later (heap s) H hit obj Hobj).
      * rewrite Hb. cbn. lia.
      * eapply evolves_trans; [ exact Hev | ].
        eapply evolves_trans; [ apply resolveHits_safe | exact HH ].
  - destruct (Obj.isHeart obj) eqn:Hh.
    + intros HH. rewrite IH by done. cbn. rewrite fruit_hits_snoc.
      rewrite (is_fruit_hit_later (heap s) H hit obj Hobj).
      * rewrite Hb, Hh. cbn. lia.
      * eapply evolves_trans; [ apply (resolveHeart_safe (CollisionSystem.object hit) s) | ].
        eapply evolves_trans; [ apply resolveHits_safe | exact HH ].
    + destruct (resolveFruit_fields rnd hit obj s) as (Hc & _ & _ & _ & _ & _ & _ & _ & _ & Hev).
      destruct (resolveFruit rnd hit obj s) as [s1 pieces]. cbn [fst] in Hc, Hev.
      intros HH. rewrite IH by done. cbn. rewrite fruit_hits_snoc, Hc.
      rewrite (is_fruit_hit_later (heap s) H hit obj Hobj).
      * rewrite Hb, Hh. cbn. lia.
      * eapply evolves_trans; [ exact Hev | ].
        eapply evolves_trans; [ apply resolveHits_safe | exact HH ].
Qed.

(** C6, amended: when the engine is running and the timer does not run
    out in this call ([timeRemaining > dt]), a call [update(dt, hands)]
    from a state with [combo > 0] and [comboTimer <= dt] has [combo = 0]
    when the collision step starts, and returns with [combo] equal to the
    number of fruit hits of this call: the slices of the call count from
    1, the expired streak is not continued. *)
Theorem expired_combo_restarts (rnd : nat → R) (now dt : R) (hands : Hands) (s : t) :
  running s → 0 < timeRemaining s - dt →
  (0 < combo s)%Z → comboTimer s <= dt →
  let b := (beforeCollision rnd dt (tick dt s)).1.1 in
  let r := update rnd now dt hands s in
  combo b = 0%Z ∧ combo r.1 = fruit_hits (heap r.1) (hits r.2).
Proof.
  intros Hrun Htime Hcombo Hexp b r.
  assert (Hb : combo b = 0%Z).
  { destruct (beforeCollision_fields rnd dt (tick dt s)) as (_ & _ & _ & _ & _ & Hc & _).
    unfold b. rewrite Hc. cbn.
    rewrite decide_True by done. rewrite decide_True by lra. done. }
  split; [ exact Hb | ].
  unfold r. rewrite update_running by done. cbv zeta. fold b.
  destruct (collide_spec now hands b) as ((_ & Hcc & _)%scalars_fields & _).
  set (c := collide now hands b) in *.
  set (fi0 := mkFrame _ [] []).
  destruct (cleanup_spec (beforeCollision rnd dt (tick dt s)).2
              (resolveHits rnd c.2 c.1 fi0).1 (resolveHits rnd c.2 c.1 fi0).2)
    as ((_ & Hkc & _)%scalars_fields & _ & Hkev & Hkh & _).
  cbv zeta in Hkc, Hkev, Hkh. rewrite Hkc, Hkh.
  pose proof (resolveHits_combo rnd c.2 c.1 fi0 _ Hkev) as Hcount.
  rewrite Hcc, Hb in Hcount. unfold fruit_hits at 2 in Hcount. cbn in Hcount. lia.
Qed.

Lemma expired_combo_restarts_witness :
  let b := (beforeCollision Sample.half 0.01 (tick 0.01 Sample.expiring)).1.1 in
  let r := update Sample.half 0 0.01 Sample.idle Sample.expiring in
  combo b = 0%Z ∧ combo r.1 = fruit_hits (heap r.1) (hits r.2).
Proof.
  apply (expired_combo_restarts Sample.half 0 0.01 Sample.idle Sample.expiring).
  - split; reflexivity.
  - cbn. lra.
  - cbn. lia.
  - cbn. lra.
Defined.

(** C6 as stated fails when the timer runs out in the call: after the
    lime is sliced the state is reachable, has [combo = 1 > 0] and
    [comboTimer = 1 <= 40], and [update(40, idle)] ends the game on the
    timer test, before the combo-decay step, leaving [combo = 1]. *)
Lemma expiry_skips_combo_decay :
  let s := (update Sample.half 0 0 Sample.strike Sample.after_first).1 in
  let r := update Sample.half 0 40 Sample.idle s in
  reachable Sample.half s ∧ (combo s > 0)%Z ∧ comboTimer s <= 40 ∧
  combo r.1 = 1%Z ∧ combo r.1 ≠ 0%Z ∧ isGameOver r.1 = true.
Proof.
  intros s r. destruct sliced_fields as (Hreach & Hc & _ & Hct & Ht & Hov & Hpa).
  fold s in Hreach, Hc, Hct, Ht, Hov, Hpa.
  assert (Hr : r = (expire (tick 40 s), emptyFrame)).
  { unfold r. apply update_expired; [ by split | lra ]. }
  rewrite Hr. cbn. rewrite Hc, Hct.
  split; [ exact Hreach | ]. split; [ lia | ]. split; [ lra | ]. by repeat split.
Qed.

End Combo.

(** ** Calls with [dt = 0] *)

Section Still.
Import GameEngine.

Lemma updates_cons (rnd : nat → R) (now dt : R) (hands : Hands)
    (rest : list (R * R * Hands)) (s : t) :
  updates rnd ((now, dt, hands) :: rest) s =
  let u := update rnd now dt hands s in
  let r := updates rnd rest u.1 in
  (r.1, (s, u.2) :: r.2).
Proof.
  cbn [updates]. destruct (update rnd now dt hands s) as [s1 fi].
  cbn [fst snd]. by destruct (updates rnd rest s1) as [s2 log].
Qed.

Lemma still_frames (rnd : nat → R) (calls : list (R * R * Hands)) :
  ∀ s, Inv s → Forall (λ c, c.1.2 = 0) calls →
  let r := updates rnd calls s in
  (Forall (λ e : t * FrameInfo, hits e.2 = []) r.2 →
   score r.1 = score s ∧ combo r.1 = combo s ∧ timeRemaining r.1 = timeRemaining s) ∧
  Forall (λ e : t * FrameInfo,
            ∀ l, l ∈ removed e.2 → ∃ o, heap e.1 !! l = Some o ∧ out_of_play o) r.2.
Proof.
  induction calls as [ | [[now dt] hands] rest IH ]; intros s HI Hdt.
  - cbn. split; [ done | constructor ].
  - apply Forall_cons in Hdt as [Hz Hrest]. cbn in Hz. subst dt.
    rewrite updates_cons. cbv zeta. cbn [fst snd].
    destruct (still_frame rnd now hands s HI) as [Hsame Hout].
    cbv zeta in Hsame, Hout.
    destruct (IH (update rnd now 0 hands s).1) as [IH1 IH2].
    { apply Inv_update; [ lra | exact HI ]. }
    { exact Hrest. }
    cbv zeta in IH1, IH2. split.
    + intros Hq. apply Forall_cons in Hq as [Hq1 Hq2]. cbn [snd] in Hq1.
      destruct (Hsame Hq1) as (E1 & E2 & E3).
      destruct (IH1 Hq2) as (F1 & F2 & F3). by rewrite F1, F2, F3.
    + constructor; [ exact Hout | exact IH2 ].
Qed.

(** C9, amended: from a reachable state, any number of calls [update]
    with [dt = 0] in which no hit is reported leaves [score], [combo] and
    [timeRemaining] as they were; and, hits or not, every object removed
    by such a call was, in the state before that call, active and already
    past a screen bound or, if fading, past the fade duration. *)
Theorem still_frames_keep_score (rnd : nat → R) (calls : list (R * R * Hands)) (s : t) :
  reachable rnd s → Forall (λ c, c.1.2 = 0) calls →
  let r := updates rnd calls s in
  (Forall (λ e : t * FrameInfo, hits e.2 = []) r.2 →
   score r.1 = score s ∧ combo r.1 = combo s ∧ timeRemaining r.1 = timeRemaining s) ∧
  Forall (λ e : t * FrameInfo,
            ∀ l, l ∈ removed e.2 → ∃ o, heap e.1 !! l = Some o ∧ out_of_play o) r.2.
Proof.
  intros Hreach Hdt. apply still_frames; [ | exact Hdt ].
  by eapply reachable_Inv.
Qed.

Lemma idle_updates_hits (rnd : nat → R) (calls : list (R * R * Hands)) :
  ∀ s,
    Forall (λ c, Hand.visible (left_hand c.2) = false ∧
                 Hand.visible (right_hand c.2) = false) calls →
    Forall (λ e : t * FrameInfo, hits e.2 = []) (updates rnd calls s).2.
Proof.
  induction calls as [ | [[now dt] hands] rest IH ]; intros s Hv.
  - constructor.
  - apply Forall_cons in Hv as [[Hl Hr] Hrest]. cbn in Hl, Hr.
    rewrite updates_cons. cbv zeta. cbn [snd]. constructor.
    + cbn [snd]. by apply idle_update_hits.
    + by apply IH.
Qed.

Lemma still_frames_keep_score_witness :
  let r := updates Sample.half Sample.still_calls new in
  (score r.1 = 0%Z ∧ combo r.1 = 0%Z ∧ timeRemaining r.1 = 30) ∧
  Forall (λ e : t * FrameInfo,
            ∀ l, l ∈ removed e.2 → ∃ o, heap e.1 !! l = Some o ∧ out_of_play o) r.2.
Proof.
  intros r.
  destruct (still_frames_keep_score Sample.half Sample.still_calls new) as [Hsame Hout].
  - apply reach_new.
  - repeat constructor.
  - split; [ | exact Hout ]. apply Hsame.
    apply idle_updates_hits. repeat constructor.
Defined.

(** C9 as stated fails when a hand registers a hit: in the reachable
    state left by the first call, with the lime on screen, the call
    [update(0, strike)] slices the lime, taking [score] from 0 to 10 and
    [combo] from 0 to 1. *)
Lemma still_frame_scores :
  let s := Sample.after_first in
  let r := update Sample.half 0 0 Sample.strike s in
  reachable Sample.half s ∧ score s = 0%Z ∧ combo s = 0%Z ∧
  score r.1 = 10%Z ∧ combo r.1 = 1%Z ∧
  score r.1 ≠ score s ∧ combo r.1 ≠ combo s.
Proof.
  intros s r. destruct sliced_fields as (_ & Hc & Hs & _).
  fold s r in Hc, Hs. rewrite Hc, Hs.
  split; [ apply after_first_reachable | ]. by repeat split.
Qed.

End Still.

(** * Further properties *)

(** ** What [checkCollision] decides *)

Section Geometry.
Import CollisionSystem.

(** The quadratic of the swept test measures the squared distance to the
    circle along the segment. *)
Lemma quad_is_distance (x1 y1 x2 y2 cx cy r u : R) :
  (x1 + u * (x2 - x1) - cx) * (x1 + u * (x2 - x1) - cx) +
  (y1 + u * (y2 - y1) - cy) * (y1 + u * (y2 - y1) - cy) - r * r =
  quad_a x1 y1 x2 y2 * (u * u) + quad_b x1 y1 x2 y2 cx cy * u + quad_c x1 y1 cx cy r.
Proof. unfold quad_a, quad_b, quad_c. cbv zeta. ring. Qed.

(** A quadratic with [a > 0] that is [<= 0] at [u] in [[0, 1]] and
    [>= 0] at 1 has a root in [[0, 1]]. *)
Lemma root_between (a b c u : R) :
  0 < a → 0 <= u <= 1 →
  a * (u * u) + b * u + c <= 0 → 0 <= a + b + c →
  root_in_unit a b c.
Proof.
  intros Ha Hu Hneg Hpos.
  set (D := b * b - 4 * a * c).
  assert (HD : (2 * a * u + b) * (2 * a * u + b) <= D) by (unfold D; nra).
  assert (HD0 : 0 <= D).
  { pose proof (Rle_0_sqr (2 * a * u + b)) as Hsq. unfold Rsqr in Hsq. lra. }
  pose proof (sqrt_pos D) as Hs0.
  pose proof (sqrt_sqrt D HD0) as Hss.
  set (s := sqrt D) in *.
  assert (Hu1 : 2 * a * u + b <= s) by nra.
  assert (Hu2 : - s <= 2 * a * u + b) by nra.
  assert (H1 : s * s <= (2 * a + b) * (2 * a + b)) by (unfold D in Hss; nra).
  destruct (Rle_lt_dec s (2 * a + b)) as [Hhi | Hlo].
  - exists ((- b + s) / (2 * a)). split.
    + assert (E : 2 * a * ((- b + s) / (2 * a)) = - b + s) by (field; lra).
      split; nra.
    + apply formula_is_root; [ done | done | by left ].
  - assert (Hle : 2 * a + b <= - s) by nra.
    exists ((- b + - s) / (2 * a)). split.
    + assert (E : 2 * a * ((- b + - s) / (2 * a)) = - b + - s) by (field; lra).
      split; nra.
    + apply formula_is_root; [ done | done | by right ].
Qed.

(** A hand that is out of view or slower than [minSliceSpeed] collides
    with nothing. *)
Lemma guard_misses (hand : Hand.t) (obj : Obj.t) :
  Hand.visible hand = false ∨ Hand.speed hand < minSliceSpeed →
  checkCollision hand obj = false.
Proof.
  intros [Hv | Hs]; unfold checkCollision, checkCollision_step.
  - by rewrite Hv.
  - destruct (Hand.visible hand); [ | done ]. cbn. by rewrite decide_True.
Qed.

(** X1: for a visible hand of the data model that is fast enough, and an
    object of radius [>= 0], [checkCollision] answers whether the path of
    the hand over the last 1/60 s has a point within
    [handRadius + radius] of the centre of the object. *)
Theorem checkCollision_geometric (hand : Hand.t) (obj : Obj.t) :
  Hand.visible hand = true → minSliceSpeed <= Hand.speed hand →
  speed_is_norm hand → 0 <= Obj.radius obj →
  checkCollision hand obj = true ↔
  segment_meets_disc (Hand.x hand - Hand.vx hand * (1 / 60))
    (Hand.y hand - Hand.vy hand * (1 / 60)) (Hand.x hand) (Hand.y hand)
    (Obj.x obj) (Obj.y obj) (handRadius + Obj.radius obj).
Proof.
  intros Hv Hfast Hn Hr.
  pose proof (fast_hand_moves hand Hn Hfast) as Hmove.
  assert (Ha : 0 < quad_a (prevX hand) (prevY hand) (Hand.x hand) (Hand.y hand))
    by (rewrite swept_quad_a; lra).
  assert (Hcr : 0 <= combinedRadius obj) by (unfold combinedRadius, handRadius; lra).
  assert (Hd2 : 0 <= (Hand.x hand - Obj.x obj) * (Hand.x hand - Obj.x obj) +
                     (Hand.y hand - Obj.y obj) * (Hand.y hand - Obj.y obj)).
  { pose proof (Rle_0_sqr (Hand.x hand - Obj.x obj)) as H1.
    pose proof (Rle_0_sqr (Hand.y hand - Obj.y obj)) as H2.
    unfold Rsqr in H1, H2. lra. }
  assert (Hstatic : dist hand obj < combinedRadius obj ↔
            quad_a (prevX hand) (prevY hand) (Hand.x hand) (Hand.y hand) +
            quad_b (prevX hand) (prevY hand) (Hand.x hand) (Hand.y hand)
              (Obj.x obj) (Obj.y obj) +
            quad_c (prevX hand) (prevY hand) (Obj.x obj) (Obj.y obj)
              (combinedRadius obj) < 0).
  { unfold dist. cbv zeta. rewrite sqrt_lt_square by done.
    pose proof (quad_is_distance (prevX hand) (prevY hand) (Hand.x hand) (Hand.y hand)
                  (Obj.x obj) (Obj.y obj) (combinedRadius obj) 1) as Hq.
    split; intros H; nra. }
  change (Hand.x hand - Hand.vx hand * (1 / 60)) with (prevX hand).
  change (Hand.y hand - Hand.vy hand * (1 / 60)) with (prevY hand).
  change (handRadius + Obj.radius obj) with (combinedRadius obj).
  unfold checkCollision, checkCollision_step. rewrite Hv. cbn [negb].
  rewrite decide_False by lra.
  unfold segment_meets_disc.
  destruct (decide (dist hand obj < combinedRadius obj)) as [Hin | Hout].
  - split; [ intros _ | done ]. apply Hstatic in Hin.
    exists 1. split; [ lra | ].
    pose proof (quad_is_distance (prevX hand) (prevY hand) (Hand.x hand) (Hand.y hand)
                  (Obj.x obj) (Obj.y obj) (combinedRadius obj) 1) as Hq.
    nra.
  - rewrite lineCircle_root by done. split.
    + intros (u & Hu & Hroot). exists u. split; [ done | ].
      pose proof (quad_is_distance (prevX hand) (prevY hand) (Hand.x hand) (Hand.y hand)
                    (Obj.x obj) (Obj.y obj) (combinedRadius obj) u) as Hq.
      lra.
    + intros (u & Hu & Hle).
      pose proof (quad_is_distance (prevX hand) (prevY hand) (Hand.x hand) (Hand.y hand)
                    (Obj.x obj) (Obj.y obj) (combinedRadius obj) u) as Hq.
      apply (root_between _ _ _ u); [ done | done | lra | ].
      rewrite Hstatic in Hout. lra.
Qed.

End Geometry.

Section GeometryWitness.
Import CollisionSystem.

Lemma checkCollision_geometric_witness :
  checkCollision Sample.hand Sample.far_obj = true ↔
  segment_meets_disc (0 - 1 * (1 / 60)) (0 - 0 * (1 / 60)) 0 0 1 0 (handRadius + 0.03).
Proof.
  apply (checkCollision_geometric Sample.hand Sample.far_obj).
  - reflexivity.
  - unfold minSliceSpeed. cbn. lra.
  - apply sample_hand_norm.
  - cbn. lra.
Defined.

End GeometryWitness.

(** ** What [checkAll] returns *)

Section CheckAll.
Import CollisionSystem.

Lemma trySides_both (hands : Hands) (l : loc) (o : Obj.t) :
  trySides hands l o [SideLeft; SideRight] =
  if checkCollision (left_hand hands) o then Some (mkHit l (left_hand hands) SideLeft)
  else if checkCollision (right_hand hands) o
       then Some (mkHit l (right_hand hands) SideRight)
       else None.
Proof. reflexivity. Qed.

Lemma trySides_hit (hands : Hands) (l : loc) (o : Obj.t) (h : HitRecord) :
  trySides hands l o [SideLeft; SideRight] = Some h →
  object h = l ∧ side h = first_side hands o ∧
  hand h = hand_of hands (side h) ∧ checkCollision (hand h) o = true.
Proof.
  rewrite trySides_both. unfold first_side.
  destruct (checkCollision (left_hand hands) o) eqn:Hl.
  - by intros [= <-].
  - destruct (checkCollision (right_hand hands) o) eqn:Hr; [ | done ].
    by intros [= <-].
Qed.

Lemma trySides_some (hands : Hands) (l : loc) (o : Obj.t) :
  checkCollision (left_hand hands) o = true ∨
  checkCollision (right_hand hands) o = true →
  ∃ h, trySides hands l o [SideLeft; SideRight] = Some h.
Proof.
  rewrite trySides_both. intros [-> | Hr]; [ by eexists | ].
  destruct (checkCollision (left_hand hands) o); [ by eexists | ].
  rewrite Hr. by eexists.
Qed.

(** The loop of [checkAll]: the cache only gains stamps [now], and the
    records it appends are sound and for distinct ids. *)
Lemma checkObjects_spec (heap : list Obj.t) (now : R) (hands : Hands)
    (objs : list loc) :
  ∀ (rh : gmap Z R) (hits : list HitRecord),
    let r := checkObjects heap now hands objs rh hits in
    (∀ i, r.1 !! i = rh !! i ∨ rh !! i = None ∧ r.1 !! i = Some now) ∧
    ∃ new, r.2 = hits ++ new ∧
      (∀ i, r.1 !! i = rh !! i ∨ i ∈ map (hit_id heap) new) ∧
      Forall (λ h, ∃ o, object h ∈ objs ∧ heap !! object h = Some o ∧
                        Obj.fading o = false ∧ rh !! Obj.id o = None ∧
                        r.1 !! Obj.id o = Some now ∧
                        side h = first_side hands o ∧
                        hand h = hand_of hands (side h) ∧
                        checkCollision (hand h) o = true) new ∧
      NoDup (map (hit_id heap) new).
Proof.
  induction objs as [ | l rest IH ]; intros rh hits; cbn [checkObjects].
  - cbn. split; [ by left | ]. exists []. rewrite app_nil_r.
    split; [ done | ]. split; [ by left | ]. split; constructor.
  - assert (Hskip :
      let r := checkObjects heap now hands rest rh hits in
      (∀ i, r.1 !! i = rh !! i ∨ rh !! i = None ∧ r.1 !! i = Some now) ∧
      ∃ new, r.2 = hits ++ new ∧
        (∀ i, r.1 !! i = rh !! i ∨ i ∈ map (hit_id heap) new) ∧
        Forall (λ h, ∃ o, object h ∈ l :: rest ∧ heap !! object h = Some o ∧
                          Obj.fading o = false ∧ rh !! Obj.id o = None ∧
                          r.1 !! Obj.id o = Some now ∧
                          side h = first_side hands o ∧
                          hand h = hand_of hands (side h) ∧
                          checkCollision (hand h) o = true) new ∧
        NoDup (map (hit_id heap) new)).
    { destruct (IH rh hits) as (H1 & new & H2 & H2' & H3 & H4).
      split; [ exact H1 | ]. exists new. split; [ exact H2 | ].
      split; [ exact H2' | ]. split; [ | exact H4 ].
      eapply Forall_impl; [ exact H3 | ].
      intros h (o & Hin & Hrest). exists o. split; [ by apply elem_of_cons; right | done ]. }
    destruct (heap !! l) as [ obj | ] eqn:Hl; [ | exact Hskip ].
    destruct (Obj.fading obj) eqn:Hf; [ exact Hskip | ].
    case_decide as Hc; [ exact Hskip | ].
    destruct (trySides hands l obj [SideLeft; SideRight]) as [ h | ] eqn:Hs;
      [ | exact Hskip ].
    clear Hskip.
    assert (Hnone : rh !! Obj.id obj = None).
    { destruct (rh !! Obj.id obj) eqn:E; [ | done ]. exfalso. apply Hc. by eexists. }
    destruct (trySides_hit hands l obj h Hs) as (Hobj & Hside & Hhand & Hcol).
    destruct (IH (<[Obj.id obj := now]> rh) (hits ++ [h]))
      as (H1 & new & H2 & H2' & H3 & H4).
    cbv zeta in H1, H2, H2', H3. cbv zeta.
    set (r := checkObjects heap now hands rest (<[Obj.id obj := now]> rh) (hits ++ [h])) in *.
    assert (Hstamp : r.1 !! Obj.id obj = Some now).
    { destruct (H1 (Obj.id obj)) as [E | [E _]].
      - by rewrite E, lookup_insert_eq.
      - by rewrite lookup_insert_eq in E. }
    assert (Hid : hit_id heap h = Obj.id obj).
    { unfold hit_id. by rewrite Hobj, Hl. }
    split.
    + intros i. destruct (decide (i = Obj.id obj)) as [-> | Hne].
      * right. by split.
      * destruct (H1 i) as [E | [E1 E2]].
        -- left. by rewrite E, lookup_insert_ne.
        -- right. split; [ | done ]. by rewrite lookup_insert_ne in E1.
    + exists (h :: new). rewrite H2, <- app_assoc. split; [ done | ].
      split; [ | split ].
      * intros i. cbn [map]. destruct (decide (i = Obj.id obj)) as [-> | Hne].
        -- right. rewrite Hid. apply elem_of_cons. by left.
        -- destruct (H2' i) as [E | E].
           ++ left. by rewrite E, lookup_insert_ne.
           ++ right. apply elem_of_cons. by right.
      * constructor.
        -- exists obj. rewrite Hobj. split; [ apply elem_of_cons; by left | ].
           by repeat split.
        -- eapply Forall_impl; [ exact H3 | ].
           intros h' (o & Hin & Ho & Hfo & Hn & Hrest). exists o.
           split; [ by apply elem_of_cons; right | ]. split; [ done | ].
           split; [ done | ]. split; [ | done ].
           destruct (decide (Obj.id o = Obj.id obj)) as [E | Hne].
           ++ by rewrite E, lookup_insert_eq in Hn.
           ++ by rewrite lookup_insert_ne in Hn.
      * cbn [map]. constructor; [ | exact H4 ].
        rewrite Hid. intros Hin. apply list_elem_of_fmap in Hin as (h' & Hh' & Hin').
        rewrite Forall_forall in H3. destruct (H3 h' Hin') as (o & _ & Ho & _ & Hn & _).
        unfold hit_id in Hh'. rewrite Ho in Hh'.
        by rewrite <- Hh', lookup_insert_eq in Hn.
Qed.

Lemma prune_spec (now : R) (rh : gmap Z R) (i : Z) :
  prune now rh !! i =
  match rh !! i with
  | Some t => if decide (now - t > hitCooldown) then None else Some t
  | None => None
  end.
Proof.
  unfold prune. destruct (rh !! i) as [ t | ] eqn:E.
  - case_decide.
    + apply map_lookup_filter_None. right. intros t' E'. cbn. simplify_eq. tauto.
    + apply map_lookup_filter_Some. by split.
  - apply map_lookup_filter_None. by left.
Qed.

End CheckAll.

Section CheckAllProps.
Import CollisionSystem.

Lemma checkAll_unfold (heap : list Obj.t) (now : R) (hands : Hands)
    (objects : list loc) (cs : t) :
  recentHits (checkAll heap now hands objects cs).1 =
    (checkObjects heap now hands objects (prune now (recentHits cs)) []).1 ∧
  (checkAll heap now hands objects cs).2 =
    (checkObjects heap now hands objects (prune now (recentHits cs)) []).2.
Proof.
  unfold checkAll.
  by destruct (checkObjects heap now hands objects (prune now (recentHits cs)) []).
Qed.

Lemma prune_stale (now : R) (rh : gmap Z R) (i : Z) :
  prune now rh !! i = None ↔ ∀ t0, rh !! i = Some t0 → now - t0 > hitCooldown.
Proof.
  rewrite prune_spec. destruct (rh !! i) as [ t | ].
  - case_decide as Hd.
    + split; [ | done ]. by intros _ t0 [= <-].
    + split; [ done | ]. intros H. by specialize (H t eq_refl).
  - split; [ | done ]. by intros _ t0.
Qed.

(** X2: every hit that [checkAll] returns is for a listed object that is not
    fading, whose id had no entry younger than the cooldown, and that the
    recorded hand (the left one first) collides with; its id is stamped
    with the time of the call, and no two hits of a call share an id. *)
Theorem checkAll_hits_sound (heap : list Obj.t) (now : R) (hands : Hands)
    (objects : list loc) (cs : t) :
  Forall (sound_hit heap now hands objects (recentHits cs)
            (recentHits (checkAll heap now hands objects cs).1))
         (checkAll heap now hands objects cs).2 ∧
  NoDup (map (hit_id heap) (checkAll heap now hands objects cs).2).
Proof.
  destruct (checkAll_unfold heap now hands objects cs) as [-> ->].
  destruct (checkObjects_spec heap now hands objects (prune now (recentHits cs)) [])
    as (_ & new & Hnew & _ & Hall & Hnd).
  cbv zeta in Hnew, Hall. rewrite Hnew. cbn [app]. split; [ | exact Hnd ].
  eapply Forall_impl; [ exact Hall | ].
  intros h (o & Hin & Ho & Hf & Hn & Hrest). exists o.
  split; [ done | ]. split; [ done | ]. split; [ done | ].
  split; [ by apply prune_stale | done ].
Qed.

(** X3: the cache after [checkAll]: the ids hit are stamped with the time of
    the call, the other entries are the earlier ones that are not older
    than the cooldown; so no entry is older than the cooldown. *)
Theorem checkAll_cache (heap : list Obj.t) (now : R) (hands : Hands)
    (objects : list loc) (cs : t) (i : Z) :
  recentHits (checkAll heap now hands objects cs).1 !! i =
    (if decide (i ∈ map (hit_id heap) (checkAll heap now hands objects cs).2)
     then Some now
     else match recentHits cs !! i with
          | Some t0 => if decide (now - t0 > hitCooldown) then None else Some t0
          | None => None
          end) ∧
  ∀ t0, recentHits (checkAll heap now hands objects cs).1 !! i = Some t0 →
        now - t0 <= hitCooldown.
Proof.
  destruct (checkAll_unfold heap now hands objects cs) as [-> ->].
  destruct (checkObjects_spec heap now hands objects (prune now (recentHits cs)) [])
    as (Hold & new & Hnew & Hids & Hall & _).
  cbv zeta in Hold, Hnew, Hids, Hall. rewrite Hnew. cbn [app].
  set (r := checkObjects heap now hands objects (prune now (recentHits cs)) []) in *.
  split.
  - case_decide as Hin.
    + apply list_elem_of_fmap in Hin as (h & Hh & Hin).
      rewrite Forall_forall in Hall.
      destruct (Hall h Hin) as (o & _ & Ho & _ & _ & Hs & _).
      unfold hit_id in Hh. rewrite Ho in Hh. by subst i.
    + destruct (Hids i) as [E | E]; [ | done ]. by rewrite E, prune_spec.
  - intros t0 Ht0. destruct (Hold i) as [E | [_ E]].
    + rewrite E, prune_spec in Ht0. destruct (recentHits cs !! i) as [ t | ]; [ | done ].
      case_decide as Hd; [ done | ]. simplify_eq. apply Rnot_gt_le, Hd.
    + rewrite E in Ht0. simplify_eq. unfold hitCooldown. lra.
Qed.

Lemma checkObjects_grows (heap : list Obj.t) (now : R) (hands : Hands)
    (objs : list loc) (rh : gmap Z R) (hits : list HitRecord) (h : HitRecord) :
  h ∈ hits → h ∈ (checkObjects heap now hands objs rh hits).2.
Proof.
  intros Hin.
  destruct (checkObjects_spec heap now hands objs rh hits) as (_ & new & Hnew & _).
  cbv zeta in Hnew. rewrite Hnew. apply elem_of_app. by left.
Qed.

Lemma checkObjects_complete (heap : list Obj.t) (now : R) (hands : Hands)
    (l : loc) (o : Obj.t) :
  heap !! l = Some o → Obj.fading o = false →
  checkCollision (left_hand hands) o = true ∨
  checkCollision (right_hand hands) o = true →
  ∀ (objs : list loc) (rh : gmap Z R) (hits : list HitRecord),
    l ∈ objs → rh !! Obj.id o = None →
    (∀ l' o', l' ∈ objs → heap !! l' = Some o' → Obj.id o' = Obj.id o → l' = l) →
    mkHit l (hand_of hands (first_side hands o)) (first_side hands o)
      ∈ (checkObjects heap now hands objs rh hits).2.
Proof.
  intros Ho Hf Hcol. induction objs as [ | l0 rest IH ]; intros rh hits Hin Hn Huniq.
  - by apply elem_of_nil in Hin.
  - cbn [checkObjects].
    assert (Hrest : ∀ l' o', l' ∈ rest → heap !! l' = Some o' →
                             Obj.id o' = Obj.id o → l' = l).
    { intros l' o' Hl'. apply Huniq, elem_of_cons. by right. }
    destruct (decide (l0 = l)) as [-> | Hne].
    + rewrite Ho, Hf. rewrite decide_False by (rewrite Hn; by intros [? ?]).
      destruct (trySides_some hands l o Hcol) as [h Hs]. rewrite Hs.
      destruct (trySides_hit hands l o h Hs) as (Hobj & Hside & Hhand & _).
      apply checkObjects_grows, elem_of_app. right. apply list_elem_of_singleton.
      destruct h as [ho hh hs]. cbn in Hobj, Hside, Hhand. by subst.
    + apply elem_of_cons in Hin as [-> | Hin]; [ done | ].
      destruct (heap !! l0) as [ o0 | ] eqn:Hl0; [ | by apply IH ].
      destruct (Obj.fading o0); [ by apply IH | ].
      case_decide; [ by apply IH | ].
      destruct (trySides hands l0 o0 [SideLeft; SideRight]); [ | by apply IH ].
      apply IH; [ done | | done ].
      rewrite lookup_insert_ne; [ done | ].
      intros E. apply Hne. eapply Huniq; [ apply elem_of_cons; by left | exact Hl0 | exact E ].
Qed.

(** X4: a listed object that is not fading, whose id has no entry or an entry
    older than the cooldown, and that a hand collides with is hit by this
    call, with the left hand when it collides; the ids of the listed
    objects are taken to be distinct. *)
Theorem checkAll_hits_complete (heap : list Obj.t) (now : R) (hands : Hands)
    (objects : list loc) (cs : t) (l : loc) (o : Obj.t) :
  l ∈ objects → heap !! l = Some o → Obj.fading o = false →
  (∀ t0, recentHits cs !! Obj.id o = Some t0 → now - t0 > hitCooldown) →
  (∀ l' o', l' ∈ objects → heap !! l' = Some o' → Obj.id o' = Obj.id o → l' = l) →
  checkCollision (left_hand hands) o = true ∨
  checkCollision (right_hand hands) o = true →
  mkHit l (hand_of hands (first_side hands o)) (first_side hands o)
    ∈ (checkAll heap now hands objects cs).2.
Proof.
  intros Hin Ho Hf Hstale Huniq Hcol.
  destruct (checkAll_unfold heap now hands objects cs) as [_ ->].
  apply checkObjects_complete; try done. by apply prune_stale.
Qed.


Lemma checkAll_hits_complete_witness :
  mkHit 0 Sample.striking SideLeft
    ∈ (checkAll [Sample.lime] 0 Sample.strike [0%nat] new).2.
Proof.
  assert (Hc : checkCollision (left_hand Sample.strike) Sample.lime = true)
    by exact strike_collides.
  assert (Hs : first_side Sample.strike Sample.lime = SideLeft).
  { unfold first_side. by rewrite Hc. }
  pose proof (checkAll_hits_complete [Sample.lime] 0 Sample.strike [0%nat] new
                0%nat Sample.lime) as H.
  rewrite Hs in H. apply H.
  - apply elem_of_cons. by left.
  - reflexivity.
  - reflexivity.
  - intros t0 Ht0. unfold new in Ht0. cbn [recentHits] in Ht0.
    by rewrite lookup_empty in Ht0.
  - intros l' o' Hl' _ _. by apply list_elem_of_singleton in Hl'.
  - left. exact Hc.
Defined.


End CheckAllProps.

(** ** The live set and the store *)

Section LiveSet.
Import GameEngine.

Lemma keeps_refl (o : Obj.t) : keeps o o.
Proof. by repeat split. Qed.

Lemma keeps_trans (o1 o2 o3 : Obj.t) : keeps o1 o2 → keeps o2 o3 → keeps o1 o3.
Proof.
  intros ((? & ? & ? & ? & ? & ?) & ? & ? & ? & ?) ((? & ? & ? & ? & ? & ?) & ? & ? & ? & ?).
  repeat split; congruence.
Qed.

Lemma obj_ok_keeps (o o' : Obj.t) : keeps o o' → obj_ok o → obj_ok o'.
Proof.
  intros ((Hid & Hty & Hb & Hh & Hr & Hg) & Ha & Hm & Hsc & Hhs) [H1 H2 H3 H4 H5 H6 H7 H8].
  constructor; rewrite ?Hty, ?Hb, ?Hh, ?Hr, ?Hg, ?Hm, ?Hsc, ?Hhs; done.
Qed.

Lemma keeps_store_refl (h : list Obj.t) : Forall2 keeps h h.
Proof. apply Forall2_same_length_lookup. split; [ done | ]. intros i x y ? ?. simplify_eq. apply keeps_refl. Qed.

Lemma keeps_store_trans (h1 h2 h3 : list Obj.t) :
  Forall2 keeps h1 h2 → Forall2 keeps h2 h3 → Forall2 keeps h1 h3.
Proof.
  intros [L1 H1]%Forall2_same_length_lookup [L2 H2]%Forall2_same_length_lookup.
  apply Forall2_same_length_lookup. split; [ congruence | ].
  intros i x z Hx Hz.
  destruct (h2 !! i) as [ y | ] eqn:Hy.
  - eapply keeps_trans; [ by eapply H1 | by eapply H2 ].
  - apply lookup_ge_None in Hy. apply lookup_lt_Some in Hx. lia.
Qed.

Lemma keeps_alter (f : Obj.t → Obj.t) (l : loc) (h : list Obj.t) :
  (∀ o, keeps o (f o)) → Forall2 keeps h (alter f l h).
Proof.
  intros Hf. apply Forall2_same_length_lookup. split; [ by rewrite length_alter | ].
  intros i x y Hx Hy. destruct (decide (i = l)) as [-> | Hne].
  - rewrite list_lookup_alter_eq, Hx in Hy. cbn in Hy. simplify_eq. apply Hf.
  - rewrite list_lookup_alter_ne in Hy by done. simplify_eq. apply keeps_refl.
Qed.

Lemma keeps_insert (h : list Obj.t) (l : loc) (o o' : Obj.t) :
  h !! l = Some o → keeps o o' → Forall2 keeps h (<[l := o']> h).
Proof.
  intros Hl Hk. apply Forall2_same_length_lookup. split; [ by rewrite length_insert | ].
  intros i x y Hx Hy. destruct (decide (i = l)) as [-> | Hne].
  - rewrite list_lookup_insert_eq in Hy by (by eapply lookup_lt_Some). by simplify_eq.
  - rewrite list_lookup_insert_ne in Hy by done. simplify_eq. apply keeps_refl.
Qed.

Lemma mark_fading_keeps (ft : R) (o : Obj.t) : keeps o (mark_fading ft o).
Proof. by repeat split. Qed.

Lemma set_x_keeps (v : R) (o : Obj.t) : keeps o (Obj.set_x v o).
Proof. by repeat split. Qed.

Lemma integrate_keeps (dt : R) (o : Obj.t) : keeps o (integrate dt o).
Proof. by repeat split. Qed.

Lemma set_fadeTimer_keeps (v : R) (o : Obj.t) : keeps o (Obj.set_fadeTimer v o).
Proof. by repeat split. Qed.

(** A step that updates objects in place. *)
Lemma Live_inplace (s s' : t) :
  Forall2 keeps (heap s) (heap s') → objects s' = objects s → nextId s' = nextId s →
  Live s → Live s'.
Proof.
  intros HF Ho Hn [H1 H2 H3 H4 H5].
  assert (Hfw : ∀ l o, heap s !! l = Some o → ∃ o', heap s' !! l = Some o' ∧ keeps o o').
  { intros l o Hl. by eapply Forall2_lookup_l in HF. }
  assert (Hbw : ∀ l o', heap s' !! l = Some o' → ∃ o, heap s !! l = Some o ∧ keeps o o').
  { intros l o' Hl. by eapply Forall2_lookup_r in HF. }
  constructor; rewrite ?Ho, ?Hn.
  - done.
  - intros l Hl. destruct (H2 l Hl) as (o & Hol & Ha & Hi).
    destruct (Hfw l o Hol) as (o' & Ho' & (Hid & _) & Hact & _).
    exists o'. by rewrite Hact, Hid.
  - intros l l' o o' Hl Hl' Hol Hol' Hid.
    destruct (Hbw l o Hol) as (o0 & E0 & (I0 & _) & _).
    destruct (Hbw l' o' Hol') as (o0' & E0' & (I0' & _) & _).
    eapply H3; [ exact Hl | exact Hl' | exact E0 | exact E0' | congruence ].
  - apply Forall_lookup. intros i o' Hi.
    destruct (Hbw i o' Hi) as (o & E & Hk).
    eapply obj_ok_keeps; [ exact Hk | ]. by eapply Forall_lookup in H4.
  - done.
Qed.

(** A step that creates an object with the next id and lists it. *)
Lemma Live_alloc (s s' : t) (o : Obj.t) :
  heap s' = heap s ++ [o] → objects s' = objects s ++ [length (heap s)] →
  nextId s' = (nextId s + 1)%Z → Obj.id o = (nextId s + 1)%Z →
  Obj.active o = true → obj_ok o → Live s → Live s'.
Proof.
  intros Hh Ho Hn Hid Ha Hok [H1 H2 H3 H4 H5].
  assert (Hlt : ∀ l, l ∈ objects s → (l < length (heap s))%nat).
  { intros l Hl. destruct (H2 l Hl) as (? & E & _). by eapply lookup_lt_Some. }
  assert (Hnew : (heap s ++ [o]) !! length (heap s) = Some o).
  { rewrite lookup_app_r by lia. by rewrite Nat.sub_diag. }
  constructor; rewrite ?Hh, ?Ho, ?Hn.
  - apply NoDup_app. split; [ done | ]. split; [ | apply NoDup_singleton ].
    intros l Hl ->%list_elem_of_singleton. specialize (Hlt _ Hl). lia.
  - intros l [Hl | ->%list_elem_of_singleton]%elem_of_app.
    + destruct (H2 l Hl) as (o0 & E & A & I). exists o0.
      rewrite lookup_app_l by (by apply Hlt). split; [ done | ]. split; [ done | lia ].
    + exists o. split; [ done | ]. split; [ done | lia ].
  - intros l l' o1 o2 [Hl | ->%list_elem_of_singleton]%elem_of_app
      [Hl' | ->%list_elem_of_singleton]%elem_of_app E1 E2 Hi.
    + rewrite lookup_app_l in E1 by (by apply Hlt).
      rewrite lookup_app_l in E2 by (by apply Hlt). by eapply H3.
    + rewrite lookup_app_l in E1 by (by apply Hlt). rewrite Hnew in E2.
      destruct (H2 l Hl) as (o0 & E & _ & I). simplify_eq. lia.
    + rewrite lookup_app_l in E2 by (by apply Hlt). rewrite Hnew in E1.
      destruct (H2 l' Hl') as (o0 & E & _ & I). simplify_eq. lia.
    + done.
  - apply Forall_app. split; [ done | ]. by constructor.
  - lia.
Qed.

Lemma remove_first_subset (l : loc) (a : list loc) (x : loc) :
  x ∈ remove_first l a → x ∈ a.
Proof.
  induction a as [ | l' rest IH ]; cbn; [ done | ].
  case_decide.
  - intros Hx. apply elem_of_cons. by right.
  - intros [-> | Hx]%elem_of_cons; apply elem_of_cons; [ by left | right; by apply IH ].
Qed.

Lemma remove_first_NoDup (l : loc) (a : list loc) :
  NoDup a → NoDup (remove_first l a) ∧ l ∉ remove_first l a.
Proof.
  induction 1 as [ | l' rest Hnin Hnd IH ]; cbn.
  - split; [ constructor | apply not_elem_of_nil ].
  - case_decide as Hl.
    + subst l'. done.
    + destruct IH as [IH1 IH2]. split.
      * constructor; [ | done ]. intros Hin. by apply Hnin, (remove_first_subset l).
      * intros [-> | Hin]%elem_of_cons; [ done | by apply IH2 ].
Qed.

Lemma remove_first_other (l : loc) (a : list loc) (x : loc) :
  x ∈ a → x ≠ l → x ∈ remove_first l a.
Proof.
  induction a as [ | l' rest IH ]; cbn; [ done | ].
  intros [-> | Hx]%elem_of_cons Hne.
  - rewrite decide_False by done. apply elem_of_cons. by left.
  - case_decide; [ done | ]. apply elem_of_cons. right. by apply IH.
Qed.

Lemma obj_ok_set_active (b : bool) (o : Obj.t) : obj_ok o → obj_ok (Obj.set_active b o).
Proof. intros [H1 H2 H3 H4 H5 H6 H7 H8]. by constructor. Qed.

(** A round of the cleanup loop. *)
Lemma Live_cleanupObj (s : t) (fi : FrameInfo) (l : loc) :
  Live s → Live (cleanupObj (s, fi) l).1.
Proof.
  intros [H1 H2 H3 H4 H5]. unfold cleanupObj, modify. cbn.
  destruct (remove_first_NoDup l (objects s) H1) as [Hnd Hnin].
  assert (Hne : ∀ x, x ∈ remove_first l (objects s) → x ≠ l ∧ x ∈ objects s).
  { intros x Hx. split; [ by intros -> | by eapply remove_first_subset ]. }
  constructor; cbn.
  - exact Hnd.
  - intros x Hx. destruct (Hne x Hx) as [Hxl Hin].
    destruct (H2 x Hin) as (o & E & A & I). exists o.
    by rewrite list_lookup_alter_ne.
  - intros x x' o o' Hx Hx' E E' Hi.
    destruct (Hne x Hx) as [Hxl Hin]. destruct (Hne x' Hx') as [Hxl' Hin'].
    rewrite list_lookup_alter_ne in E by done.
    rewrite list_lookup_alter_ne in E' by done. by eapply H3.
  - apply Forall_lookup. intros i o' Hi. destruct (decide (i = l)) as [-> | Hil].
    + rewrite list_lookup_alter_eq in Hi.
      destruct (heap s !! l) as [ o | ] eqn:E; [ | done ]. cbn in Hi. simplify_eq.
      apply obj_ok_set_active. by eapply Forall_lookup in H4.
    + rewrite list_lookup_alter_ne in Hi by done. by eapply Forall_lookup in H4.
  - done.
Qed.

End LiveSet.

(** ** What the steps of [update] keep *)

Section Tail.
Import GameEngine.

Lemma tail_refl (s : t) : tail_step s s.
Proof. by constructor. Qed.

Lemma tail_trans (s1 s2 s3 : t) : tail_step s1 s2 → tail_step s2 s3 → tail_step s1 s3.
Proof.
  intros [A1 A2 Ae A3 A4 A5 A6] [B1 B2 Be B3 B4 B5 B6].
  constructor; try congruence; try lia; auto.
  intros HL HT. destruct (A6 HL HT) as [T2 S2]. destruct (B6 (A5 HL) T2) as [T3 S3].
  split; [ done | lia ].
Qed.

Lemma tally_fields (s s' : t) :
  tally s' = tally s →
  score s' = score s ∧ combo s' = combo s ∧ bestCombo s' = bestCombo s ∧
  spawnInterval s' = spawnInterval s ∧ bombChance s' = bombChance s ∧
  elapsed s' = elapsed s ∧ nextId s' = nextId s ∧ objects s' = objects s.
Proof. unfold tally. intros [= -> -> -> -> -> -> -> ->]. by repeat split. Qed.

Lemma tail_inplace (s s' : t) :
  tally s' = tally s → Forall2 keeps (heap s) (heap s') → tail_step s s'.
Proof.
  intros (Hs & Hc & Hb & Hi & Hbc & He & Hn & Ho)%tally_fields HF.
  constructor; rewrite ?Hi, ?Hbc, ?Hb, ?Hn; try done.
  - by apply Live_inplace.
  - intros _ [T1 T2]. split; [ constructor; by rewrite ?Hs, ?Hc, ?Hb | lia ].
Qed.

Lemma tail_alloc (s s' : t) (o : Obj.t) :
  score s' = score s → combo s' = combo s → bestCombo s' = bestCombo s →
  spawnInterval s' = spawnInterval s → bombChance s' = bombChance s →
  elapsed s' = elapsed s →
  heap s' = heap s ++ [o] → objects s' = objects s ++ [length (heap s)] →
  nextId s' = (nextId s + 1)%Z → Obj.id o = (nextId s + 1)%Z →
  Obj.active o = true → (Live s → obj_ok o) → tail_step s s'.
Proof.
  intros Hs Hc Hb Hi Hbc He Hh Ho Hn Hid Ha Hok.
  constructor; rewrite ?Hi, ?Hbc, ?Hb, ?Hn; try done; try lia.
  - intros HL. eapply Live_alloc; eauto.
  - intros _ [T1 T2]. split; [ constructor; by rewrite ?Hs, ?Hc, ?Hb | lia ].
Qed.

Lemma fruitType_defined (r : R) :
  0 <= r < 1 →
  ∃ ty, fruitType (Zfloor (r * INR (length FRUIT_TYPES))) = Some ty ∧ ty ∈ FRUIT_TYPES.
Proof.
  intros [H0 H1].
  assert (H6 : INR (length FRUIT_TYPES) = 6) by (cbn; lra).
  rewrite H6. pose proof (Zfloor_bound (r * 6)) as [Hlo Hhi].
  set (k := Zfloor (r * 6)) in *.
  assert (Hk0 : IZR (-1) < IZR k) by lra. apply lt_IZR in Hk0.
  assert (Hk6 : IZR k < IZR 6) by lra. apply lt_IZR in Hk6.
  assert (Hk : (k = 0 ∨ k = 1 ∨ k = 2 ∨ k = 3 ∨ k = 4 ∨ k = 5)%Z) by lia.
  unfold FRUIT_TYPES.
  destruct Hk as [-> | [-> | [-> | [-> | [-> | ->]]]]];
    (eexists; split; [ reflexivity | ]); rewrite !elem_of_cons; auto 10.
Qed.

(** The object that [_spawnObject] creates. *)
Lemma spawnObject_born (rnd : nat → R) (s : t) :
  unit_stream rnd →
  ∃ o, heap (_spawnObject rnd s).1 = heap s ++ [o] ∧
       (_spawnObject rnd s).2 = length (heap s) ∧
       objects (_spawnObject rnd s).1 = objects s ++ [length (heap s)] ∧
       nextId (_spawnObject rnd s).1 = (nextId s + 1)%Z ∧
       Obj.id o = (nextId s + 1)%Z ∧ obj_ok o ∧
       (Obj.active o = true ∧ Obj.fading o = false ∧ Obj.fadeTimer o = 0 ∧
        Obj.generation o = 0%Z ∧ Obj.rotation o = 0) ∧
       (Obj.y o = - 0.08 ∧ 0.08 <= Obj.x o < 0.92 ∧
        - 0.06 <= Obj.vx o < 0.06 ∧ 0.08 <= Obj.vy o < 0.18) ∧
       Obj.isBomb o = bool_decide (rnd (randCount s) < bombChance s) ∧
       Obj.isHeart o =
         negb (Obj.isBomb o) &&
         bool_decide (rnd (randCount s) < bombChance s + heartChance) ∧
       Obj.radius o =
         (if Obj.isBomb o then 0.035
          else if Obj.isHeart o then 0.03
          else 0.028 + rnd (S (S (S (S (S (randCount s)))))) * 0.014).
Proof.
  intros Hu.
  unfold _spawnObject, random, generateId, alloc, push_object.
  cbn -[fruitType INR Zfloor FRUIT_TYPES].
  destruct (bool_decide (rnd (randCount s) < bombChance s)) eqn:Hb;
    [ | destruct (bool_decide (rnd (randCount s) < bombChance s + heartChance)) eqn:Hh ];
    cbn -[fruitType INR Zfloor FRUIT_TYPES].
  - pose proof (Hu (S (randCount s))). pose proof (Hu (S (S (randCount s)))).
    pose proof (Hu (S (S (S (randCount s))))).
    eexists. do 5 (split; [ reflexivity | ]). cbn.
    split; [ | repeat split; try done; lra ].
    constructor; cbn; first [ done | lia | lra | by eexists | by intros [? | ?] ].
  - pose proof (Hu (S (randCount s))). pose proof (Hu (S (S (randCount s)))).
    pose proof (Hu (S (S (S (randCount s))))).
    eexists. do 5 (split; [ reflexivity | ]). cbn.
    split; [ | repeat split; try done; lra ].
    constructor; cbn; first [ done | lia | lra | by eexists | by intros [? | ?] ].
  - pose proof (Hu (S (S (randCount s)))). pose proof (Hu (S (S (S (randCount s))))).
    pose proof (Hu (S (S (S (S (randCount s)))))).
    pose proof (Hu (S (S (S (S (S (randCount s))))))).
    destruct (fruitType_defined (rnd (S (randCount s))) (Hu _)) as (ty & Hty & Hin).
    rewrite Hty.
    eexists. do 5 (split; [ reflexivity | ]). cbn.
    split; [ | repeat split; try done; lra ].
    constructor; cbn; first [ done | lia | lra | by eexists | by intros [? | ?] ].
Qed.

End Tail.

Section TailSteps.
Import GameEngine.

Lemma spawnObject_tail (rnd : nat → R) (s : t) :
  unit_stream rnd → tail_step s (_spawnObject rnd s).1.
Proof.
  intros Hu.
  destruct (spawnObject_born rnd s Hu) as (o & Hh & _ & Ho & Hn & Hid & Hok & (Ha & _) & _).
  pose proof (spawnObject_scalars rnd s)
    as (Hs & Hc & Hb & _ & _ & _ & He & _ & Hi & _ & Hbc)%scalars_fields.
  by eapply tail_alloc.
Qed.

Lemma spawnLoop_tail (rnd : nat → R) (count : Z) (n : nat) :
  unit_stream rnd →
  ∀ (i : Z) (s : t) (acc : list loc), tail_step s (spawnLoop rnd count n i s acc).1.
Proof.
  intros Hu. induction n as [ | n IH ]; intros i s acc; cbn [spawnLoop].
  - apply tail_refl.
  - pose proof (spawnObject_tail rnd s Hu) as H1.
    destruct (_spawnObject rnd s) as [s1 l]. cbn [fst] in H1.
    unfold random. cbn zeta.
    eapply tail_trans; [ exact H1 | ].
    eapply tail_trans; [ | apply IH ].
    apply tail_inplace; [ reflexivity | ]. cbn. apply keeps_alter, set_x_keeps.
Qed.

Lemma spawnStep_tail (rnd : nat → R) (dt : R) (s : t) :
  unit_stream rnd → tail_step s (spawnStep rnd dt s).1.
Proof.
  intros Hu. destruct (Rlt_dec (spawnTimer s + dt) (spawnInterval s)) as [Hlt | Hge].
  - rewrite spawnStep_idle by exact Hlt. cbn [fst].
    apply tail_inplace; [ reflexivity | apply keeps_store_refl ].
  - rewrite spawnStep_fires by lra. cbn zeta.
    eapply tail_trans; [ | by apply spawnLoop_tail ].
    apply tail_inplace; [ reflexivity | apply keeps_store_refl ].
Qed.

Lemma Tally_fields (s s' : t) :
  score s' = score s → combo s' = combo s → bestCombo s' = bestCombo s →
  Tally s → Tally s'.
Proof. intros Hs Hc Hb [T1 T2]. constructor; by rewrite ?Hs, ?Hc, ?Hb. Qed.

Lemma comboDecay_tail (dt : R) (s : t) : tail_step s (comboDecay dt s).
Proof.
  unfold comboDecay. case_decide; [ | apply tail_refl ].
  cbn. case_decide.
  - constructor; cbn; try done.
    + apply Live_inplace; [ apply keeps_store_refl | done | done ].
    + intros _ [T1 T2]. split; [ constructor; cbn; [ done | lia ] | lia ].
  - apply tail_inplace; [ reflexivity | apply keeps_store_refl ].
Qed.

Lemma physicsObj_keeps (dt : R) (h : list Obj.t) (tr : list loc) (l : loc) :
  Forall2 keeps h (physicsObj dt (h, tr) l).1.
Proof.
  unfold physicsObj. destruct (h !! l) as [ o | ] eqn:Hl; [ | apply keeps_store_refl ].
  destruct (Obj.active o); cbn [negb]; [ | apply keeps_store_refl ].
  destruct (Obj.fading o) eqn:Hf; cbn [fst].
  - eapply keeps_insert; [ exact Hl | ]. by repeat split.
  - eapply keeps_insert; [ exact Hl | ]. by repeat split.
Qed.

Lemma physics_fold_keeps (dt : R) (objs : list loc) :
  ∀ (h : list Obj.t) (tr : list loc),
    Forall2 keeps h (fold_left (physicsObj dt) objs (h, tr)).1.
Proof.
  induction objs as [ | l rest IH ]; intros h tr; cbn [fold_left].
  - apply keeps_store_refl.
  - pose proof (physicsObj_keeps dt h tr l) as H1.
    destruct (physicsObj dt (h, tr) l) as [h1 tr1].
    eapply keeps_store_trans; [ exact H1 | apply IH ].
Qed.

Lemma physics_tail (dt : R) (s : t) : tail_step s (physics dt s).1.
Proof.
  unfold physics.
  pose proof (physics_fold_keeps dt (objects s) (heap s) []) as H.
  destruct (fold_left _ _ _) as [h tr]. cbn [fst] in *.
  by apply tail_inplace.
Qed.

Lemma collide_tail (now : R) (hands : Hands) (s : t) :
  tail_step s (collide now hands s).1.
Proof.
  unfold collide. destruct (CollisionSystem.checkAll _ _ _ _ _) as [cs hs]. cbn [fst].
  apply tail_inplace; [ reflexivity | apply keeps_store_refl ].
Qed.

Lemma clearOther_keeps (l : loc) (h : list Obj.t) (other : loc) :
  Forall2 keeps h (clearOther l h other).
Proof.
  unfold clearOther. destruct (h !! other) as [ o | ] eqn:Ho; [ | apply keeps_store_refl ].
  destruct (bool_decide (other ≠ l) && Obj.active o && negb (Obj.fading o));
    [ | apply keeps_store_refl ].
  eapply keeps_insert; [ exact Ho | apply mark_fading_keeps ].
Qed.

Lemma clear_fold_keeps (l : loc) (objs : list loc) :
  ∀ h, Forall2 keeps h (fold_left (clearOther l) objs h).
Proof.
  induction objs as [ | other rest IH ]; intros h; cbn [fold_left].
  - apply keeps_store_refl.
  - eapply keeps_store_trans; [ apply clearOther_keeps | apply IH ].
Qed.

Lemma resolveBomb_tail (l : loc) (s : t) : tail_step s (resolveBomb l s).
Proof.
  apply tail_inplace; [ reflexivity | ]. unfold resolveBomb. cbn.
  eapply keeps_store_trans; [ | apply clear_fold_keeps ].
  apply keeps_alter, mark_fading_keeps.
Qed.

Lemma resolveHeart_tail (l : loc) (s : t) : tail_step s (resolveHeart l s).
Proof.
  apply tail_inplace; [ reflexivity | ]. unfold resolveHeart. cbn.
  apply keeps_alter, mark_fading_keeps.
Qed.

Lemma splitPiece_tail (rnd : nat → R) (obj : Obj.t) (hand : Hand.t)
    (perpX perpY spreadSpeed : R) (s : t) (pieces : list loc) (i : Z) (l : loc) :
  heap s !! l = Some obj →
  (Obj.generation obj < 2)%Z → Obj.isBomb obj = false → Obj.isHeart obj = false →
  (i = 0 ∨ i = 1)%Z →
  tail_step s
    (splitPiece rnd obj hand (Obj.generation obj + 1)%Z (Obj.radius obj * 0.7)
       perpX perpY spreadSpeed (s, pieces) i).1.
Proof.
  intros Hl Hg Hb Hh Hi.
  unfold splitPiece, generateId, random, alloc, push_object. cbn.
  eapply tail_alloc; try reflexivity.
  intros HL. pose proof (live_store s HL) as HF.
  eapply Forall_lookup in HF; [ | exact Hl ].
  destruct HF as [G1 G2 G3 G4 G5 G6 G7 G8].
  rewrite Hb, Hh in G5.
  constructor; cbn;
    first [ done | lia | lra | by intros [? | ?] | (split; [ done | lia ]) ].
Qed.

Lemma splitFruit_tail (rnd : nat → R) (s : t) (l : loc) (hand : Hand.t) (obj : Obj.t) :
  heap s !! l = Some obj → Obj.isBomb obj = false → Obj.isHeart obj = false →
  tail_step s (_splitFruit rnd s l hand).1.
Proof.
  intros Hl Hb Hh. unfold _splitFruit. rewrite Hl.
  case_decide as Hg.
  - cbn [fst]. apply tail_inplace; [ reflexivity | ]. cbn.
    apply keeps_alter. intros o. by repeat split.
  - assert (Htwo : ∀ px py sp,
      tail_step s
        (fold_left
           (splitPiece rnd obj hand (Obj.generation obj + 1)%Z (Obj.radius obj * 0.7)
              px py sp) [0%Z; 1%Z] (s, [])).1).
    { intros px py sp. cbn [fold_left].
      pose proof (splitPiece_tail rnd obj hand px py sp s [] 0%Z l Hl) as H1.
      pose proof (splitPiece_spec rnd obj hand (Obj.generation obj + 1)%Z
                    (Obj.radius obj * 0.7) px py sp s [] 0%Z) as (p & Hh1 & _).
      destruct (splitPiece _ _ _ _ _ _ _ _ (s, []) 0%Z) as [s1 ps1].
      cbn [fst snd] in *.
      eapply tail_trans; [ apply H1; try done; [ lia | by left ] | ].
      apply (splitPiece_tail rnd obj hand px py sp s1 ps1 1%Z l); try done;
        [ | lia | by right ].
      rewrite Hh1. apply lookup_app_l_Some. exact Hl. }
    destruct (decide (_ > 0.01)); apply Htwo.
Qed.

Lemma points_pos (g c : Z) : (0 <= g)%Z → (0 < points g c)%Z ∧ (10 | points g c)%Z.
Proof.
  intros Hg. unfold points. split; [ nia | ].
  exists ((g + 1) * Z.max 1 c)%Z. lia.
Qed.

Lemma resolveFruit_tail (rnd : nat → R) (hit : CollisionSystem.HitRecord)
    (obj : Obj.t) (s : t) :
  heap s !! CollisionSystem.object hit = Some obj →
  Obj.isBomb obj = false → Obj.isHeart obj = false →
  tail_step s (resolveFruit rnd hit obj s).1.
Proof.
  intros Hl Hb Hh. unfold resolveFruit.
  pose proof (splitFruit_tail rnd s (CollisionSystem.object hit)
                (CollisionSystem.hand hit) obj Hl Hb Hh) as H1.
  destruct (_splitFruit _ _ _ _) as [s1 pieces]. cbn [fst] in H1.
  assert (H2 : tail_step s (modify (CollisionSystem.object hit) (mark_fading 0) s1)).
  { eapply tail_trans; [ exact H1 | ].
    apply tail_inplace; [ reflexivity | ]. cbn. apply keeps_alter, mark_fading_keeps. }
  set (s2 := modify _ _ s1) in *.
  destruct H2 as [A1 A2 Ae A3 A4 A5 A6].
  assert (Hlive : ∀ s', heap s' = heap s2 → objects s' = objects s2 →
                        nextId s' = nextId s2 → Live s → Live s').
  { intros s' E1 E2 E3 HL. apply (Live_inplace s2); try done.
    - rewrite E1. apply keeps_store_refl.
    - by apply A5. }
  assert (Hok : Live s → (0 <= Obj.generation obj)%Z).
  { intros HL. pose proof (live_store s HL) as HF.
    eapply Forall_lookup in HF; [ | exact Hl ]. by destruct HF as [[? ?] _]. }
  clearbody s2. cbn zeta.
  set (s3 := (if decide (combo (set_comboTimer comboWindow (set_combo (combo s2 + 1)%Z s2)) >
                          bestCombo (set_comboTimer comboWindow (set_combo (combo s2 + 1)%Z s2)))%Z
              then _ else _)).
  assert (F : heap s3 = heap s2 ∧ objects s3 = objects s2 ∧ nextId s3 = nextId s2 ∧
              spawnInterval s3 = spawnInterval s2 ∧ bombChance s3 = bombChance s2 ∧
              elapsed s3 = elapsed s2 ∧ combo s3 = (combo s2 + 1)%Z ∧
              score s3 = score s2 ∧
              bestCombo s3 = Z.max (bestCombo s2) (combo s2 + 1)).
  { subst s3. case_decide as Hbest; cbn in Hbest |- *; repeat split; lia. }
  destruct F as (F1 & F2 & F3 & F4 & F5 & F6 & F7 & F8 & F9).
  cbn [fst].
  assert (G : ∀ v, heap (set_score v s3) = heap s3 ∧ objects (set_score v s3) = objects s3 ∧
                   nextId (set_score v s3) = nextId s3 ∧
                   spawnInterval (set_score v s3) = spawnInterval s3 ∧
                   bombChance (set_score v s3) = bombChance s3 ∧
                   elapsed (set_score v s3) = elapsed s3 ∧
                   combo (set_score v s3) = combo s3 ∧
                   score (set_score v s3) = v ∧
                   bestCombo (set_score v s3) = bestCombo s3) by done.
  set (v := (score s3 + points (Obj.generation obj) (combo s3))%Z).
  destruct (G v) as (G1 & G2 & G3 & G4 & G5 & G6 & G7 & G8 & G9).
  clearbody s3. clear G.
  constructor.
  - congruence.
  - congruence.
  - congruence.
  - rewrite G9, F9. lia.
  - rewrite G3, F3. done.
  - intros HL. apply Hlive; congruence.
  - intros HL HT. destruct (A6 HL HT) as [[[T1 T1'] T2] S].
    destruct (points_pos (Obj.generation obj) (combo s2 + 1) (Hok HL)) as [P1 P2].
    split; [ constructor | ]; rewrite ?G8, ?G7, ?G9; subst v; rewrite ?F7, ?F8, ?F9.
    + split; [ lia | by apply Z.divide_add_r ].
    + lia.
    + lia.
Qed.

Lemma resolveHits_tail (rnd : nat → R) (hs : list CollisionSystem.HitRecord) :
  ∀ s fi, tail_step s (resolveHits rnd hs s fi).1.
Proof.
  induction hs as [ | hit rest IH ]; intros s fi; cbn [resolveHits].
  - apply tail_refl.
  - destruct (heap s !! CollisionSystem.object hit) as [ obj | ] eqn:Hl; [ | apply IH ].
    destruct (Obj.isBomb obj) eqn:Hb.
    + case_decide as Hz.
      * cbn [fst]. eapply tail_trans; [ apply resolveBomb_tail | ].
        apply tail_inplace; [ reflexivity | apply keeps_store_refl ].
      * eapply tail_trans; [ apply resolveBomb_tail | apply IH ].
    + destruct (Obj.isHeart obj) eqn:Hh.
      * eapply tail_trans; [ apply resolveHeart_tail | apply IH ].
      * pose proof (resolveFruit_tail rnd hit obj s Hl Hb Hh) as Hf.
        destruct (resolveFruit rnd hit obj s) as [s1 pieces].
        eapply tail_trans; [ exact Hf | apply IH ].
Qed.

Lemma cleanupObj_tail (s : t) (fi : FrameInfo) (l : loc) :
  tail_step s (cleanupObj (s, fi) l).1.
Proof.
  constructor; try done.
  - apply Live_cleanupObj.
  - intros _ HT. split; [ | done ]. by eapply Tally_fields; [ .. | exact HT ].
Qed.

Lemma cleanup_tail (toRemove : list loc) :
  ∀ s fi, tail_step s (cleanup toRemove s fi).1.
Proof.
  unfold cleanup.
  induction toRemove as [ | l rest IH ]; intros s fi; cbn [fold_left].
  - apply tail_refl.
  - eapply tail_trans; [ apply (cleanupObj_tail s fi l) | ].
    rewrite (surjective_pairing (cleanupObj (s, fi) l)). apply IH.
Qed.

Lemma beforeCollision_tail (rnd : nat → R) (dt : R) (s : t) :
  unit_stream rnd → tail_step (ramp s) (beforeCollision rnd dt s).1.1.
Proof.
  intros Hu. unfold beforeCollision.
  pose proof (spawnStep_tail rnd dt (ramp s) Hu) as H1.
  destruct (spawnStep rnd dt (ramp s)) as [s2 sp]. cbn [fst] in H1.
  pose proof (physics_tail dt (comboDecay dt s2)) as H3.
  destruct (physics dt (comboDecay dt s2)) as [s4 tr]. cbn [fst] in *.
  eapply tail_trans; [ exact H1 | ].
  eapply tail_trans; [ apply comboDecay_tail | exact H3 ].
Qed.

(** Everything a running call does after the difficulty ramp. *)
Lemma update_tail (rnd : nat → R) (now dt : R) (hands : Hands) (s : t) :
  unit_stream rnd → running s → 0 < timeRemaining s - dt →
  tail_step (ramp (tick dt s)) (update rnd now dt hands s).1.
Proof.
  intros Hu Hrun Ht. rewrite update_running by done. cbv zeta.
  eapply tail_trans; [ by apply beforeCollision_tail | ].
  eapply tail_trans; [ apply collide_tail | ].
  eapply tail_trans; [ apply resolveHits_tail | apply cleanup_tail ].
Qed.

End TailSteps.

(** ** The reachable states *)

Section Reach.
Import GameEngine.

Lemma resolveHits_over (rnd : nat → R) (hs : list CollisionSystem.HitRecord) :
  ∀ s fi, isGameOver s = false →
    isGameOver (resolveHits rnd hs s fi).1 = true →
    timeRemaining (resolveHits rnd hs s fi).1 = 0.
Proof.
  induction hs as [ | hit rest IH ]; intros s fi Hov; cbn [resolveHits].
  - cbn. congruence.
  - destruct (heap s !! CollisionSystem.object hit) as [ obj | ]; [ | by apply IH ].
    destruct (Obj.isBomb obj).
    + destruct (resolveBomb_fields (CollisionSystem.object hit) s)
        as (Ht & _ & _ & _ & Hov' & _).
      case_decide as Hz.
      * intros _. cbn [fst].
        change (timeRemaining (set_isGameOver true (resolveBomb (CollisionSystem.object hit) s)))
          with (timeRemaining (resolveBomb (CollisionSystem.object hit) s)).
        rewrite Ht in Hz |- *. pose proof (Rmax_l 0 (timeRemaining s - 10)). lra.
      * apply IH. congruence.
    + destruct (Obj.isHeart obj).
      * by apply IH.
      * destruct (resolveFruit_fields rnd hit obj s) as (_ & _ & _ & _ & _ & Hov' & _).
        destruct (resolveFruit rnd hit obj s) as [s1 pieces]. cbn [fst] in Hov'.
        apply IH. congruence.
Qed.

Lemma update_over (rnd : nat → R) (now dt : R) (hands : Hands) (s : t) :
  (isGameOver s = true → timeRemaining s = 0) →
  isGameOver (update rnd now dt hands s).1 = true →
  timeRemaining (update rnd now dt hands s).1 = 0.
Proof.
  intros Hs.
  destruct (isGameOver s || isPaused s) eqn:Hstop.
  { by rewrite update_stopped. }
  apply orb_false_iff in Hstop.
  destruct (Rle_lt_dec (timeRemaining s - dt) 0) as [Hexp | Hrun].
  { by rewrite update_expired. }
  rewrite update_running by done. cbv zeta.
  destruct (beforeCollision_fields rnd dt (tick dt s)) as (_ & _ & Hbo & _).
  set (b := beforeCollision rnd dt (tick dt s)) in *.
  destruct (collide_spec now hands b.1.1)
    as ((_ & _ & _ & _ & Hco & _)%scalars_fields & _).
  set (c := collide now hands b.1.1) in *.
  pose proof (resolveHits_over rnd c.2 c.1 (mkFrame b.1.2 [] [])) as Hr.
  set (r := resolveHits rnd c.2 c.1 _) in *.
  destruct (cleanup_spec b.2 r.1 r.2)
    as ((_ & _ & _ & _ & Hcl & _ & _ & Hclt & _)%scalars_fields & _).
  rewrite Hcl, Hclt. apply Hr. rewrite Hco, Hbo. cbn. tauto.
Qed.

Lemma Live_new : Live new.
Proof.
  constructor; cbn;
    first [ done | constructor | (intros l Hl; by apply elem_of_nil in Hl)
          | (intros l l' o o' Hl; by apply elem_of_nil in Hl) ].
Qed.

Lemma Live_reset (s : t) : Live s → Live (reset s).
Proof.
  intros [H1 H2 H3 H4 H5]. constructor; cbn;
    first [ done | constructor | (intros l Hl; by apply elem_of_nil in Hl)
          | (intros l l' o o' Hl; by apply elem_of_nil in Hl) ].
Qed.

Lemma Live_scalars (s s' : t) :
  heap s' = heap s → objects s' = objects s → nextId s' = nextId s → Live s → Live s'.
Proof.
  intros Hh Ho Hn. apply Live_inplace; [ | done | done ].
  rewrite Hh. apply keeps_store_refl.
Qed.

Lemma Ramp_start (s : t) :
  elapsed s = 0 → spawnInterval s = 1.5 → bombChance s = 0.12 →
  isGameOver s = false → Ramp s.
Proof.
  intros He Hi Hb Ho.
  constructor; rewrite ?He, ?Hi, ?Hb, ?Ho; unfold minSpawnInterval, maxBombChance,
    difficultyRate, Rmax, Rmin; try lra; try done.
  intros _. repeat destruct (Rle_dec _ _); lra.
Qed.

Lemma ramp_bounds (e : R) :
  0 <= e →
  minSpawnInterval <= Rmax minSpawnInterval (1.5 - e * difficultyRate) <= 1.5 ∧
  0.12 <= Rmin maxBombChance (0.12 + e * 0.001) <= maxBombChance.
Proof.
  intros He. unfold minSpawnInterval, maxBombChance, difficultyRate, Rmax, Rmin.
  repeat destruct (Rle_dec _ _); lra.
Qed.

Lemma ramp_mono (e1 e2 : R) :
  e1 <= e2 →
  Rmax minSpawnInterval (1.5 - e2 * difficultyRate) <=
    Rmax minSpawnInterval (1.5 - e1 * difficultyRate) ∧
  Rmin maxBombChance (0.12 + e1 * 0.001) <= Rmin maxBombChance (0.12 + e2 * 0.001).
Proof.
  intros He. unfold minSpawnInterval, maxBombChance, difficultyRate, Rmax, Rmin.
  repeat destruct (Rle_dec _ _); lra.
Qed.

(** The fields of a running call's result that come from the timer and
    the difficulty ramp. *)
Lemma update_running_ramp (rnd : nat → R) (now dt : R) (hands : Hands) (s : t) :
  unit_stream rnd → running s → 0 < timeRemaining s - dt →
  elapsed (update rnd now dt hands s).1 = elapsed s + dt ∧
  spawnInterval (update rnd now dt hands s).1 =
    Rmax minSpawnInterval (1.5 - (elapsed s + dt) * difficultyRate) ∧
  bombChance (update rnd now dt hands s).1 =
    Rmin maxBombChance (0.12 + (elapsed s + dt) * 0.001).
Proof.
  intros Hu Hrun Ht.
  destruct (update_tail rnd now dt hands s Hu Hrun Ht) as [A1 A2 Ae _ _ _ _].
  rewrite A1, A2, Ae. done.
Qed.

Lemma Ramp_update (rnd : nat → R) (now dt : R) (hands : Hands) (s : t) :
  unit_stream rnd → 0 <= dt → Ramp s → Ramp (update rnd now dt hands s).1.
Proof.
  intros Hu Hdt HR.
  assert (Hover := update_over rnd now dt hands s (ramp_over s HR)).
  destruct (isGameOver s || isPaused s) eqn:Hstop.
  { by rewrite update_stopped. }
  apply orb_false_iff in Hstop.
  destruct HR as [R1 R2 R3 R4 R5].
  destruct (Rle_lt_dec (timeRemaining s - dt) 0) as [Hexp | Hrun].
  { rewrite update_expired by done. constructor; cbn; try done. lra. }
  destruct (update_running_ramp rnd now dt hands s Hu Hstop Hrun) as (E1 & E2 & E3).
  destruct (ramp_bounds (elapsed s + dt)) as [B1 B2]; [ lra | ].
  constructor; rewrite ?E1, ?E2, ?E3; try done. lra.
Qed.

Lemma Live_update (rnd : nat → R) (now dt : R) (hands : Hands) (s : t) :
  unit_stream rnd → Live s → Live (update rnd now dt hands s).1.
Proof.
  intros Hu HL.
  destruct (isGameOver s || isPaused s) eqn:Hstop.
  { by rewrite update_stopped. }
  apply orb_false_iff in Hstop.
  destruct (Rle_lt_dec (timeRemaining s - dt) 0) as [Hexp | Hrun].
  { rewrite update_expired by done. cbn [fst]. by apply (Live_scalars s). }
  apply (tail_live _ _ (update_tail rnd now dt hands s Hu Hstop Hrun)).
  by apply (Live_scalars s).
Qed.

Lemma Tally_update (rnd : nat → R) (now dt : R) (hands : Hands) (s : t) :
  unit_stream rnd → Live s → Tally s →
  Tally (update rnd now dt hands s).1 ∧
  (score s <= score (update rnd now dt hands s).1)%Z ∧
  (bestCombo s <= bestCombo (update rnd now dt hands s).1)%Z ∧
  (nextId s <= nextId (update rnd now dt hands s).1)%Z.
Proof.
  intros Hu HL HT.
  destruct (isGameOver s || isPaused s) eqn:Hstop.
  { rewrite update_stopped by done. cbn [fst]. split; [ done | lia ]. }
  apply orb_false_iff in Hstop.
  destruct (Rle_lt_dec (timeRemaining s - dt) 0) as [Hexp | Hrun].
  { rewrite update_expired by done. cbn [fst].
    split; [ by apply (Tally_fields s) | cbn; lia ]. }
  destruct (update_tail rnd now dt hands s Hu Hstop Hrun) as [_ _ _ A3 A4 _ A6].
  destruct A6 as [T S].
  - by apply (Live_scalars s).
  - by apply (Tally_fields s).
  - split; [ exact T | ]. cbn in A3, A4, S. lia.
Qed.

Lemma reachable_good (rnd : nat → R) (s : t) :
  reachable rnd s → Live s ∧ Tally s ∧ Ramp s.
Proof.
  induction 1 as [ | s Hr (HL & HT & HR) | s b Hr (HL & HT & HR)
                   | s now dt hands Hr (HL & HT & HR) Hu Hdt ].
  - split; [ apply Live_new | ]. split; [ | by apply Ramp_start ].
    constructor; cbn; [ split; [ lia | by exists 0%Z ] | lia ].
  - split; [ by apply Live_reset | ]. split; [ | by apply Ramp_start ].
    constructor; cbn; [ split; [ lia | by exists 0%Z ] | lia ].
  - split; [ by apply (Live_scalars s) | ].
    split; [ by apply (Tally_fields s) | ].
    destruct HR as [R1 R2 R3 R4 R5]. by constructor.
  - split; [ by apply Live_update | ].
    split; [ by apply Tally_update | by apply Ramp_update ].
Qed.

Lemma filter_all {A : Type} (f : A → bool) (l : list A) :
  (∀ x, x ∈ l → f x = true) → List.filter f l = l.
Proof.
  induction l as [ | a l IH ]; intros H; cbn; [ done | ].
  rewrite (H a) by (apply elem_of_cons; by left).
  f_equal. apply IH. intros x Hx. apply H, elem_of_cons. by right.
Qed.

(** X6: in every reachable state the live set lists no object twice, every
    listed object is active and has an id between 1 and the number of ids
    handed out since the last reset, no two listed objects share an id,
    and so [getActiveObjects] returns the live set as it is. *)
Theorem live_set_well_formed (rnd : nat → R) (s : t) :
  reachable rnd s →
  NoDup (objects s) ∧
  (∀ l, l ∈ objects s →
     ∃ o, heap s !! l = Some o ∧ Obj.active o = true ∧
          (1 <= Obj.id o <= nextId s)%Z) ∧
  (∀ l l' o o', l ∈ objects s → l' ∈ objects s →
     heap s !! l = Some o → heap s !! l' = Some o' →
     Obj.id o = Obj.id o' → l = l') ∧
  getActiveObjects s = objects s.
Proof.
  intros (HL & _)%reachable_good. destruct HL as [H1 H2 H3 H4 H5].
  repeat split; try done.
  unfold getActiveObjects. apply filter_all.
  intros l Hl. destruct (H2 l Hl) as (o & -> & Ha & _). exact Ha.
Qed.

(** X7: every object the engine has created, live or not, has a generation
    between 0 and 2, [maxSlices = 3 - generation], [sliceCount = 0], a
    radius in (0, 0.042), a type that matches its kind (a fruit name for a
    fruit), is not both bomb and heart, is of generation 0 if it is a bomb
    or a heart, and has a [halfSide] exactly when it is a piece. *)
Theorem store_objects_ok (rnd : nat → R) (s : t) (l : loc) (o : Obj.t) :
  reachable rnd s → heap s !! l = Some o → obj_ok o.
Proof.
  intros (HL & _)%reachable_good Hl.
  pose proof (live_store s HL) as HF. by eapply Forall_lookup in HF.
Qed.

(** X8: in every reachable state the score is a non-negative multiple of 10
    and [0 <= combo <= bestCombo]. *)
Theorem score_and_combo (rnd : nat → R) (s : t) :
  reachable rnd s →
  (0 <= score s)%Z ∧ (10 | score s)%Z ∧ (0 <= combo s <= bestCombo s)%Z.
Proof. intros (_ & [[T1 T1'] T2] & _)%reachable_good. done. Qed.

(** X9: in every reachable state [0.4 <= spawnInterval <= 1.5] and
    [0.12 <= bombChance <= 0.25], and while the game is not over both are
    the ramp functions of [elapsed >= 0]. *)
Theorem difficulty_follows_elapsed (rnd : nat → R) (s : t) :
  reachable rnd s →
  0 <= elapsed s ∧
  minSpawnInterval <= spawnInterval s <= 1.5 ∧
  0.12 <= bombChance s <= maxBombChance ∧
  (isGameOver s = false →
   spawnInterval s = Rmax minSpawnInterval (1.5 - elapsed s * difficultyRate) ∧
   bombChance s = Rmin maxBombChance (0.12 + elapsed s * 0.001)).
Proof. intros (_ & _ & [R1 R2 R3 R4 R5])%reachable_good. done. Qed.

(** X10: in every reachable state the game is over exactly when no time
    remains. *)
Theorem game_over_iff_no_time (rnd : nat → R) (s : t) :
  reachable rnd s → isGameOver s = true ↔ timeRemaining s = 0.
Proof.
  intros Hr. destruct (reachable_good rnd s Hr) as (_ & _ & [_ _ _ _ R5]).
  destruct (reachable_Inv rnd s Hr) as [_ I2 _ _].
  split; [ exact R5 | ]. intros Ht.
  destruct (isGameOver s); [ done | ]. specialize (I2 eq_refl). lra.
Qed.

(** X11: a call of [update] from a reachable state never lowers the score, the
    best combo, the time played or the id counter, never lengthens the
    spawn interval and never lowers the bomb chance. *)
Theorem update_monotone (rnd : nat → R) (now dt : R) (hands : Hands) (s : t) :
  reachable rnd s → unit_stream rnd → 0 <= dt →
  (score s <= score (update rnd now dt hands s).1)%Z ∧
  (bestCombo s <= bestCombo (update rnd now dt hands s).1)%Z ∧
  (nextId s <= nextId (update rnd now dt hands s).1)%Z ∧
  elapsed s <= elapsed (update rnd now dt hands s).1 ∧
  spawnInterval (update rnd now dt hands s).1 <= spawnInterval s ∧
  bombChance s <= bombChance (update rnd now dt hands s).1.
Proof.
  intros (HL & HT & HR)%reachable_good Hu Hdt.
  destruct (Tally_update rnd now dt hands s Hu HL HT) as (_ & M1 & M2 & M3).
  do 3 (split; [ done | ]).
  destruct (isGameOver s || isPaused s) eqn:Hstop.
  { rewrite update_stopped by done. cbn [fst]. lra. }
  apply orb_false_iff in Hstop.
  destruct (Rle_lt_dec (timeRemaining s - dt) 0) as [Hexp | Hrun].
  { rewrite update_expired by done. cbn. lra. }
  destruct (update_running_ramp rnd now dt hands s Hu Hstop Hrun) as (E1 & E2 & E3).
  destruct (ramp_exact s HR (proj1 Hstop)) as [X1 X2].
  destruct (ramp_mono (elapsed s) (elapsed s + dt)) as [Y1 Y2]; [ lra | ].
  rewrite E1, E2, E3, X1, X2. split; [ lra | done ].
Qed.

Lemma live_set_well_formed_witness :
  NoDup (objects Sample.after_first) ∧
  (∀ l, l ∈ objects Sample.after_first →
     ∃ o, heap Sample.after_first !! l = Some o ∧ Obj.active o = true ∧
          (1 <= Obj.id o <= nextId Sample.after_first)%Z) ∧
  (∀ l l' o o', l ∈ objects Sample.after_first → l' ∈ objects Sample.after_first →
     heap Sample.after_first !! l = Some o → heap Sample.after_first !! l' = Some o' →
     Obj.id o = Obj.id o' → l = l') ∧
  getActiveObjects Sample.after_first = objects Sample.after_first.
Proof.
  apply (live_set_well_formed Sample.half Sample.after_first).
  apply after_first_reachable.
Defined.

Lemma store_objects_ok_witness : obj_ok Sample.lime.
Proof.
  apply (store_objects_ok Sample.half Sample.after_first 0 Sample.lime).
  - apply after_first_reachable.
  - reflexivity.
Defined.

Lemma score_and_combo_witness :
  (0 <= score Sample.after_first)%Z ∧ (10 | score Sample.after_first)%Z ∧
  (0 <= combo Sample.after_first <= bestCombo Sample.after_first)%Z.
Proof.
  apply (score_and_combo Sample.half Sample.after_first).
  apply after_first_reachable.
Defined.

Lemma difficulty_follows_elapsed_witness :
  0 <= elapsed Sample.after_first ∧
  minSpawnInterval <= spawnInterval Sample.after_first <= 1.5 ∧
  0.12 <= bombChance Sample.after_first <= maxBombChance ∧
  (isGameOver Sample.after_first = false →
   spawnInterval Sample.after_first =
     Rmax minSpawnInterval (1.5 - elapsed Sample.after_first * difficultyRate) ∧
   bombChance Sample.after_first =
     Rmin maxBombChance (0.12 + elapsed Sample.after_first * 0.001)).
Proof.
  apply (difficulty_follows_elapsed Sample.half Sample.after_first).
  apply after_first_reachable.
Defined.

Lemma game_over_iff_no_time_witness :
  isGameOver Sample.after_first = true ↔ timeRemaining Sample.after_first = 0.
Proof.
  apply (game_over_iff_no_time Sample.half Sample.after_first).
  apply after_first_reachable.
Defined.

Lemma update_monotone_witness :
  (score Sample.after_first <=
     score (update Sample.half 0 0 Sample.strike Sample.after_first).1)%Z ∧
  (bestCombo Sample.after_first <=
     bestCombo (update Sample.half 0 0 Sample.strike Sample.after_first).1)%Z ∧
  (nextId Sample.after_first <=
     nextId (update Sample.half 0 0 Sample.strike Sample.after_first).1)%Z ∧
  elapsed Sample.after_first <=
    elapsed (update Sample.half 0 0 Sample.strike Sample.after_first).1 ∧
  spawnInterval (update Sample.half 0 0 Sample.strike Sample.after_first).1 <=
    spawnInterval Sample.after_first ∧
  bombChance Sample.after_first <=
    bombChance (update Sample.half 0 0 Sample.strike Sample.after_first).1.
Proof.
  apply (update_monotone Sample.half 0 0 Sample.strike Sample.after_first).
  - apply after_first_reachable.
  - apply half_unit.
  - lra.
Defined.

End Reach.

(** ** The hits of a frame *)

Section FrameHits.
Import GameEngine.

Lemma guard_passes (hand : Hand.t) (obj : Obj.t) :
  CollisionSystem.checkCollision hand obj = true →
  Hand.visible hand = true ∧ CollisionSystem.minSliceSpeed <= Hand.speed hand.
Proof.
  intros Hc. destruct (Hand.visible hand) eqn:Hv.
  - split; [ done | ].
    destruct (Rlt_dec (Hand.speed hand) CollisionSystem.minSliceSpeed) as [Hlt | Hge];
      [ | lra ].
    rewrite guard_misses in Hc by (by right). done.
  - rewrite guard_misses in Hc by (by left). done.
Qed.

Lemma collide_hits (now : R) (hands : Hands) (s : t) :
  Forall (λ h, ∃ o, CollisionSystem.object h ∈ sliceable s ∧
                    heap s !! CollisionSystem.object h = Some o ∧
                    CollisionSystem.side h = first_side hands o ∧
                    CollisionSystem.hand h =
                      CollisionSystem.hand_of hands (CollisionSystem.side h) ∧
                    CollisionSystem.checkCollision (CollisionSystem.hand h) o = true)
         (collide now hands s).2 ∧
  NoDup (map (hit_id (heap s)) (collide now hands s).2).
Proof.
  unfold collide.
  destruct (checkAll_unfold (heap s) now hands (sliceable s) (collisionSystem s))
    as [_ E].
  destruct (CollisionSystem.checkAll _ _ _ _ _) as [cs hs]. cbn [fst snd] in *.
  subst hs.
  destruct (checkObjects_spec (heap s) now hands (sliceable s)
              (CollisionSystem.prune now
                 (CollisionSystem.recentHits (collisionSystem s))) [])
    as (_ & new & Hnew & _ & Hall & Hnd).
  cbv zeta in Hnew, Hall. rewrite Hnew. cbn [app]. split; [ | exact Hnd ].
  eapply Forall_impl; [ exact Hall | ].
  intros h (o & Hin & Ho & _ & _ & _ & Hs & Hh & Hc). by exists o.
Qed.

Lemma marked_later (h h' : list Obj.t) (l : loc) :
  evolves h h' →
  (∃ o, h !! l = Some o ∧ Obj.fading o = true) →
  ∃ o', h' !! l = Some o' ∧ Obj.fading o' = true.
Proof.
  intros Hev (o & Ho & Hf). destruct (Hev l o Ho) as (o' & Ho' & _ & Hf').
  exists o'. auto.
Qed.

Lemma modify_marks (l : loc) (s : t) (obj : Obj.t) (ft : R) :
  heap s !! l = Some obj →
  ∃ o, heap (modify l (mark_fading ft) s) !! l = Some o ∧ Obj.fading o = true.
Proof.
  intros Hl. exists (mark_fading ft obj). unfold modify. cbn.
  by rewrite list_lookup_alter_eq, Hl.
Qed.

Lemma resolveBomb_marks (l : loc) (s : t) (obj : Obj.t) :
  heap s !! l = Some obj →
  ∃ o, heap (resolveBomb l s) !! l = Some o ∧ Obj.fading o = true.
Proof.
  intros Hl. unfold resolveBomb. cbn.
  eapply marked_later; [ apply clear_fold_evolves | ].
  exists (mark_fading 0 obj). by rewrite list_lookup_alter_eq, Hl.
Qed.

Lemma resolveFruit_marks (rnd : nat → R) (hit : CollisionSystem.HitRecord)
    (obj : Obj.t) (s : t) :
  heap s !! CollisionSystem.object hit = Some obj →
  ∃ o, heap (resolveFruit rnd hit obj s).1 !! CollisionSystem.object hit = Some o ∧
       Obj.fading o = true.
Proof.
  intros Hl. unfold resolveFruit.
  destruct (splitFruit_scalars rnd s (CollisionSystem.object hit)
              (CollisionSystem.hand hit)) as (_ & _ & Hev).
  destruct (_splitFruit _ _ _ _) as [s1 pieces]. cbn [fst] in Hev.
  destruct (Hev _ _ Hl) as (o1 & Ho1 & _).
  cbn zeta. case_decide; cbn; exists (mark_fading 0 o1);
    by rewrite list_lookup_alter_eq, Ho1.
Qed.

(** The hits that reach the frame summary are taken, in order, from the
    detected ones, and their objects are fading when the loop ends. *)
Lemma resolveHits_hits_sub (rnd : nat → R) (hs : list CollisionSystem.HitRecord) :
  ∀ s fi,
    ∃ more, hits (resolveHits rnd hs s fi).2 = hits fi ++ more ∧
            more `sublist_of` hs ∧
            ∀ h, h ∈ more →
              ∃ o, heap (resolveHits rnd hs s fi).1 !! CollisionSystem.object h = Some o ∧
                   Obj.fading o = true.
Proof.
  induction hs as [ | hit rest IH ]; intros s fi; cbn [resolveHits].
  - exists []. rewrite app_nil_r. split; [ done | ]. split; [ done | ].
    intros h Hh. by apply elem_of_nil in Hh.
  - assert (Hstep : ∀ s1 fi1,
      hits fi1 = hits fi ++ [hit] →
      (∃ o, heap s1 !! CollisionSystem.object hit = Some o ∧ Obj.fading o = true) →
      ∃ more, hits (resolveHits rnd rest s1 fi1).2 = hits fi ++ more ∧
              more `sublist_of` hit :: rest ∧
              ∀ h, h ∈ more →
                ∃ o, heap (resolveHits rnd rest s1 fi1).1 !! CollisionSystem.object h = Some o ∧
                     Obj.fading o = true).
    { intros s1 fi1 Hfi Hm. destruct (IH s1 fi1) as (more & E & Hsub & Hall).
      exists (hit :: more). rewrite E, Hfi, <- app_assoc. split; [ done | ].
      split; [ by apply sublist_skip | ].
      intros h [-> | Hh]%elem_of_cons; [ | by apply Hall ].
      eapply marked_later; [ | exact Hm ]. apply resolveHits_safe. }
    destruct (heap s !! CollisionSystem.object hit) as [ obj | ] eqn:Hl.
    + destruct (Obj.isBomb obj).
      * case_decide.
        -- exists [hit]. cbn. split; [ done | ].
           split; [ apply sublist_skip, sublist_nil_l | ].
           intros h ->%list_elem_of_singleton. by eapply resolveBomb_marks.
        -- apply Hstep; [ done | by eapply resolveBomb_marks ].
      * destruct (Obj.isHeart obj).
        -- apply Hstep; [ done | ]. unfold resolveHeart. by eapply modify_marks.
        -- pose proof (resolveFruit_marks rnd hit obj s Hl) as Hm.
           destruct (resolveFruit rnd hit obj s) as [s1 pieces].
           apply Hstep; [ done | exact Hm ].
    + destruct (IH s fi) as (more & E & Hsub & Hall).
      exists more. split; [ done | ]. split; [ by apply sublist_cons | done ].
Qed.

Lemma update_hits_spec (rnd : nat → R) (now dt : R) (hands : Hands) (s : t) :
  NoDup (map CollisionSystem.object (hits (update rnd now dt hands s).2)) ∧
  ∀ h, h ∈ hits (update rnd now dt hands s).2 →
    CollisionSystem.hand h = CollisionSystem.hand_of hands (CollisionSystem.side h) ∧
    Hand.visible (CollisionSystem.hand h) = true ∧
    CollisionSystem.minSliceSpeed <= Hand.speed (CollisionSystem.hand h) ∧
    ∃ o, heap (update rnd now dt hands s).1 !! CollisionSystem.object h = Some o ∧
         Obj.fading o = true.
Proof.
  assert (Hnil : NoDup (map CollisionSystem.object []) ∧
                 ∀ h, h ∈ hits emptyFrame → False).
  { split; [ constructor | ]. intros h Hh. by apply elem_of_nil in Hh. }
  destruct (isGameOver s || isPaused s) eqn:Hstop.
  { rewrite update_stopped by done. cbn [fst snd]. split; [ apply Hnil | ].
    intros h Hh. by apply Hnil in Hh. }
  apply orb_false_iff in Hstop.
  destruct (Rle_lt_dec (timeRemaining s - dt) 0) as [Hexp | Hrun].
  { rewrite update_expired by done. cbn [fst snd]. split; [ apply Hnil | ].
    intros h Hh. by apply Hnil in Hh. }
  rewrite update_running by done. cbv zeta.
  set (b := beforeCollision rnd dt (tick dt s)).
  destruct (collide_hits now hands b.1.1) as [Hall Hnd].
  destruct (collide_spec now hands b.1.1) as (_ & Hch & _).
  set (c := collide now hands b.1.1) in *.
  destruct (resolveHits_hits_sub rnd c.2 c.1 (mkFrame b.1.2 [] []))
    as (more & E & Hsub & Hmark).
  set (r := resolveHits rnd c.2 c.1 _) in *.
  destruct (cleanup_spec b.2 r.1 r.2) as (_ & _ & Hev & Hh & _).
  cbv zeta in Hev, Hh. rewrite Hh, E. cbn [hits app].
  split.
  - eapply NoDup_fmap_1 with (f := λ l, match heap b.1.1 !! l with
                                        | Some o => Obj.id o
                                        | None => 0%Z
                                        end).
    rewrite <- list_fmap_compose.
    eapply sublist_NoDup; [ exact Hnd | ]. by apply fmap_sublist.
  - intros h Hin.
    rewrite Forall_forall in Hall.
    destruct (Hall h (elem_of_sublist _ _ _ Hin Hsub)) as (o & _ & _ & _ & Hhand & Hc).
    apply guard_passes in Hc as [Hv Hsp].
    split; [ done | ]. split; [ done | ]. split; [ done | ].
    eapply marked_later; [ exact Hev | by apply Hmark ].
Qed.

(** X12: every hit of a frame summary is for a distinct object, was made by
    the hand of the recorded side, which is in view and at least as fast
    as the slicing speed, and leaves its object fading when [update]
    returns. *)
Theorem frame_hits_sound (rnd : nat → R) (now dt : R) (hands : Hands) (s : t) :
  NoDup (map CollisionSystem.object (hits (update rnd now dt hands s).2)) ∧
  ∀ h, h ∈ hits (update rnd now dt hands s).2 →
    CollisionSystem.hand h = CollisionSystem.hand_of hands (CollisionSystem.side h) ∧
    Hand.visible (CollisionSystem.hand h) = true ∧
    CollisionSystem.minSliceSpeed <= Hand.speed (CollisionSystem.hand h) ∧
    ∃ o, heap (update rnd now dt hands s).1 !! CollisionSystem.object h = Some o ∧
         Obj.fading o = true.
Proof. apply update_hits_spec. Qed.

End FrameHits.

(** ** Spawning *)

Section Spawning.
Import GameEngine.

(** X13: with a random source in [[0, 1)], [_spawnObject] creates one object
    at the end of the store and of the live set, with the next id; it is
    active and not fading, of generation 0, starts above the screen at
    [y = -0.08] with [x] in [[0.08, 0.92)], falls ([0.08 <= vy < 0.18])
    with a sideways drift in [[-0.06, 0.06)], and its type is defined:
    ["bomb"], ["heart"] or one of the fruit names, according to its
    kind. *)
Theorem spawnObject_fresh (rnd : nat → R) (s : t) :
  unit_stream rnd →
  ∃ o, heap (_spawnObject rnd s).1 = heap s ++ [o] ∧
       (_spawnObject rnd s).2 = length (heap s) ∧
       objects (_spawnObject rnd s).1 = objects s ++ [length (heap s)] ∧
       nextId (_spawnObject rnd s).1 = (nextId s + 1)%Z ∧
       Obj.id o = (nextId s + 1)%Z ∧
       Obj.active o = true ∧ Obj.fading o = false ∧ Obj.generation o = 0%Z ∧
       Obj.y o = - 0.08 ∧ 0.08 <= Obj.x o < 0.92 ∧
       - 0.06 <= Obj.vx o < 0.06 ∧ 0.08 <= Obj.vy o < 0.18 ∧
       0 < Obj.radius o < 0.042 ∧
       ∃ ty, Obj.type o = Some ty ∧
             if Obj.isBomb o then Obj.isHeart o = false ∧ ty = "bomb"%string
             else if Obj.isHeart o then ty = "heart"%string
             else ty ∈ FRUIT_TYPES.
Proof.
  intros Hu.
  destruct (spawnObject_born rnd s Hu)
    as (o & Hh & Hl & Ho & Hn & Hid & Hok & (Ha & Hf & _ & Hg & _) &
        (Hy & Hx & Hvx & Hvy) & _).
  exists o. do 12 (split; [ done | ]).
  destruct Hok as [_ _ _ Hr (ty & Hty & Hkind) Hbh _ _].
  split; [ done | ]. exists ty. split; [ done | ].
  destruct (Obj.isBomb o); [ | done ]. split; [ by apply Hbh | done ].
Qed.

Lemma spawnObject_fresh_witness :
  ∃ o, heap (_spawnObject Sample.half new).1 = heap new ++ [o] ∧
       (_spawnObject Sample.half new).2 = length (heap new) ∧
       objects (_spawnObject Sample.half new).1 = objects new ++ [length (heap new)] ∧
       nextId (_spawnObject Sample.half new).1 = (nextId new + 1)%Z ∧
       Obj.id o = (nextId new + 1)%Z ∧
       Obj.active o = true ∧ Obj.fading o = false ∧ Obj.generation o = 0%Z ∧
       Obj.y o = - 0.08 ∧ 0.08 <= Obj.x o < 0.92 ∧
       - 0.06 <= Obj.vx o < 0.06 ∧ 0.08 <= Obj.vy o < 0.18 ∧
       0 < Obj.radius o < 0.042 ∧
       ∃ ty, Obj.type o = Some ty ∧
             if Obj.isBomb o then Obj.isHeart o = false ∧ ty = "bomb"%string
             else if Obj.isHeart o then ty = "heart"%string
             else ty ∈ FRUIT_TYPES.
Proof.
  apply (spawnObject_fresh Sample.half new). apply half_unit.
Defined.

Lemma unit_fraction (i count : Z) :
  (0 <= i < count)%Z → 0 <= IZR i / IZR count < 1.
Proof.
  intros [Hi Hc].
  assert (H0 : 0 <= IZR i) by (apply IZR_le in Hi; exact Hi).
  assert (H1 : IZR i < IZR count) by (by apply IZR_lt).
  assert (Hinv : 0 < / IZR count) by (apply Rinv_0_lt_compat; lra).
  unfold Rdiv. split.
  - apply Rmult_le_pos; lra.
  - replace 1 with (IZR count * / IZR count) by (apply Rinv_r; lra).
    by apply Rmult_lt_compat_r.
Qed.

(** The objects of a batch, as the spawning loop leaves them. *)
Lemma spawnLoop_batch (rnd : nat → R) (count : Z) (n : nat) :
  unit_stream rnd →
  ∀ (i : Z) (s : t) (acc : list loc),
    (0 <= i)%Z → (n ≠ 0%nat → (i + Z.of_nat n <= count)%Z) →
    ∃ os, heap (spawnLoop rnd count n i s acc).1 = heap s ++ os ∧
          (spawnLoop rnd count n i s acc).2 = acc ++ seq (length (heap s)) n ∧
          length os = n ∧
          Forall (λ o, Obj.active o = true ∧ Obj.fading o = false ∧
                       Obj.y o = - 0.08 ∧ 0.03 <= Obj.x o < 0.97 ∧
                       - 0.06 <= Obj.vx o < 0.06 ∧ 0.08 <= Obj.vy o < 0.18) os.
Proof.
  intros Hu. induction n as [ | n IH ]; intros i s acc Hi Hn; cbn [spawnLoop].
  - exists []. rewrite !app_nil_r. cbn. repeat split. constructor.
  - specialize (Hn (Nat.neq_succ_0 n)).
    destruct (spawnObject_born rnd s Hu)
      as (o & Hh & Hl & _ & _ & _ & _ & (Ha & Hf & _) & (Hy & _ & Hvx & Hvy) & _).
    destruct (_spawnObject rnd s) as [s1 l]. cbn [fst snd] in *. subst l.
    unfold random. cbn zeta.
    set (v := 0.08 + IZR i / IZR count * 0.84 + (rnd (randCount s1) - 0.5) * 0.1).
    set (s2 := modify (length (heap s)) (Obj.set_x v) _).
    assert (Hh2 : heap s2 = heap s ++ [Obj.set_x v o]).
    { subst s2. unfold modify. cbn. rewrite Hh.
      replace (length (heap s)) with (length (heap s) + 0)%nat at 1 by lia.
      by rewrite alter_app_r. }
    destruct (IH (i + 1)%Z s2 (acc ++ [length (heap s)])) as (os & E1 & E2 & E3 & E4);
      [ lia | lia | ].
    exists (Obj.set_x v o :: os).
    rewrite E1, E2, Hh2, <- !app_assoc, length_app. cbn [length app].
    split; [ done | ]. split; [ | split; [ by rewrite E3 | ] ].
    + f_equal. rewrite Nat.add_1_r. done.
    + constructor; [ | done ]. cbn.
      destruct (unit_fraction i count) as [Q0 Q1]; [ lia | ].
      pose proof (Hu (randCount s1)) as Hr. subst v.
      repeat split; try done; lra.
Qed.

(** X14: with a random source in [[0, 1)], the objects that the spawning step
    creates and reports are new cells at the end of the store, listed in
    order of creation; each is active and not fading and starts at
    [y = -0.08] with its jittered [x] in [[0.03, 0.97)], inside the
    margins beyond which an object is removed. *)
Theorem spawn_batch_positions (rnd : nat → R) (dt : R) (s : t) :
  unit_stream rnd →
  ∃ os, heap (spawnStep rnd dt s).1 = heap s ++ os ∧
        (spawnStep rnd dt s).2 = seq (length (heap s)) (length os) ∧
        objects (spawnStep rnd dt s).1 = objects s ++ (spawnStep rnd dt s).2 ∧
        Forall (λ o, Obj.active o = true ∧ Obj.fading o = false ∧
                     Obj.y o = - 0.08 ∧ 0.03 <= Obj.x o < 0.97 ∧
                     - 0.06 <= Obj.vx o < 0.06 ∧ 0.08 <= Obj.vy o < 0.18) os.
Proof.
  intros Hu. destruct (spawnStep_spec rnd dt s) as (_ & _ & Hobjs & _).
  cbv zeta in Hobjs.
  destruct (Rlt_dec (spawnTimer s + dt) (spawnInterval s)) as [Hlt | Hge].
  - rewrite spawnStep_idle in Hobjs |- * by exact Hlt. cbn [fst snd] in *.
    exists []. rewrite app_nil_r. by repeat split.
  - rewrite spawnStep_fires in Hobjs |- * by lra. cbv zeta in Hobjs |- *.
    set (count := batchCount _ _) in *. set (s0 := set_randCount _ _) in *.
    destruct (spawnLoop_batch rnd count (Z.to_nat count) Hu 0%Z s0 [])
      as (os & E1 & E2 & E3 & E4); [ lia | lia | ].
    exists os. rewrite E3. split; [ exact E1 | ]. split; [ exact E2 | ].
    split; [ exact Hobjs | exact E4 ].
Qed.

Lemma spawn_batch_positions_witness :
  ∃ os, heap (spawnStep Sample.half 1.5 new).1 = heap new ++ os ∧
        (spawnStep Sample.half 1.5 new).2 = seq (length (heap new)) (length os) ∧
        objects (spawnStep Sample.half 1.5 new).1 =
          objects new ++ (spawnStep Sample.half 1.5 new).2 ∧
        Forall (λ o, Obj.active o = true ∧ Obj.fading o = false ∧
                     Obj.y o = - 0.08 ∧ 0.03 <= Obj.x o < 0.97 ∧
                     - 0.06 <= Obj.vx o < 0.06 ∧ 0.08 <= Obj.vy o < 0.18) os.
Proof.
  apply (spawn_batch_positions Sample.half 1.5 new). apply half_unit.
Defined.

End Spawning.

(** ** The two halves of a slice *)

Section Halves.
Import GameEngine.

Lemma unit_perp (vx vy : R) :
  0 < sqrt (vx * vx + vy * vy) →
  (- vy / sqrt (vx * vx + vy * vy)) * (- vy / sqrt (vx * vx + vy * vy)) +
  (vx / sqrt (vx * vx + vy * vy)) * (vx / sqrt (vx * vx + vy * vy)) = 1.
Proof.
  intros Hpos. set (sp := sqrt (vx * vx + vy * vy)) in *.
  assert (Hsq : sp * sp = vx * vx + vy * vy).
  { apply sqrt_sqrt. pose proof (Rle_0_sqr vx). pose proof (Rle_0_sqr vy).
    unfold Rsqr in *. lra. }
  replace (- vy / sp * (- vy / sp) + vx / sp * (vx / sp))
    with ((vx * vx + vy * vy) / (sp * sp)) by (field; lra).
  rewrite <- Hsq. field. lra.
Qed.

(** X15: the two pieces of a fruit of generation below 2 take the next two
    ids and the half sides 0 and 1, inherit the type and the rotation of
    the fruit, and fly apart symmetrically: their positions average to
    the fruit's and their velocities to the fruit's plus 5% of the
    hand's, less 0.05 upwards.  When the hand moves faster than 0.01 the
    pieces sit 0.01 from the fruit on the line perpendicular to the
    hand's velocity, the first one on the side of [(-vy, vx)];
    otherwise they sit 0.01 to its right and to its left.  In both
    cases they separate along that line: the velocity of the first
    piece relative to the second is its unit offset from the fruit
    times [2 * spreadSpeed], with
    [spreadSpeed = 0.15 + 0.1 * handSpeed >= 0.15], so the relative
    velocity has a positive component along the relative position and
    the distance between the pieces grows. *)
Theorem split_pieces_geometry (rnd : nat → R) (s : t) (l : loc) (hand : Hand.t)
    (obj : Obj.t) :
  heap s !! l = Some obj → (Obj.generation obj < 2)%Z →
  ∃ p1 p2,
    heap (_splitFruit rnd s l hand).1 = heap s ++ [p1; p2] ∧
    (Obj.id p1 = nextId s + 1 ∧ Obj.id p2 = nextId s + 2)%Z ∧
    (Obj.halfSide p1 = Some 0%Z ∧ Obj.halfSide p2 = Some 1%Z) ∧
    (Obj.type p1 = Obj.type obj ∧ Obj.type p2 = Obj.type obj ∧
     Obj.rotation p1 = Obj.rotation obj ∧ Obj.rotation p2 = Obj.rotation obj) ∧
    (Obj.x p1 + Obj.x p2 = 2 * Obj.x obj ∧ Obj.y p1 + Obj.y p2 = 2 * Obj.y obj) ∧
    (Obj.vx p1 + Obj.vx p2 = 2 * (Obj.vx obj + Hand.vx hand * 0.05) ∧
     Obj.vy p1 + Obj.vy p2 = 2 * (Obj.vy obj + Hand.vy hand * 0.05 - 0.05)) ∧
    (sqrt (Hand.vx hand * Hand.vx hand + Hand.vy hand * Hand.vy hand) > 0.01 →
     (Obj.x p1 - Obj.x obj) * Hand.vx hand + (Obj.y p1 - Obj.y obj) * Hand.vy hand = 0 ∧
     (Obj.x p1 - Obj.x obj) * (Obj.x p1 - Obj.x obj) +
       (Obj.y p1 - Obj.y obj) * (Obj.y p1 - Obj.y obj) = 0.01 * 0.01 ∧
     (Obj.vx p1 - Obj.vx p2) * Hand.vx hand + (Obj.vy p1 - Obj.vy p2) * Hand.vy hand = 0) ∧
    (sqrt (Hand.vx hand * Hand.vx hand + Hand.vy hand * Hand.vy hand) <= 0.01 →
     Obj.x p1 = Obj.x obj + 0.01 ∧ Obj.y p1 = Obj.y obj ∧
     Obj.x p2 = Obj.x obj - 0.01 ∧ Obj.y p2 = Obj.y obj) ∧
    (let spread :=
       0.15 + sqrt (Hand.vx hand * Hand.vx hand + Hand.vy hand * Hand.vy hand) * 0.1 in
     0.15 <= spread ∧
     Obj.vx p1 - Obj.vx p2 = 2 * spread * ((Obj.x p1 - Obj.x obj) / 0.01) ∧
     Obj.vy p1 - Obj.vy p2 = 2 * spread * ((Obj.y p1 - Obj.y obj) / 0.01) ∧
     (Obj.vx p1 - Obj.vx p2) * (Obj.x p1 - Obj.x p2) +
       (Obj.vy p1 - Obj.vy p2) * (Obj.y p1 - Obj.y p2) = 4 * spread * 0.01) ∧
    (sqrt (Hand.vx hand * Hand.vx hand + Hand.vy hand * Hand.vy hand) > 0.01 →
     (Obj.x p1 - Obj.x obj) *
       sqrt (Hand.vx hand * Hand.vx hand + Hand.vy hand * Hand.vy hand) =
       - Hand.vy hand * 0.01 ∧
     (Obj.y p1 - Obj.y obj) *
       sqrt (Hand.vx hand * Hand.vx hand + Hand.vy hand * Hand.vy hand) =
       Hand.vx hand * 0.01).
Proof.
  intros Hl Hg. unfold _splitFruit. rewrite Hl. rewrite decide_False by lia.
  set (sp := sqrt (Hand.vx hand * Hand.vx hand + Hand.vy hand * Hand.vy hand)).
  destruct (decide (sp > 0.01)) as [Hfast | Hslow]; cbn [fold_left];
    unfold splitPiece, generateId, random, alloc, push_object; cbn;
    eexists _, _; (split; [ by rewrite <- app_assoc | ]); cbn;
    (destruct (decide (0%Z = 0%Z)); [ | done ]);
    (destruct (decide (1%Z = 0%Z)); [ done | ]).
  - split; [ split; lia | ]. do 2 (split; [ done | ]).
    split; [ split; lra | ]. split; [ split; lra | ].
    pose proof (unit_perp (Hand.vx hand) (Hand.vy hand)) as Hu. fold sp in Hu.
    specialize (Hu ltac:(lra)).
    split; [ intros _ | split; [ intros ?; lra | split; [ | intros _ ] ] ].
    + split; [ field; lra | ]. split; [ | field; lra ].
      replace ((Obj.x obj + - Hand.vy hand / sp * 1 * 0.01 - Obj.x obj) *
               (Obj.x obj + - Hand.vy hand / sp * 1 * 0.01 - Obj.x obj) +
               (Obj.y obj + Hand.vx hand / sp * 1 * 0.01 - Obj.y obj) *
               (Obj.y obj + Hand.vx hand / sp * 1 * 0.01 - Obj.y obj))
        with (0.01 * 0.01 *
              (- Hand.vy hand / sp * (- Hand.vy hand / sp) +
               Hand.vx hand / sp * (Hand.vx hand / sp))) by ring.
      rewrite Hu. ring.
    + split; [ lra | ]. split; [ field; lra | ]. split; [ field; lra | ].
      transitivity (4 * (0.15 + sp * 0.1) * 0.01 *
                    (- Hand.vy hand / sp * (- Hand.vy hand / sp) +
                     Hand.vx hand / sp * (Hand.vx hand / sp))); [ ring | ].
      rewrite Hu. ring.
    + split; field; lra.
  - assert (Hsp : 0 <= sp) by apply sqrt_pos.
    split; [ split; lia | ]. do 2 (split; [ done | ]).
    split; [ split; lra | ]. split; [ split; lra | ].
    split; [ intros ?; lra | ]. split; [ intros _; repeat split; lra | ].
    split; [ | intros ?; lra ].
    split; [ lra | ]. split; [ field; lra | ]. split; [ field; lra | ring ].
Qed.

Lemma split_pieces_geometry_witness :
  ∃ p1 p2,
    heap (_splitFruit Sample.half Sample.two_objects 0 Sample.hand).1 =
      heap Sample.two_objects ++ [p1; p2] ∧
    (Obj.id p1 = nextId Sample.two_objects + 1 ∧
     Obj.id p2 = nextId Sample.two_objects + 2)%Z ∧
    (Obj.halfSide p1 = Some 0%Z ∧ Obj.halfSide p2 = Some 1%Z) ∧
    (Obj.type p1 = Obj.type Sample.near_obj ∧ Obj.type p2 = Obj.type Sample.near_obj ∧
     Obj.rotation p1 = Obj.rotation Sample.near_obj ∧
     Obj.rotation p2 = Obj.rotation Sample.near_obj) ∧
    (Obj.x p1 + Obj.x p2 = 2 * Obj.x Sample.near_obj ∧
     Obj.y p1 + Obj.y p2 = 2 * Obj.y Sample.near_obj) ∧
    (Obj.vx p1 + Obj.vx p2 =
       2 * (Obj.vx Sample.near_obj + Hand.vx Sample.hand * 0.05) ∧
     Obj.vy p1 + Obj.vy p2 =
       2 * (Obj.vy Sample.near_obj + Hand.vy Sample.hand * 0.05 - 0.05)) ∧
    (sqrt (Hand.vx Sample.hand * Hand.vx Sample.hand +
           Hand.vy Sample.hand * Hand.vy Sample.hand) > 0.01 →
     (Obj.x p1 - Obj.x Sample.near_obj) * Hand.vx Sample.hand +
       (Obj.y p1 - Obj.y Sample.near_obj) * Hand.vy Sample.hand = 0 ∧
     (Obj.x p1 - Obj.x Sample.near_obj) * (Obj.x p1 - Obj.x Sample.near_obj) +
       (Obj.y p1 - Obj.y Sample.near_obj) * (Obj.y p1 - Obj.y Sample.near_obj) =
       0.01 * 0.01 ∧
     (Obj.vx p1 - Obj.vx p2) * Hand.vx Sample.hand +
       (Obj.vy p1 - Obj.vy p2) * Hand.vy Sample.hand = 0) ∧
    (sqrt (Hand.vx Sample.hand * Hand.vx Sample.hand +
           Hand.vy Sample.hand * Hand.vy Sample.hand) <= 0.01 →
     Obj.x p1 = Obj.x Sample.near_obj + 0.01 ∧ Obj.y p1 = Obj.y Sample.near_obj ∧
     Obj.x p2 = Obj.x Sample.near_obj - 0.01 ∧ Obj.y p2 = Obj.y Sample.near_obj) ∧
    (let spread :=
       0.15 + sqrt (Hand.vx Sample.hand * Hand.vx Sample.hand +
                    Hand.vy Sample.hand * Hand.vy Sample.hand) * 0.1 in
     0.15 <= spread ∧
     Obj.vx p1 - Obj.vx p2 =
       2 * spread * ((Obj.x p1 - Obj.x Sample.near_obj) / 0.01) ∧
     Obj.vy p1 - Obj.vy p2 =
       2 * spread * ((Obj.y p1 - Obj.y Sample.near_obj) / 0.01) ∧
     (Obj.vx p1 - Obj.vx p2) * (Obj.x p1 - Obj.x p2) +
       (Obj.vy p1 - Obj.vy p2) * (Obj.y p1 - Obj.y p2) = 4 * spread * 0.01) ∧
    (sqrt (Hand.vx Sample.hand * Hand.vx Sample.hand +
           Hand.vy Sample.hand * Hand.vy Sample.hand) > 0.01 →
     (Obj.x p1 - Obj.x Sample.near_obj) *
       sqrt (Hand.vx Sample.hand * Hand.vx Sample.hand +
             Hand.vy Sample.hand * Hand.vy Sample.hand) =
       - Hand.vy Sample.hand * 0.01 ∧
     (Obj.y p1 - Obj.y Sample.near_obj) *
       sqrt (Hand.vx Sample.hand * Hand.vx Sample.hand +
             Hand.vy Sample.hand * Hand.vy Sample.hand) =
       Hand.vx Sample.hand * 0.01).
Proof.
  apply (split_pieces_geometry Sample.half Sample.two_objects 0 Sample.hand
           Sample.near_obj eq_refl).
  cbn. lia.
Defined.

End Halves.

(** ** What the steps after the physics keep of an object *)

Section StoreRelation.
Import GameEngine.

Variable Q : Obj.t → Obj.t → Prop.
Hypothesis Q_refl : ∀ o, Q o o.
Hypothesis Q_trans : ∀ o1 o2 o3, Q o1 o2 → Q o2 o3 → Q o1 o3.
Hypothesis Q_mark : ∀ ft o, Q o (mark_fading ft o).
Hypothesis Q_active : ∀ b o, Q o (Obj.set_active b o).

Lemma related_refl (h : list Obj.t) : related Q h h.
Proof using Q_refl. intros l o Hl. by exists o. Qed.

Lemma related_trans (h1 h2 h3 : list Obj.t) :
  related Q h1 h2 → related Q h2 h3 → related Q h1 h3.
Proof using Q_trans.
  intros H12 H23 l o Hl. destruct (H12 l o Hl) as (o2 & Ho2 & R2).
  destruct (H23 l o2 Ho2) as (o3 & Ho3 & R3). exists o3. split; [ done | ].
  by eapply Q_trans.
Qed.

Lemma related_app (h more : list Obj.t) : related Q h (h ++ more).
Proof using Q_refl.
  intros l o Hl. exists o. split; [ by apply lookup_app_l_Some | done ].
Qed.

Lemma related_alter (f : Obj.t → Obj.t) (h : list Obj.t) (l : loc) :
  (∀ o, Q o (f o)) → related Q h (alter f l h).
Proof using Q_refl.
  intros Hf l' o Hl'. destruct (decide (l' = l)) as [-> | Hne].
  - exists (f o). by rewrite list_lookup_alter_eq, Hl'.
  - exists o. by rewrite list_lookup_alter_ne.
Qed.

Lemma related_insert (h : list Obj.t) (l : loc) (o o' : Obj.t) :
  h !! l = Some o → Q o o' → related Q h (<[l := o']> h).
Proof using Q_refl.
  intros Hl HR l' o1 Hl'. destruct (decide (l' = l)) as [-> | Hne].
  - exists o'. rewrite list_lookup_insert_eq by (by eapply lookup_lt_Some).
    by simplify_eq.
  - exists o1. by rewrite list_lookup_insert_ne.
Qed.

Lemma clear_fold_related (l : loc) (objs : list loc) :
  ∀ h, related Q h (fold_left (clearOther l) objs h).
Proof using Q_refl Q_trans Q_mark.
  induction objs as [ | other rest IH ]; intros h; cbn [fold_left].
  - apply related_refl.
  - eapply related_trans; [ | apply IH ].
    unfold clearOther. destruct (h !! other) as [ o | ] eqn:Ho; [ | apply related_refl ].
    destruct (bool_decide (other ≠ l) && Obj.active o && negb (Obj.fading o));
      [ | apply related_refl ].
    by eapply related_insert.
Qed.

Lemma resolveBomb_related (l : loc) (s : t) :
  related Q (heap s) (heap (resolveBomb l s)).
Proof using Q_refl Q_trans Q_mark.
  unfold resolveBomb. cbn.
  eapply related_trans; [ | apply clear_fold_related ].
  by apply related_alter.
Qed.

Lemma splitFruit_related (rnd : nat → R) (s : t) (l : loc) (hand : Hand.t) :
  related Q (heap s) (heap (_splitFruit rnd s l hand).1).
Proof using Q_refl Q_mark.
  destruct (heap s !! l) as [ obj | ] eqn:Hl.
  - destruct (Z_lt_ge_dec (Obj.generation obj) 2) as [Hlt | Hge].
    + destruct (splitFruit_pieces rnd s l hand obj Hl Hlt) as (p1 & p2 & _ & -> & _).
      apply related_app.
    + rewrite (splitFruit_terminal rnd s l hand obj Hl Hge). cbn.
      by apply related_alter.
  - unfold _splitFruit. rewrite Hl. apply related_refl.
Qed.

Lemma resolveFruit_related (rnd : nat → R) (hit : CollisionSystem.HitRecord)
    (obj : Obj.t) (s : t) :
  related Q (heap s) (heap (resolveFruit rnd hit obj s).1).
Proof using Q_refl Q_trans Q_mark.
  unfold resolveFruit.
  pose proof (splitFruit_related rnd s (CollisionSystem.object hit)
                (CollisionSystem.hand hit)) as H1.
  destruct (_splitFruit _ _ _ _) as [s1 pieces]. cbn [fst] in H1.
  eapply related_trans; [ exact H1 | ].
  cbn zeta. case_decide; cbn; by apply related_alter.
Qed.

Lemma resolveHits_related (rnd : nat → R) (hs : list CollisionSystem.HitRecord) :
  ∀ s fi, related Q (heap s) (heap (resolveHits rnd hs s fi).1).
Proof using Q_refl Q_trans Q_mark.
  induction hs as [ | hit rest IH ]; intros s fi; cbn [resolveHits].
  - apply related_refl.
  - destruct (heap s !! CollisionSystem.object hit) as [ obj | ]; [ | apply IH ].
    destruct (Obj.isBomb obj).
    + case_decide.
      * apply resolveBomb_related.
      * eapply related_trans; [ apply resolveBomb_related | apply IH ].
    + destruct (Obj.isHeart obj).
      * eapply related_trans; [ | apply IH ].
        unfold resolveHeart. cbn. by apply related_alter.
      * pose proof (resolveFruit_related rnd hit obj s) as H1.
        destruct (resolveFruit rnd hit obj s) as [s1 pieces].
        eapply related_trans; [ exact H1 | apply IH ].
Qed.

Lemma cleanup_related (toRemove : list loc) :
  ∀ s fi, related Q (heap s) (heap (cleanup toRemove s fi).1).
Proof using Q_refl Q_trans Q_active.
  unfold cleanup.
  induction toRemove as [ | l rest IH ]; intros s fi; cbn [fold_left].
  - apply related_refl.
  - eapply related_trans; [ | rewrite (surjective_pairing (cleanupObj (s, fi) l)); apply IH ].
    cbn. by apply related_alter.
Qed.

(** From the end of the physics step to the end of the call. *)
Lemma after_physics_related (rnd : nat → R) (now : R) (hands : Hands)
    (tr : list loc) (s : t) (fi : FrameInfo) :
  related Q (heap s)
    (heap (cleanup tr (resolveHits rnd (collide now hands s).2 (collide now hands s).1 fi).1
             (resolveHits rnd (collide now hands s).2 (collide now hands s).1 fi).2).1).
Proof using Q_refl Q_trans Q_mark Q_active.
  destruct (collide_spec now hands s) as (_ & Hh & _).
  eapply related_trans; [ | apply cleanup_related ].
  rewrite <- Hh. apply resolveHits_related.
Qed.

End StoreRelation.

(** ** Removal *)

Section Removal.
Import GameEngine.

Lemma settled_refl (o : Obj.t) : settled o o.
Proof. split; [ apply ages_refl | done ]. Qed.

Lemma settled_trans (o1 o2 o3 : Obj.t) : settled o1 o2 → settled o2 o3 → settled o1 o3.
Proof.
  intros (A & ? & ? & ? & ? & ?) (B & ? & ? & ? & ? & ?).
  split; [ by eapply ages_trans | ]. repeat split; congruence.
Qed.

Lemma settled_mark (ft : R) (o : Obj.t) : settled o (mark_fading ft o).
Proof. split; [ apply mark_fading_ages | done ]. Qed.

Lemma settled_active (b : bool) (o : Obj.t) : settled o (Obj.set_active b o).
Proof. split; [ apply set_active_ages | done ]. Qed.

Lemma beforeCollision_physics (rnd : nat → R) (dt : R) (s : t) :
  beforeCollision rnd dt s =
  ((physics dt (comboDecay dt (spawnStep rnd dt (ramp s)).1)).1,
   (spawnStep rnd dt (ramp s)).2,
   (physics dt (comboDecay dt (spawnStep rnd dt (ramp s)).1)).2).
Proof.
  unfold beforeCollision. destruct (spawnStep rnd dt (ramp s)) as [s2 sp].
  cbn [fst snd]. by destruct (physics dt (comboDecay dt s2)) as [s4 tr].
Qed.

(** The physics loop queues only listed objects, each as it leaves it:
    active, and past the fade duration or out of bounds. *)
Lemma physics_fold_queue (dt : R) (objs : list loc) :
  ∀ (h : list Obj.t) (tr : list loc),
    NoDup objs →
    (∀ l, l ∈ tr → (l ∉ objs) ∧ ∃ o, h !! l = Some o ∧ out_of_play o) →
    ∀ l, l ∈ (fold_left (physicsObj dt) objs (h, tr)).2 →
      (l ∈ tr ∨ l ∈ objs) ∧
      ∃ o, (fold_left (physicsObj dt) objs (h, tr)).1 !! l = Some o ∧ out_of_play o.
Proof.
  induction objs as [ | l0 rest IH ]; intros h tr Hnd Htr; cbn [fold_left].
  - intros l Hl. split; [ by left | ]. by apply Htr.
  - apply NoDup_cons in Hnd as [Hnin Hnd].
    assert (Hstep : ∀ l, l ∈ (physicsObj dt (h, tr) l0).2 →
              (l ∈ tr ∨ l = l0) ∧ (l ∉ rest) ∧
              ∃ o, (physicsObj dt (h, tr) l0).1 !! l = Some o ∧ out_of_play o).
    { assert (Hold : ∀ l, l ∈ tr → (l ∈ tr ∨ l = l0) ∧ (l ∉ rest) ∧ l ≠ l0 ∧
                          ∃ o, h !! l = Some o ∧ out_of_play o).
      { intros l Hl. destruct (Htr l Hl) as [Hn Ho].
        split; [ by left | ]. split; [ | split; [ | done ] ].
        - intros Hin. apply Hn, elem_of_cons. by right.
        - intros ->. apply Hn, elem_of_cons. by left. }
      unfold physicsObj. destruct (h !! l0) as [ o | ] eqn:Hl0.
      2:{ intros l Hl. destruct (Hold l Hl) as (A & B & _ & C). done. }
      destruct (Obj.active o) eqn:Hact; cbn [negb].
      2:{ intros l Hl. destruct (Hold l Hl) as (A & B & _ & C). done. }
      assert (Hkeep : ∀ o' l, l ∈ tr → (l ∈ tr ∨ l = l0) ∧ (l ∉ rest) ∧
                        ∃ o1, <[l0 := o']> h !! l = Some o1 ∧ out_of_play o1).
      { intros o' l Hl. destruct (Hold l Hl) as (A & B & Hne & C).
        split; [ done | ]. split; [ done | ]. by rewrite list_lookup_insert_ne. }
      assert (Hnew : ∀ o', out_of_play o' →
                (l0 ∈ tr ∨ l0 = l0) ∧ (l0 ∉ rest) ∧
                ∃ o1, <[l0 := o']> h !! l0 = Some o1 ∧ out_of_play o1).
      { intros o' Hout. split; [ by right | ]. split; [ done | ].
        exists o'. by rewrite list_lookup_insert_eq by (by eapply lookup_lt_Some). }
      destruct (Obj.fading o) eqn:Hf; cbn zeta; cbn [fst snd].
      - case_decide as Hq; [ | by apply Hkeep ].
        intros l [Hl | ->%list_elem_of_singleton]%elem_of_app; [ by apply Hkeep | ].
        apply Hnew. unfold out_of_play. cbn. rewrite Hact, Hf. split; [ done | ].
        cbn in Hq. exact Hq.
      - set (o' := integrate dt o).
        assert (Hout : Obj.y o' > 1.2 ∨ Obj.x o' < - 0.15 ∨ Obj.x o' > 1.15 →
                       out_of_play o').
        { intros Hq. unfold out_of_play. subst o'. cbn. rewrite Hact, Hf.
          split; [ done | exact Hq ]. }
        repeat case_decide.
        + intros l [[Hl | ->%list_elem_of_singleton]%elem_of_app
                   | ->%list_elem_of_singleton]%elem_of_app;
            [ by apply Hkeep | apply Hnew, Hout; tauto | apply Hnew, Hout; tauto ].
        + intros l [Hl | ->%list_elem_of_singleton]%elem_of_app;
            [ by apply Hkeep | apply Hnew, Hout; tauto ].
        + intros l [Hl | ->%list_elem_of_singleton]%elem_of_app;
            [ by apply Hkeep | apply Hnew, Hout; tauto ].
        + by apply Hkeep. }
    destruct (physicsObj dt (h, tr) l0) as [h1 tr1]. cbn [fst snd] in Hstep.
    intros l Hl.
    destruct (IH h1 tr1 Hnd) with (l := l) as [Hin Ho]; [ | exact Hl | ].
    { intros l' Hl'. destruct (Hstep l' Hl') as (_ & B & C). done. }
    split; [ | exact Ho ].
    destruct Hin as [Hin | Hin].
    + destruct (Hstep l Hin) as ([A | ->] & _); [ by left | ].
      right. apply elem_of_cons. by left.
    + right. apply elem_of_cons. by right.
Qed.

Lemma physics_queue (dt : R) (s : t) :
  NoDup (objects s) →
  ∀ l, l ∈ (physics dt s).2 →
    l ∈ objects s ∧ ∃ o, heap (physics dt s).1 !! l = Some o ∧ out_of_play o.
Proof.
  intros Hnd l. unfold physics.
  pose proof (physics_fold_queue dt (objects s) (heap s) [] Hnd) as H.
  destruct (fold_left _ _ _) as [h tr]. cbn [fst snd] in *.
  intros Hl. destruct (H ltac:(intros l' Hl'; by apply elem_of_nil in Hl') l Hl)
    as [[Hin | Hin] Ho]; [ by apply elem_of_nil in Hin | done ].
Qed.

Lemma gone_cleanupObj (s : t) (fi : FrameInfo) (l l' : loc) :
  gone s l → gone (cleanupObj (s, fi) l').1 l.
Proof.
  intros [(o & Ho & Ha) Hn]. unfold cleanupObj, modify, gone. cbn. split.
  - destruct (decide (l = l')) as [<- | Hne].
    + eexists. rewrite list_lookup_alter_eq, Ho. by cbn.
    + exists o. by rewrite list_lookup_alter_ne.
  - intros Hin. by apply Hn, (remove_first_subset l').
Qed.

Lemma cleanupObj_gone (s : t) (fi : FrameInfo) (l : loc) :
  NoDup (objects s) → is_Some (heap s !! l) → gone (cleanupObj (s, fi) l).1 l.
Proof.
  intros Hnd [o Ho]. unfold cleanupObj, modify, gone. cbn. split.
  - eexists. rewrite list_lookup_alter_eq, Ho. by cbn.
  - by apply remove_first_NoDup.
Qed.

Lemma cleanup_gone (toRemove : list loc) :
  ∀ s fi,
    NoDup (objects s) →
    (∀ l, l ∈ toRemove → is_Some (heap s !! l)) →
    (∀ l, l ∈ toRemove → gone (cleanup toRemove s fi).1 l) ∧
    (∀ l, gone s l → gone (cleanup toRemove s fi).1 l).
Proof.
  unfold cleanup.
  induction toRemove as [ | l0 rest IH ]; intros s fi Hnd Hv; cbn [fold_left].
  - split; [ | done ]. intros l Hl. by apply elem_of_nil in Hl.
  - rewrite (surjective_pairing (cleanupObj (s, fi) l0)).
    destruct (IH (cleanupObj (s, fi) l0).1 (cleanupObj (s, fi) l0).2) as [IH1 IH2].
    + cbn. by apply remove_first_NoDup.
    + intros l Hl. cbn. apply lookup_lt_is_Some. rewrite length_alter.
      apply lookup_lt_is_Some, Hv, elem_of_cons. by right.
    + split.
      * intros l [-> | Hl]%elem_of_cons; [ | by apply IH1 ].
        apply IH2, cleanupObj_gone; [ done | ]. apply Hv, elem_of_cons. by left.
      * intros l Hg. by apply IH2, gone_cleanupObj.
Qed.

(** X16: hit resolution and cleanup move nothing: an object of the store at
    the end of the physics step has the same position, velocity and
    rotation when [update] returns. *)
Theorem hits_move_nothing (rnd : nat → R) (now dt : R) (hands : Hands) (s : t)
    (l : loc) (o : Obj.t) :
  running s → 0 < timeRemaining s - dt →
  heap (beforeCollision rnd dt (tick dt s)).1.1 !! l = Some o →
  ∃ o', heap (update rnd now dt hands s).1 !! l = Some o' ∧
        Obj.x o' = Obj.x o ∧ Obj.y o' = Obj.y o ∧
        Obj.vx o' = Obj.vx o ∧ Obj.vy o' = Obj.vy o ∧
        Obj.rotation o' = Obj.rotation o.
Proof.
  intros Hrun Ht Hl. rewrite update_running by done. cbv zeta.
  destruct (after_physics_related settled settled_refl settled_trans settled_mark
              settled_active rnd now hands (beforeCollision rnd dt (tick dt s)).2
              (beforeCollision rnd dt (tick dt s)).1.1
              (mkFrame (beforeCollision rnd dt (tick dt s)).1.2 [] []) l o Hl)
    as (o' & Ho' & _ & Hrest).
  by exists o'.
Qed.

(** X17: after a call of [update] on a well-formed live set, every object of
    the frame's [removed] list is inactive and no longer listed, and it
    is fading or out of bounds (below [y = 1.2] or beyond a side
    margin). *)
Theorem frame_removed (rnd : nat → R) (now dt : R) (hands : Hands) (s : t) (l : loc) :
  unit_stream rnd → Live s →
  l ∈ removed (update rnd now dt hands s).2 →
  (l ∉ objects (update rnd now dt hands s).1) ∧
  ∃ o, heap (update rnd now dt hands s).1 !! l = Some o ∧ Obj.active o = false ∧
       (Obj.fading o = true ∨ Obj.y o > 1.2 ∨ Obj.x o < - 0.15 ∨ Obj.x o > 1.15).
Proof.
  intros Hu HL.
  destruct (isGameOver s || isPaused s) eqn:Hstop.
  { rewrite update_stopped by done. intros Hl. by apply elem_of_nil in Hl. }
  apply orb_false_iff in Hstop.
  destruct (Rle_lt_dec (timeRemaining s - dt) 0) as [Hexp | Hrun].
  { rewrite update_expired by done. intros Hl. by apply elem_of_nil in Hl. }
  rewrite update_running by done. cbv zeta.
  rewrite beforeCollision_physics. cbn [fst snd].
  set (sp := spawnStep rnd dt (ramp (tick dt s))).
  set (s3 := comboDecay dt sp.1).
  assert (HL3 : Live s3).
  { apply (tail_live _ _ (comboDecay_tail dt sp.1)).
    apply (tail_live _ _ (spawnStep_tail rnd dt (ramp (tick dt s)) Hu)).
    by apply (Live_scalars s). }
  pose proof (physics_queue dt s3 (live_nodup s3 HL3)) as Hq.
  pose proof (tail_live _ _ (physics_tail dt s3) HL3) as HLb.
  set (b := (physics dt s3).1) in *. set (tr := (physics dt s3).2) in *.
  pose proof (after_physics_related settled settled_refl settled_trans settled_mark
                settled_active rnd now hands tr b (mkFrame sp.2 [] [])) as Hrel.
  pose proof (tail_live _ _ (collide_tail now hands b) HLb) as HLc.
  destruct (collide_spec now hands b) as (_ & Hch & _).
  set (c := collide now hands b) in *.
  pose proof (tail_live _ _ (resolveHits_tail rnd c.2 c.1 (mkFrame sp.2 [] [])) HLc) as HLr.
  pose proof (resolveHits_related settled settled_refl settled_trans settled_mark
                rnd c.2 c.1 (mkFrame sp.2 [] [])) as Hrr.
  pose proof (resolveHits_removed rnd c.2 c.1 (mkFrame sp.2 [] [])) as Hrm.
  set (r := resolveHits rnd c.2 c.1 _) in *.
  destruct (cleanup_spec tr r.1 r.2) as (_ & _ & _ & _ & _ & Hcr).
  cbv zeta in Hcr. rewrite Hcr, Hrm. cbn [removed app].
  intros Hl. destruct (Hq l Hl) as (_ & o0 & Ho0 & Hact & Hout).
  destruct (cleanup_gone tr r.1 r.2 (live_nodup _ HLr)) as [Hgone _].
  { intros l' Hl'. destruct (Hq l' Hl') as (_ & o1 & Ho1 & _).
    rewrite <- Hch in Ho1. destruct (Hrr l' o1 Ho1) as (o2 & Ho2 & _). by eexists. }
  destruct (Hgone l Hl) as [(o & Ho & Ha) Hn].
  split; [ exact Hn | ]. exists o. split; [ exact Ho | ]. split; [ exact Ha | ].
  destruct (Hrel l o0 Ho0) as (o' & Ho' & (_ & Hfade) & Hx & Hy & _).
  rewrite Ho in Ho'. simplify_eq.
  destruct (Obj.fading o0) eqn:Hf.
  - left. by apply Hfade.
  - right. rewrite Hx, Hy. exact Hout.
Qed.

End Removal.

Section RemovalWitness.
Import GameEngine.

Lemma hits_move_nothing_witness :
  ∃ o', heap (update Sample.half 0 1.5 Sample.idle new).1 !! 0%nat = Some o' ∧
        Obj.x o' = Obj.x Sample.lime ∧ Obj.y o' = Obj.y Sample.lime ∧
        Obj.vx o' = Obj.vx Sample.lime ∧ Obj.vy o' = Obj.vy Sample.lime ∧
        Obj.rotation o' = Obj.rotation Sample.lime.
Proof.
  apply (hits_move_nothing Sample.half 0 1.5 Sample.idle new 0 Sample.lime).
  - split; reflexivity.
  - cbn. lra.
  - rewrite first_before. reflexivity.
Defined.

Lemma falling_live : Live Demo.falling.
Proof.
  constructor; cbn.
  - apply NoDup_singleton.
  - intros l ->%list_elem_of_singleton. exists Demo.fallen. cbn.
    split; [ done | ]. split; [ done | lia ].
  - by intros l l' o o' ->%list_elem_of_singleton ->%list_elem_of_singleton.
  - constructor; [ | constructor ].
    constructor; cbn;
      first [ done | lia | lra | by intros [? | ?]
            | (eexists; split; [ reflexivity | ]; unfold FRUIT_TYPES;
               apply elem_of_cons; by left) ].
  - lia.
Qed.

Lemma falling_queue :
  removed (update Sample.half 0 0.01 Sample.idle Demo.falling).2 = [0%nat].
Proof.
  rewrite update_running; [ | done | cbn; lra ]. cbv zeta.
  rewrite beforeCollision_physics. cbn [fst snd].
  rewrite spawnStep_idle.
  2:{ cbn. unfold Rmax, minSpawnInterval, difficultyRate.
      destruct (Rle_dec _ _); lra. }
  cbn [fst snd].
  set (s2 := set_spawnTimer _ _).
  destruct (comboDecay_scalars 0.01 s2) as (Hh & Ho & _).
  set (s3 := comboDecay 0.01 s2) in *.
  assert (Htr : (physics 0.01 s3).2 = [0%nat]).
  { unfold physics. rewrite Hh, Ho. subst s2. cbn [fold_left]. cbn.
    unfold physicsObj. cbn.
    rewrite decide_False by (intros [? | ?]; lra).
    rewrite decide_True by (unfold gravity; lra). done. }
  set (b := (physics 0.01 s3).1) in *.
  destruct (cleanup_spec (physics 0.01 s3).2
              (resolveHits Sample.half (collide 0 Sample.idle b).2
                 (collide 0 Sample.idle b).1 (mkFrame [] [] [])).1
              (resolveHits Sample.half (collide 0 Sample.idle b).2
                 (collide 0 Sample.idle b).1 (mkFrame [] [] [])).2)
    as (_ & _ & _ & _ & _ & Hr).
  cbv zeta in Hr. rewrite Hr, resolveHits_removed, Htr. done.
Qed.

Lemma frame_removed_witness :
  (0%nat ∉ objects (update Sample.half 0 0.01 Sample.idle Demo.falling).1) ∧
  ∃ o, heap (update Sample.half 0 0.01 Sample.idle Demo.falling).1 !! 0%nat = Some o ∧
       Obj.active o = false ∧
       (Obj.fading o = true ∨ Obj.y o > 1.2 ∨ Obj.x o < - 0.15 ∨ Obj.x o > 1.15).
Proof.
  apply (frame_removed Sample.half 0 0.01 Sample.idle Demo.falling 0).
  - apply half_unit.
  - apply falling_live.
  - rewrite falling_queue. apply elem_of_cons. by left.
Defined.

End RemovalWitness.

(** ** Hearts *)

Section Hearts.
Import GameEngine.



End Hearts.

(** * The hand data *)

Section Pose.
Import PoseDetection.

Lemma zero_hand_norm : CollisionSystem.speed_is_norm (Hand.mk 0 0 0 0 0 false).
Proof.
  unfold CollisionSystem.speed_is_norm. cbn.
  replace (0 * 0 + 0 * 0) with 0 by ring. by rewrite sqrt_0.
Qed.

Lemma updateHandData_fields (now : R) (label : CollisionSystem.Side) (x y : R) (s : t) :
  let history := handHistory label s ++ [mkEntry x y now] in
  let history' :=
    if decide (maxHistory < length history)%nat then drop 1 history else history in
  let old := CollisionSystem.hand_of (hands s) label in
  let s' := _updateHandData now label x y s in
  handHistory label s' = history' ∧
  (∀ other, other ≠ label →
     handHistory other s' = handHistory other s ∧
     CollisionSystem.hand_of (hands s') other = CollisionSystem.hand_of (hands s) other) ∧
  CollisionSystem.hand_of (hands s') label =
    (if decide (2 <= length history')%nat then
       match history' !! 0%nat with
       | Some oldest =>
           if decide ((now - et oldest) / 1000 > 0.001) then
             Hand.mk x y ((x - ex oldest) / ((now - et oldest) / 1000))
               ((y - ey oldest) / ((now - et oldest) / 1000))
               (sqrt ((x - ex oldest) / ((now - et oldest) / 1000) *
                      ((x - ex oldest) / ((now - et oldest) / 1000)) +
                      (y - ey oldest) / ((now - et oldest) / 1000) *
                      ((y - ey oldest) / ((now - et oldest) / 1000)))) true
           else Hand.mk x y (Hand.vx old) (Hand.vy old) (Hand.speed old) true
       | None => Hand.mk x y (Hand.vx old) (Hand.vy old) (Hand.speed old) true
       end
     else Hand.mk x y (Hand.vx old) (Hand.vy old) (Hand.speed old) true).
Proof.
  cbv zeta. unfold _updateHandData.
  destruct label; cbn; (split; [ done | ]); (split; [ | done ]);
    intros [ | ] Hne; done.
Qed.

Lemma updated_hand_norm (now : R) (label : CollisionSystem.Side) (x y : R) (s : t) :
  CollisionSystem.speed_is_norm (CollisionSystem.hand_of (hands s) label) →
  CollisionSystem.speed_is_norm
    (CollisionSystem.hand_of (hands (_updateHandData now label x y s)) label).
Proof.
  intros Hn. destruct (updateHandData_fields now label x y s) as (_ & _ & ->).
  repeat case_match; done.
Qed.

Lemma history_bounded (now : R) (label : CollisionSystem.Side) (x y : R) (s : t) :
  (length (handHistory label s) <= maxHistory)%nat →
  (length (handHistory label (_updateHandData now label x y s)) <= maxHistory)%nat.
Proof.
  intros Hlen. destruct (updateHandData_fields now label x y s) as (-> & _).
  case_decide; rewrite ?length_drop, length_app in *; cbn in *; lia.
Qed.

Lemma tracked_spec (s : t) :
  tracked s →
  CollisionSystem.speed_is_norm (left_hand (hands s)) ∧
  CollisionSystem.speed_is_norm (right_hand (hands s)) ∧
  (length (historyLeft s) <= maxHistory)%nat ∧
  (length (historyRight s) <= maxHistory)%nat.
Proof.
  induction 1 as [ | s Ht (IH1 & IH2 & IH3 & IH4) | s now label x y Ht (IH1 & IH2 & IH3 & IH4) ].
  - cbn. split; [ apply zero_hand_norm | ]. split; [ apply zero_hand_norm | ].
    unfold maxHistory. split; lia.
  - done.
  - destruct (updateHandData_fields now label x y s) as (_ & Hother & _).
    cbv zeta in Hother.
    destruct label.
    + destruct (Hother CollisionSystem.SideRight) as [E1 E2]; [ done | ].
      cbn [handHistory CollisionSystem.hand_of] in E1, E2. rewrite E1, E2.
      split; [ by apply (updated_hand_norm now CollisionSystem.SideLeft) | ].
      split; [ done | ].
      split; [ by apply (history_bounded now CollisionSystem.SideLeft) | done ].
    + destruct (Hother CollisionSystem.SideLeft) as [E1 E2]; [ done | ].
      cbn [handHistory CollisionSystem.hand_of] in E1, E2. rewrite E1, E2.
      split; [ done | ].
      split; [ by apply (updated_hand_norm now CollisionSystem.SideRight) | ].
      split; [ done | by apply (history_bounded now CollisionSystem.SideRight) ].
Qed.

(** X19: whatever the detections, both hands that the game reads satisfy
    [speed = sqrt(vx * vx + vy * vy)], and so do the hands that the loop
    passes to the engine, whatever the open-hand flags; neither history
    holds more than [maxHistory] entries. *)
Theorem tracked_hands_norm (s : t) (handOpen : Main.HandOpen) :
  tracked s →
  CollisionSystem.speed_is_norm (left_hand (hands s)) ∧
  CollisionSystem.speed_is_norm (right_hand (hands s)) ∧
  CollisionSystem.speed_is_norm (left_hand (Main.effectiveHands (hands s) handOpen)) ∧
  CollisionSystem.speed_is_norm (right_hand (Main.effectiveHands (hands s) handOpen)) ∧
  (length (historyLeft s) <= maxHistory)%nat ∧
  (length (historyRight s) <= maxHistory)%nat.
Proof.
  intros (H1 & H2 & H3 & H4)%tracked_spec. by repeat split.
Qed.

Lemma tracked_hands_norm_witness :
  CollisionSystem.speed_is_norm
    (left_hand (hands (_updateHandData 16 CollisionSystem.SideLeft 0.5 0.5 new))) ∧
  CollisionSystem.speed_is_norm
    (right_hand (hands (_updateHandData 16 CollisionSystem.SideLeft 0.5 0.5 new))) ∧
  CollisionSystem.speed_is_norm
    (left_hand (Main.effectiveHands
                  (hands (_updateHandData 16 CollisionSystem.SideLeft 0.5 0.5 new))
                  (Main.mkOpen true false))) ∧
  CollisionSystem.speed_is_norm
    (right_hand (Main.effectiveHands
                   (hands (_updateHandData 16 CollisionSystem.SideLeft 0.5 0.5 new))
                   (Main.mkOpen true false))) ∧
  (length (historyLeft (_updateHandData 16 CollisionSystem.SideLeft 0.5 0.5 new))
     <= maxHistory)%nat ∧
  (length (historyRight (_updateHandData 16 CollisionSystem.SideLeft 0.5 0.5 new))
     <= maxHistory)%nat.
Proof.
  apply (tracked_hands_norm (_updateHandData 16 CollisionSystem.SideLeft 0.5 0.5 new)
           (Main.mkOpen true false)).
  apply tracked_update, tracked_new.
Defined.

(** X20: [_updateHandData] moves the hand to the new position and brings it
    into view, and leaves the other hand alone.  The first sample of a
    history, and a sample taken within a millisecond of the oldest one
    kept, leave the velocity and the speed as they were; otherwise the
    velocity is the displacement since the oldest sample kept, per
    second. *)
Theorem updateHandData_velocity (now : R) (label : CollisionSystem.Side) (x y : R)
    (s : t) :
  let hand := CollisionSystem.hand_of (hands s) label in
  let s' := _updateHandData now label x y s in
  let hand' := CollisionSystem.hand_of (hands s') label in
  Hand.x hand' = x ∧ Hand.y hand' = y ∧ Hand.visible hand' = true ∧
  (∀ other, other ≠ label →
     CollisionSystem.hand_of (hands s') other = CollisionSystem.hand_of (hands s) other) ∧
  (handHistory label s = [] →
   handHistory label s' = [mkEntry x y now] ∧
   Hand.vx hand' = Hand.vx hand ∧ Hand.vy hand' = Hand.vy hand ∧
   Hand.speed hand' = Hand.speed hand) ∧
  (∀ oldest, handHistory label s ≠ [] → handHistory label s' !! 0%nat = Some oldest →
     (now - et oldest > 1 →
      Hand.vx hand' * ((now - et oldest) / 1000) = x - ex oldest ∧
      Hand.vy hand' * ((now - et oldest) / 1000) = y - ey oldest) ∧
     (now - et oldest <= 1 →
      Hand.vx hand' = Hand.vx hand ∧ Hand.vy hand' = Hand.vy hand ∧
      Hand.speed hand' = Hand.speed hand)).
Proof.
  cbv zeta. destruct (updateHandData_fields now label x y s) as (Hh & Hother & Hhand).
  cbv zeta in Hh, Hother, Hhand. rewrite Hhand, Hh.
  split; [ by repeat case_match | ]. split; [ by repeat case_match | ].
  split; [ by repeat case_match | ]. split; [ intros other Hne; by apply Hother | ].
  split.
  - intros ->. cbn. done.
  - intros oldest Hne Ho.
    assert (Hlen : (2 <= length (if decide (maxHistory <
                      length (handHistory label s ++ [mkEntry x y now]))%nat
                    then drop 1 (handHistory label s ++ [mkEntry x y now])
                    else handHistory label s ++ [mkEntry x y now]))%nat).
    { destruct (handHistory label s) as [ | e1 rest ]; [ done | ].
      case_decide as Hd; rewrite ?length_drop, ?length_app in *; cbn in *;
        unfold maxHistory in *; lia. }
    rewrite decide_True by exact Hlen. rewrite Ho. split.
    + intros Hdt. rewrite decide_True by lra. cbn. split; field; lra.
    + intros Hdt. rewrite decide_False by lra. done.
Qed.

Lemma place_dist (mirror : bool) (k a b c : R) (p q : Landmark) :
  0 <= k → dist3 (place mirror k a b c p) (place mirror k a b c q) = k * dist3 p q.
Proof.
  intros Hk. unfold dist3, place.
  set (d := (lx p - lx q) * (lx p - lx q) + (ly p - ly q) * (ly p - ly q) +
            (lz p - lz q) * (lz p - lz q)).
  assert (Hd : 0 <= d).
  { subst d. pose proof (Rle_0_sqr (lx p - lx q)). pose proof (Rle_0_sqr (ly p - ly q)).
    pose proof (Rle_0_sqr (lz p - lz q)). unfold Rsqr in *. lra. }
  replace (sqrt _) with (sqrt (k * k * d)).
  - rewrite sqrt_mult by nra. by rewrite sqrt_square.
  - f_equal. subst d. destruct mirror; cbn; ring.
Qed.

Lemma countFinger_place (mirror : bool) (k a b c : R) (lm : list Landmark)
    (acc : option Z) (ids : nat * nat) :
  0 < k →
  countFinger (place mirror k a b c <$> lm) acc ids = countFinger lm acc ids.
Proof.
  intros Hk. unfold countFinger. rewrite !list_lookup_fmap.
  destruct acc as [ n | ]; [ | done ].
  destruct (lm !! 0%nat) as [ wrist | ]; [ | done ].
  destruct (lm !! ids.1) as [ tip | ]; [ | done ].
  destruct (lm !! ids.2) as [ mcp | ]; [ | done ].
  cbn. rewrite !place_dist by lra.
  pose proof (sqrt_pos ((lx mcp - lx wrist) * (lx mcp - lx wrist) +
                        (ly mcp - ly wrist) * (ly mcp - ly wrist) +
                        (lz mcp - lz wrist) * (lz mcp - lz wrist))) as Hm.
  fold (dist3 mcp wrist) in Hm.
  destruct (decide (dist3 tip wrist > dist3 mcp wrist * 1.15)) as [Hgt | Hle].
  - rewrite decide_True; [ done | ]. nra.
  - rewrite decide_False; [ done | ]. nra.
Qed.

(** X21: the verdict of [_isHandOpen] does not depend on where the hand is in
    the image, on its size there, or on whether the image is mirrored. *)
Theorem isHandOpen_invariant (mirror : bool) (k a b c : R) (lm : list Landmark) :
  0 < k → _isHandOpen (map (place mirror k a b c) lm) = _isHandOpen lm.
Proof.
  intros Hk. unfold _isHandOpen.
  replace (fold_left (countFinger (map (place mirror k a b c) lm)) (zip tipIds mcpIds)
             (Some 0%Z))
    with (fold_left (countFinger lm) (zip tipIds mcpIds) (Some 0%Z)); [ done | ].
  generalize (Some 0%Z). induction (zip tipIds mcpIds) as [ | ids rest IH ];
    intros acc; cbn [fold_left]; [ done | ].
  rewrite IH. f_equal. symmetry. by apply countFinger_place.
Qed.

Lemma isHandOpen_invariant_witness :
  _isHandOpen (map (place true 2 1 0 0) (replicate 21 (mkLandmark 0.5 0.5 0))) =
  _isHandOpen (replicate 21 (mkLandmark 0.5 0.5 0)).
Proof.
  apply (isHandOpen_invariant true 2 1 0 0 (replicate 21 (mkLandmark 0.5 0.5 0))). lra.
Defined.

Lemma countFinger_none (lm : list Landmark) (l : list (nat * nat)) :
  fold_left (countFinger lm) l None = None.
Proof. induction l as [ | ids rest IH ]; [ done | ]. cbn [fold_left]. exact IH. Qed.

Lemma countFinger_some (lm : list Landmark) (l : list (nat * nat)) :
  (∀ ids, ids ∈ l → (ids.1 < length lm)%nat ∧ (ids.2 < length lm)%nat) →
  (0 < length lm)%nat →
  ∀ n, is_Some (fold_left (countFinger lm) l (Some n)).
Proof.
  intros Hl H0. induction l as [ | ids rest IH ]; intros n; cbn [fold_left]; [ done | ].
  destruct (Hl ids) as [H1 H2]; [ apply elem_of_cons; by left | ].
  unfold countFinger at 2.
  destruct (lookup_lt_is_Some_2 lm 0 H0) as [w ->].
  destruct (lookup_lt_is_Some_2 lm ids.1 H1) as [tp ->].
  destruct (lookup_lt_is_Some_2 lm ids.2 H2) as [mc ->].
  cbn zeta. case_decide; apply IH; intros ids' Hin; apply Hl, elem_of_cons; by right.
Qed.

(** X22: [_isHandOpen] fails (reads a coordinate of [undefined]) exactly on a
    list of fewer than 21 landmarks. *)
Theorem isHandOpen_defined (lm : list Landmark) :
  _isHandOpen lm = None ↔ (length lm < 21)%nat.
Proof.
  unfold _isHandOpen. split.
  - intros Hnone. destruct (Nat.lt_ge_cases (length lm) 21) as [ | Hge ]; [ done | ].
    exfalso.
    destruct (countFinger_some lm (zip tipIds mcpIds)) with (n := 0%Z) as [n Hn].
    + intros ids Hin. unfold tipIds, mcpIds in Hin. cbn in Hin.
      repeat (apply elem_of_cons in Hin as [-> | Hin]; [ cbn; lia | ]).
      by apply elem_of_nil in Hin.
    + lia.
    + by rewrite Hn in Hnone.
  - intros Hlt. unfold tipIds, mcpIds. cbn [zip zip_with fold_left].
    assert (H20 : lm !! 20%nat = None) by (apply lookup_ge_None; lia).
    set (acc := countFinger lm (countFinger lm (countFinger lm (Some 0%Z) _) _) _).
    assert (Hlast : countFinger lm acc (20%nat, 17%nat) = None).
    { unfold countFinger. cbn [fst snd]. rewrite H20.
      destruct acc; [ | done ]. by destruct (lm !! 0%nat). }
    by rewrite Hlast.
Qed.

End Pose.

(** * The game loop *)

Section Loop.
Import GameEngine.

Lemma update_paused (rnd : nat → R) (now dt : R) (hands : Hands) (s : t) :
  isPaused (update rnd now dt hands s).1 = isPaused s.
Proof.
  destruct (isGameOver s || isPaused s) eqn:Hstop.
  { by rewrite update_stopped. }
  apply orb_false_iff in Hstop.
  destruct (Rle_lt_dec (timeRemaining s - dt) 0) as [Hexp | Hrun].
  { by rewrite update_expired. }
  rewrite update_running by done. cbv zeta.
  destruct (beforeCollision_fields rnd dt (tick dt s)) as (_ & _ & _ & Hp & _).
  pose proof (tail_safe rnd now hands (beforeCollision rnd dt (tick dt s)).2
                (beforeCollision rnd dt (tick dt s)).1.1
                (mkFrame (beforeCollision rnd dt (tick dt s)).1.2 [] [])) as Hsafe.
  cbv zeta in Hsafe. destruct Hsafe as [_ _ S3 _ _ _ _ _].
  rewrite S3, Hp. done.
Qed.

Lemma update_elapsed (rnd : nat → R) (now dt : R) (hands : Hands) (s : t) :
  elapsed (update rnd now dt hands s).1 =
  if isGameOver s || isPaused s then elapsed s else elapsed s + dt.
Proof.
  destruct (isGameOver s || isPaused s) eqn:Hstop.
  { by rewrite update_stopped. }
  apply orb_false_iff in Hstop.
  destruct (Rle_lt_dec (timeRemaining s - dt) 0) as [Hexp | Hrun].
  { by rewrite update_expired. }
  rewrite update_running by done. cbv zeta.
  destruct (beforeCollision_fields rnd dt (tick dt s)) as (_ & _ & _ & _ & He & _).
  pose proof (tail_safe rnd now hands (beforeCollision rnd dt (tick dt s)).2
                (beforeCollision rnd dt (tick dt s)).1.1
                (mkFrame (beforeCollision rnd dt (tick dt s)).1.2 [] [])) as Hsafe.
  cbv zeta in Hsafe. destruct Hsafe as [_ S2 _ _ _ _ _ _].
  rewrite S2, He. done.
Qed.

Lemma frameDt_bounds (timestamp lastTime : R) :
  Main.frameDt timestamp lastTime <= 0.05 ∧
  (lastTime <= timestamp → 0 <= Main.frameDt timestamp lastTime).
Proof.
  unfold Main.frameDt, Rmin. destruct (Rle_dec _ _); split; lra.
Qed.

Lemma gameLoop_running (rnd : nat → R) (now timestamp : R) (hands : Hands)
    (handOpen : Main.HandOpen) (m : Main.t) :
  Main.running m = true →
  Main.gameLoop rnd now timestamp hands handOpen m =
  let r := update rnd now (Main.frameDt timestamp (Main.lastTime m))
             (Main.effectiveHands hands handOpen) (Main.engine m) in
  (Main.mk r.1 (negb (isGameOver r.1)) timestamp, Some r.2).
Proof.
  intros Hr. unfold Main.gameLoop. rewrite Hr. cbn [negb]. cbv zeta.
  destruct (update _ _ _ _ _) as [e fi]. cbn [fst snd].
  by destruct (isGameOver e).
Qed.

Lemma gameLoop_stopped (rnd : nat → R) (now timestamp : R) (hands : Hands)
    (handOpen : Main.HandOpen) (m : Main.t) :
  Main.running m = false →
  Main.gameLoop rnd now timestamp hands handOpen m = (m, None).
Proof. intros Hr. unfold Main.gameLoop. by rewrite Hr. Qed.

(** X23: every engine state of a session of the page is a reachable state of
    the engine; the loop runs only while the game is neither over nor
    paused; and a paused game is never over. *)
Theorem session_invariant (rnd : nat → R) (m : Main.t) :
  Main.session rnd m →
  reachable rnd (Main.engine m) ∧
  (Main.running m = true →
   isGameOver (Main.engine m) = false ∧ isPaused (Main.engine m) = false) ∧
  (isPaused (Main.engine m) = true → isGameOver (Main.engine m) = false).
Proof.
  induction 1 as [ | m now Hs (IH1 & IH2 & IH3) | m now Hs (IH1 & IH2 & IH3)
                   | m now ts hands handOpen Hs (IH1 & IH2 & IH3) Hu Hts ].
  - cbn. split; [ apply reach_new | done ].
  - cbn. split; [ by apply reach_reset | done ].
  - unfold Main.togglePause.
    destruct (isGameOver (Main.engine m)) eqn:Hov.
    { split; [ done | ]. split.
      - intros Hr. destruct (IH2 Hr) as [E _]. congruence.
      - intros Hp. specialize (IH3 Hp). congruence. }
    destruct (isPaused (Main.engine m)) eqn:Hpa; cbn.
    + split; [ by apply reach_pause | ]. by rewrite Hov.
    + split; [ by apply reach_pause | ]. by rewrite Hov.
  - destruct (Main.running m) eqn:Hr.
    + rewrite gameLoop_running by done. cbv zeta. cbn [fst Main.engine Main.running].
      destruct (IH2 eq_refl) as [Hov Hpa].
      destruct (frameDt_bounds ts (Main.lastTime m)) as [_ Hdt].
      split; [ apply reach_update; auto | ].
      rewrite update_paused, Hpa. split; [ | done ].
      intros Hn. split; [ | done ]. by apply negb_true_iff.
    + rewrite gameLoop_stopped by done. cbn [fst]. rewrite Hr. done.
Qed.

Lemma session_invariant_witness :
  reachable Sample.half (Main.engine (Main.startGame 0 Main.init)) ∧
  (Main.running (Main.startGame 0 Main.init) = true →
   isGameOver (Main.engine (Main.startGame 0 Main.init)) = false ∧
   isPaused (Main.engine (Main.startGame 0 Main.init)) = false) ∧
  (isPaused (Main.engine (Main.startGame 0 Main.init)) = true →
   isGameOver (Main.engine (Main.startGame 0 Main.init)) = false).
Proof.
  apply (session_invariant Sample.half (Main.startGame 0 Main.init)).
  apply Main.session_start, Main.session_init.
Defined.

(** X24: a frame of the loop reports a hit only for a hand that is open, in
    view and at least as fast as the slicing speed: a fist never
    slices. *)
Theorem gameLoop_hits_open (rnd : nat → R) (now timestamp : R) (hands : Hands)
    (handOpen : Main.HandOpen) (m : Main.t) (fi : FrameInfo)
    (h : CollisionSystem.HitRecord) :
  (Main.gameLoop rnd now timestamp hands handOpen m).2 = Some fi →
  h ∈ hits fi →
  (match CollisionSystem.side h with
   | CollisionSystem.SideLeft => Main.open_left handOpen
   | CollisionSystem.SideRight => Main.open_right handOpen
   end) = true ∧
  Hand.visible (CollisionSystem.hand_of hands (CollisionSystem.side h)) = true ∧
  CollisionSystem.minSliceSpeed <=
    Hand.speed (CollisionSystem.hand_of hands (CollisionSystem.side h)).
Proof.
  destruct (Main.running m) eqn:Hr.
  2:{ by rewrite gameLoop_stopped. }
  rewrite gameLoop_running by done. cbv zeta. cbn [snd]. intros [= <-] Hin.
  destruct (update_hits_spec rnd now (Main.frameDt timestamp (Main.lastTime m))
              (Main.effectiveHands hands handOpen) (Main.engine m)) as [_ Hall].
  destruct (Hall h Hin) as (Hhand & Hv & Hsp & _).
  rewrite Hhand in Hv, Hsp.
  destruct (CollisionSystem.side h); cbn in Hv, Hsp |- *;
    apply andb_true_iff in Hv as [Hv Ho]; done.
Qed.

Lemma second_frame_hits :
  hits (update Sample.half 0 0 Sample.strike Sample.after_first).2 = [Sample.lime_hit].
Proof.
  rewrite update_running; [ | done | cbn; lra ]. cbv zeta.
  rewrite second_before. cbn [fst snd]. rewrite second_collide. cbn [fst snd].
  rewrite (resolveHits_fruit Sample.half Sample.lime_hit [] Sample.struck
             (mkFrame [] [] []) Sample.lime eq_refl eq_refl eq_refl).
  reflexivity.
Qed.

Lemma loop_frame_hits :
  hits (update Sample.half 0 (Main.frameDt 0 0)
          (Main.effectiveHands Sample.strike (Main.mkOpen true false))
          Sample.after_first).2 = [Sample.lime_hit].
Proof.
  replace (Main.frameDt 0 0) with 0.
  - exact second_frame_hits.
  - unfold Main.frameDt, Rmin. destruct (Rle_dec _ _); lra.
Qed.

Lemma gameLoop_hits_open_witness :
  (match CollisionSystem.side Sample.lime_hit with
   | CollisionSystem.SideLeft => Main.open_left (Main.mkOpen true false)
   | CollisionSystem.SideRight => Main.open_right (Main.mkOpen true false)
   end) = true ∧
  Hand.visible
    (CollisionSystem.hand_of Sample.strike (CollisionSystem.side Sample.lime_hit)) = true ∧
  CollisionSystem.minSliceSpeed <=
    Hand.speed
      (CollisionSystem.hand_of Sample.strike (CollisionSystem.side Sample.lime_hit)).
Proof.
  apply (gameLoop_hits_open Sample.half 0 0 Sample.strike (Main.mkOpen true false)
           (Main.mk Sample.after_first true 0)
           (update Sample.half 0 (Main.frameDt 0 0)
              (Main.effectiveHands Sample.strike (Main.mkOpen true false))
              Sample.after_first).2
           Sample.lime_hit).
  - rewrite gameLoop_running by reflexivity. reflexivity.
  - rewrite loop_frame_hits. apply elem_of_cons. by left.
Defined.

(** X25: a frame of the loop whose timestamp is not before the last one
    advances the time played by at most 50 ms, and not at all when the
    loop is stopped. *)
Theorem frame_time_bounded (rnd : nat → R) (now timestamp : R) (hands : Hands)
    (handOpen : Main.HandOpen) (m : Main.t) :
  Main.lastTime m <= timestamp →
  elapsed (Main.engine m) <=
    elapsed (Main.engine (Main.gameLoop rnd now timestamp hands handOpen m).1) <=
    elapsed (Main.engine m) + 0.05 ∧
  (Main.running m = false →
   Main.gameLoop rnd now timestamp hands handOpen m = (m, None)).
Proof.
  intros Hts. split; [ | apply gameLoop_stopped ].
  destruct (Main.running m) eqn:Hr.
  - rewrite gameLoop_running by done. cbv zeta. cbn [fst Main.engine].
    rewrite update_elapsed.
    destruct (frameDt_bounds timestamp (Main.lastTime m)) as [H1 H2].
    specialize (H2 Hts). destruct (_ || _); lra.
  - rewrite gameLoop_stopped by done. cbn [fst]. lra.
Qed.

Lemma frame_time_bounded_witness :
  elapsed (Main.engine (Main.startGame 0 Main.init)) <=
    elapsed (Main.engine (Main.gameLoop Sample.half 0 16 Sample.idle
                            (Main.mkOpen false false) (Main.startGame 0 Main.init)).1) <=
    elapsed (Main.engine (Main.startGame 0 Main.init)) + 0.05 ∧
  (Main.running (Main.startGame 0 Main.init) = false →
   Main.gameLoop Sample.half 0 16 Sample.idle (Main.mkOpen false false)
     (Main.startGame 0 Main.init) = (Main.startGame 0 Main.init, None)).
Proof.
  apply (frame_time_bounded Sample.half 0 16 Sample.idle (Main.mkOpen false false)
           (Main.startGame 0 Main.init)).
  cbn. lra.
Defined.

End Loop.

(** * The object pool *)

Section PoolProps.
Import ObjectPool.

Context {A : Type} (factory : nat → A) (resetFn : A → A).

(** [pool_ok] as a permutation: the pooled and the active objects are
    the cells of the store. *)
Lemma pool_ok_perm (s : t A) :
  pool_ok s ↔ pool s ++ active s ≡ₚ seq 0 (length (store s)).
Proof.
  unfold pool_ok. split.
  - intros [Hnd Hin]. apply NoDup_Permutation; [ done | apply NoDup_seq | ].
    intros x. rewrite Hin, elem_of_seq. lia.
  - intros Hp. split.
    + rewrite Hp. apply NoDup_seq.
    + intros x. rewrite Hp, elem_of_seq. lia.
Qed.

Lemma remove_first_perm (x : nat) (a : list nat) :
  x ∈ a → a ≡ₚ x :: GameEngine.remove_first x a.
Proof.
  induction a as [ | y rest IH ]; cbn; [ by intros ?%elem_of_nil | ].
  case_decide as Hy; [ by subst | ].
  intros [-> | Hin]%elem_of_cons; [ done | ].
  rewrite (IH Hin) at 1. apply Permutation_swap.
Qed.

Lemma remove_first_absent (x : nat) (a : list nat) :
  x ∉ a → GameEngine.remove_first x (a ++ [x]) = a.
Proof.
  induction a as [ | y rest IH ]; cbn; intros Hn.
  - by rewrite decide_True.
  - rewrite decide_False.
    + f_equal. apply IH. intros Hin. apply Hn, elem_of_cons. by right.
    + intros ->. apply Hn, elem_of_cons. by left.
Qed.

Lemma acquire_pooled (s : t A) (p : list nat) (obj : nat) :
  pool s = p ++ [obj] →
  acquire factory s = (obj, mk (store s) p (active s ++ [obj])).
Proof.
  intros Hp. unfold acquire. rewrite Hp, last_snoc. cbn.
  by rewrite removelast_last.
Qed.

Lemma acquire_created (s : t A) :
  pool s = [] →
  acquire factory s =
  (length (store s),
   mk (store s ++ [factory (length (store s))]) []
     (active s ++ [length (store s)])).
Proof. intros Hp. unfold acquire, create. by rewrite Hp. Qed.

Lemma pool_cases (s : t A) : pool s = [] ∨ ∃ p obj, pool s = p ++ [obj].
Proof.
  destruct (last (pool s)) as [ obj | ] eqn:Hl.
  - right. apply last_Some in Hl as [p Hp]. by exists p, obj.
  - left. by apply last_None.
Qed.

Lemma acquire_ok (s : t A) : pool_ok s → pool_ok (acquire factory s).2.
Proof.
  rewrite !pool_ok_perm. intros Hp.
  destruct (pool_cases s) as [He | (p & obj & He)].
  - rewrite acquire_created by done. cbn. rewrite He in Hp. cbn in Hp.
    rewrite length_app. cbn. rewrite Nat.add_1_r, seq_S. cbn. by rewrite Hp.
  - rewrite (acquire_pooled s p obj He). cbn. rewrite <- Hp, He.
    rewrite <- !app_assoc. apply Permutation_app_head, Permutation_app_comm.
Qed.

Lemma release_ok (s : t A) (obj : nat) :
  obj ∈ active s → pool_ok s → pool_ok (release resetFn obj s).
Proof.
  rewrite !pool_ok_perm. intros Hin Hp. unfold release. cbn.
  rewrite length_alter, <- Hp. rewrite (remove_first_perm obj (active s) Hin) at 2.
  rewrite <- app_assoc. done.
Qed.

Lemma releaseAll_fold (a : list nat) :
  ∀ s : t A, active s = a →
    active (fold_left (releaseLast resetFn) (reverse a) s) = [] ∧
    pool (fold_left (releaseLast resetFn) (reverse a) s) = pool s ++ reverse a ∧
    store (fold_left (releaseLast resetFn) (reverse a) s) =
      fold_left (λ st x, alter resetFn x st) (reverse a) (store s).
Proof.
  induction a as [ | x a IH ] using rev_ind; intros s Ha.
  - cbn. by rewrite app_nil_r.
  - rewrite reverse_snoc. cbn [fold_left].
    destruct (IH (releaseLast resetFn s x)) as (I1 & I2 & I3).
    { cbn. by rewrite Ha, removelast_last. }
    rewrite I1, I2, I3. cbn. by rewrite <- app_assoc.
Qed.

Lemma alter_fold_length (l : list nat) :
  ∀ st : list A, length (fold_left (λ st x, alter resetFn x st) l st) = length st.
Proof.
  induction l as [ | x l IH ]; intros st; cbn; [ done | ].
  by rewrite IH, length_alter.
Qed.

Lemma alter_fold_lookup (l : list nat) :
  NoDup l →
  ∀ (st : list A) (i : nat),
    fold_left (λ st x, alter resetFn x st) l st !! i =
    if decide (i ∈ l) then resetFn <$> st !! i else st !! i.
Proof.
  induction 1 as [ | x l Hnin Hnd IH ]; intros st i; cbn [fold_left].
  - by rewrite decide_False by apply not_elem_of_nil.
  - rewrite IH. destruct (decide (i = x)) as [-> | Hne].
    + rewrite decide_False by done.
      rewrite decide_True by (apply elem_of_cons; by left).
      apply list_lookup_alter_eq.
    + rewrite list_lookup_alter_ne by done.
      destruct (decide (i ∈ l)) as [Hin | Hnin'].
      * rewrite decide_True by (apply elem_of_cons; by right). done.
      * rewrite decide_False; [ done | ].
        intros [-> | Hin]%elem_of_cons; done.
Qed.

Lemma releaseAll_ok (s : t A) : pool_ok s → pool_ok (releaseAll resetFn s).
Proof.
  rewrite !pool_ok_perm. intros Hp. unfold releaseAll.
  destruct (releaseAll_fold (active s) s eq_refl) as (-> & -> & ->).
  rewrite alter_fold_length, app_nil_r, <- Hp.
  apply Permutation_app_head. by rewrite reverse_Permutation.
Qed.

Lemma fill_spec (n : nat) :
  ∀ s : t A,
    store (fill factory n s) = store s ++ (factory <$> seq (length (store s)) n) ∧
    pool (fill factory n s) = pool s ++ seq (length (store s)) n ∧
    active (fill factory n s) = active s.
Proof.
  induction n as [ | n IH ]; intros s; cbn [fill].
  - cbn. by rewrite !app_nil_r.
  - cbn. destruct (IH (mk (store s ++ [factory (length (store s))])
                         (pool s ++ [length (store s)]) (active s)))
      as (I1 & I2 & I3).
    rewrite I1, I2, I3. cbn. rewrite length_app. cbn. rewrite Nat.add_1_r.
    by rewrite <- !app_assoc.
Qed.

Lemma new_ok (n : Z) : pool_ok (new factory n).
Proof.
  apply pool_ok_perm. unfold new.
  destruct (fill_spec (Z.to_nat n) (mk [] [] [])) as (-> & -> & ->).
  cbn. by rewrite app_nil_r, length_fmap, length_seq.
Qed.

(** X26: the constructor pre-allocates [initialSize] distinct objects, in
    order of creation, and none is active; a negative size gives an
    empty pool. *)
Theorem new_preallocates (n : Z) :
  store (new factory n) = (factory <$> seq 0 (Z.to_nat n)) ∧
  pool (new factory n) = seq 0 (Z.to_nat n) ∧
  getActive (new factory n) = [].
Proof.
  unfold new, getActive.
  by destruct (fill_spec (Z.to_nat n) (mk [] [] [])) as (-> & -> & ->).
Qed.

(** X27: as long as only active objects are released, every object the pool
    has created is either pooled or active, and only once: the pool
    never hands out an object that is already in use. *)
Theorem pool_conserved (s : t A) :
  used factory resetFn s →
  pool_ok s ∧
  (length (pool s) + length (active s) = length (store s))%nat ∧
  (acquire factory s).1 ∉ active s.
Proof.
  intros Hu.
  assert (Hok : pool_ok s).
  { induction Hu as [ n | s Hu IH | s obj Hu IH Hin | s Hu IH ].
    - apply new_ok.
    - by apply acquire_ok.
    - by apply release_ok.
    - by apply releaseAll_ok. }
  split; [ exact Hok | ]. split.
  - apply pool_ok_perm in Hok. apply Permutation_length in Hok.
    by rewrite length_app, length_seq in Hok.
  - destruct Hok as [Hnd Hin].
    destruct (pool_cases s) as [He | (p & obj & He)].
    + rewrite acquire_created by done. cbn. intros Ha.
      assert (Hlt : (length (store s) < length (store s))%nat); [ | lia ].
      apply Hin, elem_of_app. by right.
    + rewrite (acquire_pooled s p obj He). cbn. intros Ha.
      apply NoDup_app in Hnd as (_ & Hdis & _). apply (Hdis obj); [ | done ].
      rewrite He. apply elem_of_app. right. by apply list_elem_of_singleton.
Qed.

(** X28: releasing what was just acquired restores the active list, and the
    pool too when it was not empty; the object comes from the end of the
    pool, or is created when the pool is empty. *)
Theorem acquire_release_round_trip (s : t A) :
  (acquire factory s).1 ∉ active s →
  active (acquire factory s).2 = active s ++ [(acquire factory s).1] ∧
  active (release resetFn (acquire factory s).1 (acquire factory s).2) = active s ∧
  (∀ p obj, pool s = p ++ [obj] →
     (acquire factory s).1 = obj ∧ pool (acquire factory s).2 = p ∧
     store (acquire factory s).2 = store s ∧
     pool (release resetFn (acquire factory s).1 (acquire factory s).2) = pool s) ∧
  (pool s = [] →
   (acquire factory s).1 = length (store s) ∧
   store (acquire factory s).2 = store s ++ [factory (length (store s))] ∧
   pool (release resetFn (acquire factory s).1 (acquire factory s).2) =
     [(acquire factory s).1]).
Proof.
  intros Hfresh.
  destruct (pool_cases s) as [He | (p & obj & He)].
  - rewrite acquire_created in Hfresh |- * by done. cbn in Hfresh |- *.
    split; [ done | ]. split; [ by apply remove_first_absent | ].
    split; [ | done ]. intros p obj Hp. rewrite He in Hp. by destruct p.
  - rewrite (acquire_pooled s p obj He) in Hfresh |- *. cbn in Hfresh |- *.
    split; [ done | ]. split; [ by apply remove_first_absent | ].
    split.
    + intros p' obj' Hp. rewrite He in Hp. apply app_inj_tail in Hp as [-> ->].
      by rewrite He.
    + intros Hnil. rewrite He in Hnil. by destruct p.
Qed.

(** X29: [release] does not check that the object is active: released twice,
    an object is pooled twice, and the next two calls of [acquire] hand
    it out twice. *)
Theorem double_release_aliases (s : t A) (obj : nat) :
  (acquire factory (release resetFn obj (release resetFn obj s))).1 = obj ∧
  (acquire factory
     (acquire factory (release resetFn obj (release resetFn obj s))).2).1 = obj ∧
  active (acquire factory (acquire factory (release resetFn obj (release resetFn obj s))).2).2 =
    active (release resetFn obj (release resetFn obj s)) ++ [obj; obj].
Proof.
  set (s2 := release resetFn obj (release resetFn obj s)).
  assert (Hp : pool s2 = (pool s ++ [obj]) ++ [obj]) by done.
  rewrite (acquire_pooled s2 (pool s ++ [obj]) obj Hp). cbn [fst snd].
  rewrite (acquire_pooled
             (mk (store s2) (pool s ++ [obj])
                (active s2 ++ [obj]))
             (pool s) obj eq_refl). cbn.
  by rewrite <- app_assoc.
Qed.

(** X30: [releaseAll] empties the active list and pools its objects, last
    one first; when no object is listed twice it resets each active
    object once and touches no other. *)
Theorem releaseAll_empties (s : t A) :
  getActive (releaseAll resetFn s) = [] ∧
  pool (releaseAll resetFn s) = pool s ++ reverse (active s) ∧
  length (store (releaseAll resetFn s)) = length (store s) ∧
  (NoDup (active s) →
   ∀ i, store (releaseAll resetFn s) !! i =
        if decide (i ∈ active s) then resetFn <$> store s !! i else store s !! i).
Proof.
  unfold releaseAll, getActive.
  destruct (releaseAll_fold (active s) s eq_refl) as (-> & -> & ->).
  split; [ done | ]. split; [ done | ]. split; [ apply alter_fold_length | ].
  intros Hnd i. rewrite alter_fold_lookup by (by rewrite reverse_Permutation).
  destruct (decide (i ∈ active s)) as [Hin | Hnin].
  - by rewrite decide_True by (by apply elem_of_reverse).
  - rewrite decide_False; [ done | ]. by rewrite elem_of_reverse.
Qed.

End PoolProps.

Section PoolWitness.

Lemma pool_conserved_witness :
  ObjectPool.pool_ok (ObjectPool.acquire S (ObjectPool.new S 2%Z)).2 ∧
  (length (ObjectPool.pool (ObjectPool.acquire S (ObjectPool.new S 2%Z)).2) +
   length (ObjectPool.active (ObjectPool.acquire S (ObjectPool.new S 2%Z)).2) =
   length (ObjectPool.store (ObjectPool.acquire S (ObjectPool.new S 2%Z)).2))%nat ∧
  (ObjectPool.acquire S (ObjectPool.acquire S (ObjectPool.new S 2%Z)).2).1
    ∉ ObjectPool.active (ObjectPool.acquire S (ObjectPool.new S 2%Z)).2.
Proof.
  apply (pool_conserved S Nat.pred (ObjectPool.acquire S (ObjectPool.new S 2%Z)).2).
  apply ObjectPool.used_acquire, ObjectPool.used_new.
Defined.

Lemma acquire_release_round_trip_witness :
  ObjectPool.active (ObjectPool.acquire S (ObjectPool.new S 2%Z)).2 =
    ObjectPool.active (ObjectPool.new S 2%Z) ++
      [(ObjectPool.acquire S (ObjectPool.new S 2%Z)).1] ∧
  ObjectPool.active
    (ObjectPool.release Nat.pred (ObjectPool.acquire S (ObjectPool.new S 2%Z)).1
       (ObjectPool.acquire S (ObjectPool.new S 2%Z)).2) =
    ObjectPool.active (ObjectPool.new S 2%Z) ∧
  (∀ p obj, ObjectPool.pool (ObjectPool.new S 2%Z) = p ++ [obj] →
     (ObjectPool.acquire S (ObjectPool.new S 2%Z)).1 = obj ∧
     ObjectPool.pool (ObjectPool.acquire S (ObjectPool.new S 2%Z)).2 = p ∧
     ObjectPool.store (ObjectPool.acquire S (ObjectPool.new S 2%Z)).2 =
       ObjectPool.store (ObjectPool.new S 2%Z) ∧
     ObjectPool.pool
       (ObjectPool.release Nat.pred (ObjectPool.acquire S (ObjectPool.new S 2%Z)).1
          (ObjectPool.acquire S (ObjectPool.new S 2%Z)).2) =
       ObjectPool.pool (ObjectPool.new S 2%Z)) ∧
  (ObjectPool.pool (ObjectPool.new S 2%Z) = [] →
   (ObjectPool.acquire S (ObjectPool.new S 2%Z)).1 =
     length (ObjectPool.store (ObjectPool.new S 2%Z)) ∧
   ObjectPool.store (ObjectPool.acquire S (ObjectPool.new S 2%Z)).2 =
     ObjectPool.store (ObjectPool.new S 2%Z) ++
       [S (length (ObjectPool.store (ObjectPool.new S 2%Z)))] ∧
   ObjectPool.pool
     (ObjectPool.release Nat.pred (ObjectPool.acquire S (ObjectPool.new S 2%Z)).1
        (ObjectPool.acquire S (ObjectPool.new S 2%Z)).2) =
     [(ObjectPool.acquire S (ObjectPool.new S 2%Z)).1]).
Proof.
  apply (acquire_release_round_trip S Nat.pred (ObjectPool.new S 2%Z)).
  cbn. apply not_elem_of_nil.
Defined.

End PoolWitness.
